(** * HeyReach -> Attio incremental sync engine: a shallow embedding

    The definitions below follow [heyreach-backfill.js].  JavaScript strings
    are modelled as [string] (sequences of code units below 256), optional
    JSON fields as [option string] ([None] for a missing, [null] or
    [undefined] field), JavaScript objects used as dictionaries as [gmap],
    and arrays as lists.  Calls to the two remote services (the HeyReach
    Source and the Attio Sink) are modelled by the answers they give, which
    are arguments of the functions that perform the calls. *)

From Stdlib Require Import ZArith Ascii String List Bool Lia DecimalString.
From stdpp Require Import base gmap strings list.

(* ===================================================================== *)
(** ** JavaScript string primitives used by the script *)
(* ===================================================================== *)

Module Js.

(** Truthiness of a string: only the empty string is falsy. *)
Definition truthy (s : string) : bool :=
  match s with EmptyString => false | String _ _ => true end.

(** [a || b] where [a] is a string. *)
Definition or (a b : string) : string := if truthy a then a else b.

(** [a || b] where [a] is an optional JSON field. *)
Definition orOpt (a : option string) (b : string) : string :=
  match a with Some s => or s b | None => b end.

(** The code units below 256 that [String.prototype.trim] and the regular
    expression class [\s] treat as white space. *)
Definition isWhiteSpace (c : ascii) : bool :=
  match c with
  | "009" | "010" | "011" | "012" | "013" | " " | "160" => true
  | _ => false
  end%char.

Fixpoint trimStart (s : string) : string :=
  match s with
  | EmptyString => EmptyString
  | String c r => if isWhiteSpace c then trimStart r else s
  end.

Fixpoint trimEnd (s : string) : string :=
  match s with
  | EmptyString => EmptyString
  | String c r =>
      match trimEnd r with
      | EmptyString => if isWhiteSpace c then EmptyString else String c EmptyString
      | r' => String c r'
      end
  end.

(** [s.trim()] *)
Definition trim (s : string) : string := trimEnd (trimStart s).

Fixpoint startsWith (p s : string) : bool :=
  match p, s with
  | EmptyString, _ => true
  | String a p', String b s' => if Ascii.eqb a b then startsWith p' s' else false
  | String _ _, EmptyString => false
  end.

(** [s.includes(needle)] *)
Fixpoint includes (needle s : string) : bool :=
  if startsWith needle s then true
  else match s with
       | EmptyString => false
       | String _ r => includes needle r
       end.

(** [s.endsWith(c)] for a one-character suffix. *)
Fixpoint endsWithChar (c : ascii) (s : string) : bool :=
  match s with
  | EmptyString => false
  | String a EmptyString => Ascii.eqb a c
  | String _ r => endsWithChar c r
  end.

(** [s.slice(0, -1)] *)
Fixpoint dropLast (s : string) : string :=
  match s with
  | EmptyString => EmptyString
  | String _ EmptyString => EmptyString
  | String a r => String a (dropLast r)
  end.

(** [s.split(/\s+/)]: pieces between maximal runs of white space; a run at
    either end leaves an empty piece there, and the empty string gives one
    empty piece.  [inRun] tells that the previous code unit was white
    space. *)
Fixpoint splitWsAux (inRun : bool) (s : string) : list string :=
  match s with
  | EmptyString => [EmptyString]
  | String c r =>
      if isWhiteSpace c
      then (if inRun then splitWsAux true r else EmptyString :: splitWsAux true r)
      else match splitWsAux false r with
           | [] => [String c EmptyString]
           | w :: ws => String c w :: ws
           end
  end.

Definition splitWs (s : string) : list string := splitWsAux false s.

(** [parts.join(sep)] *)
Fixpoint join (sep : string) (parts : list string) : string :=
  match parts with
  | [] => EmptyString
  | [p] => p
  | p :: rest => p +:+ sep +:+ join sep rest
  end.

(** [a >= b] on two strings: code-unit-wise lexicographic order. *)
Definition geb (a b : string) : bool := String.leb b a.

(** Values that reach [normalizeLinkedInUrl]: a string, or a missing
    field. *)
Inductive value :=
| Undefined
| Null
| Str (s : string).

End Js.

(* ===================================================================== *)
(** ** The platform's [URL] class *)
(* ===================================================================== *)

(** [normalizeLinkedInUrl] uses the runtime's URL parser.  Its interface is
    what the function calls: the constructor (which throws on an invalid
    URL, [None] here), the [hostname] getter, the effect of assigning the
    empty string to [hash] and to [search], and [toString]. *)
Record UrlApi := {
  URL : Type;
  newURL : string -> option URL;
  hostname : URL -> string;
  clearHash : URL -> URL;
  clearSearch : URL -> URL;
  toString : URL -> string
}.

(** A small instance for absolute URLs written in lower case as
    [http://host/path?query#fragment] or [https://...], with a host of
    letters and dots and a path of letters, digits, hyphens, underscores,
    tildes and slashes.  On these inputs the runtime's parser keeps host
    and path as written and serialises an empty path as [/].  Every other
    input is rejected by this instance; it is only evaluated on inputs of
    the shape above. *)
Module SimpleUrl.

Record t := {
  scheme : string;
  host : string;
  path : string;
  query : option string;
  fragment : option string
}.

Definition isHostChar (c : ascii) : bool :=
  let n := nat_of_ascii c in
  ((97 <=? n) && (n <=? 122)) || Ascii.eqb c "."%char.

Definition isPathChar (c : ascii) : bool :=
  let n := nat_of_ascii c in
  ((97 <=? n) && (n <=? 122)) || ((65 <=? n) && (n <=? 90))
  || ((48 <=? n) && (n <=? 57))
  || Ascii.eqb c "-"%char || Ascii.eqb c "_"%char || Ascii.eqb c "~"%char
  || Ascii.eqb c "/"%char.

Fixpoint allChars (p : ascii -> bool) (s : string) : bool :=
  match s with
  | EmptyString => true
  | String c r => p c && allChars p r
  end.

(** Split at the first code unit satisfying [stop]; the second component
    starts with that code unit. *)
Fixpoint splitAt (stop : ascii -> bool) (s : string) : string * string :=
  match s with
  | EmptyString => (EmptyString, EmptyString)
  | String c r =>
      if stop c then (EmptyString, s)
      else let '(a, b) := splitAt stop r in (String c a, b)
  end.

Definition tail (s : string) : string :=
  match s with EmptyString => EmptyString | String _ r => r end.

Definition isOneOf (cs : string) (c : ascii) : bool :=
  Js.includes (String c EmptyString) cs.

Definition parseRest (sch rest : string) : option t :=
  let '(h, afterHost) := splitAt (isOneOf "/?#") rest in
  let '(p, afterPath) := splitAt (isOneOf "?#") afterHost in
  let '(q, afterQuery) := splitAt (isOneOf "#") afterPath in
  if Js.truthy h && allChars isHostChar h && allChars isPathChar p
  then Some {| scheme := sch;
               host := h;
               path := if Js.truthy p then p else "/";
               query := if Js.truthy q then Some (tail q) else None;
               fragment := if Js.truthy afterQuery then Some (tail afterQuery) else None |}
  else None.

Definition parse (s : string) : option t :=
  if Js.startsWith "https://" s then parseRest "https" (substring 8 (String.length s - 8) s)
  else if Js.startsWith "http://" s then parseRest "http" (substring 7 (String.length s - 7) s)
  else None.

Definition serialize (u : t) : string :=
  scheme u +:+ "://" +:+ host u +:+ path u
  +:+ match query u with Some q => "?" +:+ q | None => "" end
  +:+ match fragment u with Some f => "#" +:+ f | None => "" end.

Definition api : UrlApi := {|
  URL := t;
  newURL := parse;
  hostname := host;
  clearHash := fun u => {| scheme := scheme u; host := host u; path := path u;
                           query := query u; fragment := None |};
  clearSearch := fun u => {| scheme := scheme u; host := host u; path := path u;
                             query := None; fragment := fragment u |};
  toString := serialize
|}.

End SimpleUrl.

(* ===================================================================== *)
(** ** Identity keys *)
(* ===================================================================== *)

(** [normalizeLinkedInUrl(url)].  A missing or empty value gives the empty
    string.  Otherwise the trimmed string is parsed; when parsing throws,
    the [catch] branch returns the trimmed input; when the host does not
    contain [linkedin] the trimmed input is returned; otherwise fragment
    and query are cleared and one trailing slash is removed from the
    serialised URL. *)
Definition normalizeLinkedInUrl (api : UrlApi) (url : Js.value) : string :=
  match url with
  | Js.Undefined | Js.Null => ""
  | Js.Str s =>
      if negb (Js.truthy s) then ""
      else
        match newURL api (Js.trim s) with
        | Some u =>
            if Js.includes "linkedin" (hostname api u) then
              let u := clearSearch api (clearHash api u) in
              let normalized := toString api u in
              if Js.endsWithChar "/" normalized then Js.dropLast normalized
              else normalized
            else Js.trim s
        | None => Js.trim s
        end
  end.

(* ===================================================================== *)
(** ** Diff-and-patch reconciliation of people *)
(* ===================================================================== *)

(** A flat people row, as built by [buildPeopleRowFromCorrespondent] and
    [extractLeadCore]. *)
Record PersonRow := {
  first_name : string;
  last_name : string;
  full_name : string;
  job_title : string;
  company_name : string;
  company_domain : string;
  linkedin_url : string;
  heyreach_lead_id : string;
  lead_source : string;
  campaign_name : string;
  campaign_id : string;
  owner_email : string;
  lead_status : string;
  last_touch_at : string;
  last_reply_at : string
}.

(** One entry of a Sink attribute: the [name] attribute carries three
    parts, the text attributes a [value]. *)
Record NameEntry := {
  ne_full_name : option string;
  ne_first_name : option string;
  ne_last_name : option string
}.

(** The part of a Sink people record that the reconciler reads:
    [record.values], each attribute being an array with the latest entry
    first. *)
Record AttioRecord := {
  v_name : list NameEntry;
  v_job_title_5 : list (option string);
  v_company_name : list (option string);
  v_heyreach_lead_id : list (option string)
}.

(** The object returned by [extractCurrentValues]; [None] is [null]. *)
Record CurrentValues := {
  cur_full_name : option string;
  cur_first_name : option string;
  cur_last_name : option string;
  cur_job_title : option string;
  cur_company_name : option string;
  cur_heyreach_lead_id : option string
}.

(** [getLatest(field)]: the first entry of the attribute's array, [null]
    when the array is missing or empty. *)
Definition getLatest {A : Type} (entries : list A) : option A :=
  match entries with
  | [] => None
  | e :: _ => Some e
  end.

Definition extractCurrentValues (attioRecord : AttioRecord) : CurrentValues :=
  let nameField := getLatest (v_name attioRecord) in
  let jobTitleField := getLatest (v_job_title_5 attioRecord) in
  let companyNameField := getLatest (v_company_name attioRecord) in
  let heyreachIdField := getLatest (v_heyreach_lead_id attioRecord) in
  {| cur_full_name := nameField ≫= ne_full_name;
     cur_first_name := nameField ≫= ne_first_name;
     cur_last_name := nameField ≫= ne_last_name;
     cur_job_title := jobTitleField ≫= id;
     cur_company_name := companyNameField ≫= id;
     cur_heyreach_lead_id := heyreachIdField ≫= id |}.

(** A value in a patch payload. *)
Inductive AttrValue :=
| NameValue (full first last : string)
| TextValue (s : string).

(** The [changes] object: its own keys in insertion order. *)
Definition Changes := list (string * AttrValue).

(** [Object.keys(changes)] *)
Definition keys (changes : Changes) : list string := map fst changes.

(** [newRow.full_name || `${newFirst} ${newLast}`.trim()] *)
Definition newFullOf (newRow : PersonRow) : string :=
  let newFirst := Js.or (first_name newRow) "" in
  let newLast := Js.or (last_name newRow) "" in
  Js.or (full_name newRow) (Js.trim (newFirst +:+ " " +:+ newLast)).

(** [x !== y] for a row string [x] and a stored value [y]. *)
Definition strictNe (x : string) (y : option string) : bool :=
  match y with
  | Some s => negb (String.eqb x s)
  | None => true
  end.

Definition detectChanges (currentValues : CurrentValues) (newRow : PersonRow) : Changes :=
  let newFirst := Js.or (first_name newRow) "" in
  let newLast := Js.or (last_name newRow) "" in
  let newFull := newFullOf newRow in
  let currentFull := Js.orOpt (cur_full_name currentValues) "" in
  (if Js.truthy newFull && negb (String.eqb newFull currentFull)
   then [("name",
          NameValue newFull
            (Js.or newFirst (Js.or (hd "" (Js.splitWs newFull)) ""))
            (Js.or newLast (Js.or (Js.join " " (tl (Js.splitWs newFull))) "")))]
   else [])
  ++ (if Js.truthy (job_title newRow)
         && strictNe (job_title newRow) (cur_job_title currentValues)
      then [("job_title_5", TextValue (job_title newRow))] else [])
  ++ (if Js.truthy (company_name newRow)
         && strictNe (company_name newRow) (cur_company_name currentValues)
      then [("company_name", TextValue (company_name newRow))] else [])
  ++ (if Js.truthy (heyreach_lead_id newRow)
         && negb (Js.truthy (Js.orOpt (cur_heyreach_lead_id currentValues) ""))
      then [("heyreach_lead_id", TextValue (heyreach_lead_id newRow))] else []).

(** What an HTTP call to the Sink can give: a response with a 2xx status,
    a response with another status, or a thrown network error. *)
Inductive HttpOutcome (A : Type) :=
| Ok2xx (body : A)
| Non2xx (status : Z)
| Thrown (message : string).
Arguments Ok2xx {A} body.
Arguments Non2xx {A} status.
Arguments Thrown {A} message.

(** A request issued to the Sink. *)
Inductive SinkRequest :=
| QueryPerson (linkedinUrl : string)
| CreatePerson (row : PersonRow)
| PatchPerson (recordId : string) (values : Changes)
| LinkMessages (personId : string) (messageIds : list nat)
| UpsertPeople (rows : list PersonRow).

(** The result object of [updatePersonFields]. *)
Inductive UpdateResult :=
| Updated (fields : list string)
| NotUpdated (error : option string).

(** What the Sink gives during one [updatePersonFields] call: to
    [ensureAttioObjectIdsLoaded] (only a thrown error matters there) and to
    the PATCH. *)
Record PatchAnswers := {
  onEnsureIds : HttpOutcome unit;
  onPatch : HttpOutcome unit
}.

(** [updatePersonFields(recordId, changes)]: with no changed key nothing is
    sent; otherwise one PATCH whose [values] are exactly [changes], unless
    loading the object ids throws first.  The second component lists the
    write requests issued. *)
Definition updatePersonFields (recordId : string) (changes : Changes)
    (answers : PatchAnswers) : UpdateResult * list SinkRequest :=
  if Nat.eqb (length (keys changes)) 0 then (NotUpdated None, [])
  else
    match onEnsureIds answers with
    | Thrown message => (NotUpdated (Some message), [])
    | _ =>
        (match onPatch answers with
         | Ok2xx _ => Updated (keys changes)
         | Non2xx _ => NotUpdated (Some "Non-2xx status")
         | Thrown message => NotUpdated (Some message)
         end,
         [PatchPerson recordId changes])
    end.

(** What the reconciler does with one row. *)
Inductive Outcome := created | updated | unchanged | failed.

(** The existing-person branch of [attioUpsertPeople]: compare, and patch
    when the change set has a key. *)
Definition reconcileExisting (recordId : string) (record : AttioRecord)
    (row : PersonRow) (answers : PatchAnswers) : Outcome * list SinkRequest :=
  let currentValues := extractCurrentValues record in
  let changes := detectChanges currentValues row in
  if Nat.ltb 0 (length (keys changes)) then
    let '(updateResult, reqs) := updatePersonFields recordId changes answers in
    (match updateResult with Updated _ => updated | NotUpdated _ => failed end, reqs)
  else (unchanged, []).

(** The Sink's record after a successful PATCH with [changes], as the
    reconciler will read it back on the next run: each attribute named in
    the payload gets the payload's value as its latest entry, every other
    attribute is left as it was. *)
Definition applyChange (record : AttioRecord) (kv : string * AttrValue) : AttioRecord :=
  match kv with
  | (k, NameValue full first last) =>
      if String.eqb k "name"
      then {| v_name := {| ne_full_name := Some full; ne_first_name := Some first;
                           ne_last_name := Some last |} :: v_name record;
              v_job_title_5 := v_job_title_5 record;
              v_company_name := v_company_name record;
              v_heyreach_lead_id := v_heyreach_lead_id record |}
      else record
  | (k, TextValue s) =>
      if String.eqb k "job_title_5"
      then {| v_name := v_name record;
              v_job_title_5 := Some s :: v_job_title_5 record;
              v_company_name := v_company_name record;
              v_heyreach_lead_id := v_heyreach_lead_id record |}
      else if String.eqb k "company_name"
      then {| v_name := v_name record;
              v_job_title_5 := v_job_title_5 record;
              v_company_name := Some s :: v_company_name record;
              v_heyreach_lead_id := v_heyreach_lead_id record |}
      else if String.eqb k "heyreach_lead_id"
      then {| v_name := v_name record;
              v_job_title_5 := v_job_title_5 record;
              v_company_name := v_company_name record;
              v_heyreach_lead_id := Some s :: v_heyreach_lead_id record |}
      else record
  end.

Definition applyPatch (record : AttioRecord) (changes : Changes) : AttioRecord :=
  fold_left applyChange changes record.

(** One reconciliation of an existing record against a row, followed by
    the Sink's new state: the PATCH, when one is sent and accepted, is
    applied to the record. *)
Definition reconcileStep (recordId : string) (record : AttioRecord)
    (rowAndAnswers : PersonRow * PatchAnswers) : AttioRecord :=
  let '(row, answers) := rowAndAnswers in
  match reconcileExisting recordId record row answers with
  | (updated, [PatchPerson _ changes]) => applyPatch record changes
  | _ => record
  end.

(* ===================================================================== *)
(** ** The inbox flow: extraction, watermark, in-run deduplication *)
(* ===================================================================== *)

(** [conv.correspondentProfile] *)
Record Correspondent := {
  profileUrl : option string;
  profile_url : option string;
  firstName : option string;
  c_first_name : option string;
  lastName : option string;
  c_last_name : option string;
  position : option string;
  headline : option string;
  companyName : option string
}.

(** [conv.correspondentProfile || {}] when the profile is missing. *)
Definition noCorrespondent : Correspondent :=
  {| profileUrl := None; profile_url := None; firstName := None;
     c_first_name := None; lastName := None; c_last_name := None;
     position := None; headline := None; companyName := None |}.

(** One element of [conv.messages]. *)
Record RawMessage := {
  sender : option string;
  createdAt : option string;
  body : option string;
  isInMail : bool
}.

(** One conversation returned by the inbox endpoint. *)
Record Conversation := {
  conv_id : option string;
  lastMessageAt : option string;
  correspondentProfile : option Correspondent;
  accountEmailAddress : option string;   (* conv.linkedInAccount.emailAddress *)
  campaignId : option string;
  messages : list RawMessage;
  totalMessages : option Z;              (* present when it is a number *)
  lastMessageSender : option string;
  lastMessageText : option string
}.

Definition buildPeopleRowFromCorrespondent (api : UrlApi) (c : Correspondent) : PersonRow :=
  let liUrl := normalizeLinkedInUrl api
                 (Js.Str (Js.orOpt (profileUrl c) (Js.orOpt (profile_url c) ""))) in
  let first := Js.orOpt (firstName c) (Js.orOpt (c_first_name c) "") in
  let last := Js.orOpt (lastName c) (Js.orOpt (c_last_name c) "") in
  {| first_name := first;
     last_name := last;
     full_name := Js.trim (first +:+ " " +:+ last);
     job_title := Js.orOpt (position c) (Js.orOpt (headline c) "");
     company_name := Js.orOpt (companyName c) "";
     company_domain := "";
     linkedin_url := liUrl;
     heyreach_lead_id := "";
     lead_source := "HeyReach";
     campaign_name := "";
     campaign_id := "";
     owner_email := "";
     lead_status := "";
     last_touch_at := "";
     last_reply_at := "" |}.

(** A thread row.  The script's engagement figures that are computed from
    the wall clock or with floating-point division ([response_time_hours],
    [conversation_stage], [response_rate]) and the JSON text of the raw
    conversation are not part of the model; [t_messages] stands for
    [messages_json]. *)
Record ThreadRow := {
  t_person_match_linkedin_url : string;
  t_thread_id : string;
  t_campaign_id : string;
  t_first_message_at : string;
  t_last_message_at : string;
  t_total_messages : Z;
  t_last_message_text : string;
  t_last_sender : string;
  t_last_direction : string;
  t_last_channel : string;
  t_message_count_sent : nat;
  t_message_count_received : nat;
  t_messages : list RawMessage
}.

Record MessageRow := {
  person_match_linkedin_url : string;
  lead_id : string;
  direction : string;
  channel : string;
  message_id : string;
  thread_id : string;
  msg_campaign_id : string;
  timestamp : string;
  msg_body : string;
  raw : RawMessage
}.

(** An entry of [syncState.threads]. *)
Record Watermark := {
  last_message_at : string;
  message_count : Z;
  last_synced : string
}.

(** The mutable data of the inbox flow: [syncState.threads], the
    [peopleByUrl] map (used as a set) and the three row arrays. *)
Record RunState := {
  threads : gmap string Watermark;
  peopleByUrl : gset string;
  peopleRows : list PersonRow;
  threadRows : list ThreadRow;
  messageRows : list MessageRow
}.

(** [syncState.last_sync && !FORCE_INBOX] *)
Definition isIncrementalSync (last_sync : option string) (FORCE_INBOX : bool) : bool :=
  Js.truthy (Js.orOpt last_sync "") && negb FORCE_INBOX.

(** The test guarding [continue] in the conversation loop. *)
Definition skipUnchanged (incremental : bool) (ths : gmap string Watermark)
    (convId lastAt : string) : bool :=
  incremental &&
  match ths !! convId with
  | Some w => Js.geb (last_message_at w) lastAt
  | None => false
  end.

Definition convIdOf (conv : Conversation) : string := Js.orOpt (conv_id conv) "".
Definition lastAtOf (conv : Conversation) : string := Js.orOpt (lastMessageAt conv) "".

Definition correspondentOf (conv : Conversation) : Correspondent :=
  match correspondentProfile conv with Some c => c | None => noCorrespondent end.

(** The identity key of a conversation: the normalised profile URL, or,
    when that is empty, the synthetic URL built from the conversation id. *)
Definition liUrlOf (api : UrlApi) (conv : Conversation) : string :=
  let correspondent := correspondentOf conv in
  let liUrl := normalizeLinkedInUrl api
                 (Js.Str (Js.orOpt (profileUrl correspondent)
                            (Js.orOpt (profile_url correspondent) ""))) in
  if negb (Js.truthy liUrl)
  then "https://www.linkedin.com/in/conversation-" +:+ convIdOf conv
  else liUrl.

Definition isMe (m : RawMessage) : bool :=
  match sender m with Some s => String.eqb s "ME" | None => false end.

(** The person row pushed for a conversation whose key is new. *)
Definition personRowOf (api : UrlApi) (conv : Conversation) : PersonRow :=
  let personRow := buildPeopleRowFromCorrespondent api (correspondentOf conv) in
  let convCampaignId := Js.orOpt (campaignId conv) "" in
  {| first_name := first_name personRow;
     last_name := last_name personRow;
     full_name := full_name personRow;
     job_title := job_title personRow;
     company_name := company_name personRow;
     company_domain := company_domain personRow;
     linkedin_url := liUrlOf api conv;
     heyreach_lead_id := heyreach_lead_id personRow;
     lead_source := lead_source personRow;
     campaign_name := if Js.truthy convCampaignId
                      then "Campaign " +:+ convCampaignId else "";
     campaign_id := convCampaignId;
     owner_email := Js.orOpt (accountEmailAddress conv) "";
     lead_status := lead_status personRow;
     last_touch_at := last_touch_at personRow;
     last_reply_at := last_reply_at personRow |}.

(** [x?.createdAt] of the last element of an array, when there is one. *)
Definition lastCreatedAt (ms : list RawMessage) : option string :=
  last ms ≫= createdAt.

Definition totalMessagesOf (conv : Conversation) : Z :=
  match totalMessages conv with
  | Some n => n
  | None => Z.of_nat (length (messages conv))
  end.

Definition threadRowOf (api : UrlApi) (conv : Conversation) : ThreadRow :=
  let msgs := messages conv in
  let sentMessages := filter (fun m => isMe m = true) msgs in
  let receivedMessages := filter (fun m => isMe m = false) msgs in
  let firstAt :=
    fold_left (fun min m =>
                 let t := Js.orOpt (createdAt m) "" in
                 if negb (Js.truthy min) || (Js.truthy t && String.ltb t min)
                 then t else min)
              msgs (lastAtOf conv) in
  let lastSender :=
    Js.orOpt (lastMessageSender conv)
      (match last msgs with Some m => Js.orOpt (sender m) "" | None => "" end) in
  {| t_person_match_linkedin_url := liUrlOf api conv;
     t_thread_id := convIdOf conv;
     t_campaign_id := Js.orOpt (campaignId conv) "";
     t_first_message_at := firstAt;
     t_last_message_at := lastAtOf conv;
     t_total_messages := totalMessagesOf conv;
     t_last_message_text := Js.orOpt (lastMessageText conv) "";
     t_last_sender := lastSender;
     t_last_direction := if String.eqb lastSender "ME" then "sent"
                         else if Js.truthy lastSender then "received" else "";
     t_last_channel := match last msgs with
                       | Some m => if isInMail m then "inmail" else "dm"
                       | None => "dm"
                       end;
     t_message_count_sent := length sentMessages;
     t_message_count_received := length receivedMessages;
     t_messages := msgs |}.

Definition messageRowOf (api : UrlApi) (conv : Conversation) (m : RawMessage) : MessageRow :=
  let sender := Js.orOpt (sender m) "" in
  {| person_match_linkedin_url := liUrlOf api conv;
     lead_id := "";
     direction := if String.eqb sender "ME" then "sent"
                  else if Js.truthy sender then "received" else "";
     channel := if isInMail m then "inmail" else "dm";
     message_id := "";
     thread_id := convIdOf conv;
     msg_campaign_id := Js.orOpt (campaignId conv) "";
     timestamp := Js.orOpt (createdAt m) "";
     msg_body := Js.orOpt (body m) "";
     raw := m |}.

(** The body of [for (const conv of items)].  [now] is the time written
    into the watermark's [last_synced]. *)
Definition processConversation (api : UrlApi) (now : string) (incremental : bool)
    (st : RunState) (conv : Conversation) : RunState :=
  let convId := convIdOf conv in
  let lastAt := lastAtOf conv in
  if skipUnchanged incremental (threads st) convId lastAt then st
  else
    let liUrl := liUrlOf api conv in
    let isNew := Js.truthy liUrl && negb (bool_decide (liUrl ∈ peopleByUrl st)) in
    {| threads := <[convId := {| last_message_at := lastAt;
                                 message_count := totalMessagesOf conv;
                                 last_synced := now |}]> (threads st);
       peopleByUrl := if isNew then {[liUrl]} ∪ peopleByUrl st else peopleByUrl st;
       peopleRows := if isNew then peopleRows st ++ [personRowOf api conv]
                     else peopleRows st;
       threadRows := threadRows st ++ [threadRowOf api conv];
       messageRows := messageRows st ++ map (messageRowOf api conv) (messages conv) |}.

Definition processItems (api : UrlApi) (now : string) (incremental : bool)
    (st : RunState) (items : list Conversation) : RunState :=
  fold_left (processConversation api now incremental) items st.

(** The state at the start of the inbox flow: the watermarks read from the
    state file and nothing extracted yet. *)
Definition initialState (ths : gmap string Watermark) : RunState :=
  {| threads := ths; peopleByUrl := ∅; peopleRows := []; threadRows := [];
     messageRows := [] |}.

(** The validation pass over [peopleRows]: keep a row when its key is
    non-empty and not yet in [seenUrls]. *)
Fixpoint validatePeople (seenUrls : gset string) (rows : list PersonRow) : list PersonRow :=
  match rows with
  | [] => []
  | person :: rest =>
      if Js.truthy (linkedin_url person)
         && negb (bool_decide (linkedin_url person ∈ seenUrls))
      then person :: validatePeople ({[linkedin_url person]} ∪ seenUrls) rest
      else validatePeople seenUrls rest
  end.

Definition validatedPeople (st : RunState) : list PersonRow :=
  validatePeople ∅ (peopleRows st).

(* ===================================================================== *)
(** ** Paginated extraction *)
(* ===================================================================== *)

(** [a || b] on numbers: [0] and a missing value are falsy. *)
Definition orZ (a : option Z) (b : Z) : Z :=
  match a with
  | Some n => if Z.eqb n 0 then b else n
  | None => b
  end.

(** The JSON body of an inbox response ([data.items || data.data] is
    [body_items]). *)
Record InboxBody := {
  body_totalCount : option Z;
  body_count : option Z;
  body_items : list Conversation
}.

(** One partition of the extraction space. *)
Inductive Filters :=
| ByList (listId : string)
| ByCampaign (campaignId : Z)
| ByAccount (linkedInAccountId : Z)
| ByCampaignAndAccount (campaignId linkedInAccountId : Z).

(** The Source's answer to an inbox request, as [getWithRetry] hands it
    over: a response, or a thrown error once the retries are spent. *)
Definition InboxSource := Filters -> Z -> Z -> HttpOutcome InboxBody.

(** [fetchInboxConversations(url, filters, limit, offset)]; a thrown error
    passes through. *)
Definition fetchInboxConversations (source : InboxSource) (INBOX_LIMIT : Z)
    (filters : Filters) (limit offset : Z) : (Z * list Conversation) + string :=
  match source filters (if Z.eqb limit 0 then INBOX_LIMIT else limit) offset with
  | Ok2xx data => inl (orZ (body_totalCount data) (orZ (body_count data) 0), body_items data)
  | Non2xx _ => inl (0%Z, [])
  | Thrown message => inr message
  end.

(** How the page loop of one filter batch ended: normally, or by an error
    thrown out of a fetch.  [pageRequests] counts the calls of
    [fetchInboxConversations]. *)
Record BatchResult := {
  finalState : RunState;
  pageRequests : nat;
  thrown : option string
}.

Section InboxPages.
Variable api : UrlApi.
Variable now : string.
Variable incremental : bool.
Variable source : InboxSource.
Variables INBOX_LIMIT INBOX_MAX_PAGES : Z.
Variable f : Filters.

(** The loop [for (let page = 0; ; page += 1)] with its three exits; [None]
    when [fuel] iterations did not reach an exit. *)
Fixpoint inboxPagesFrom (fuel : nat) (page offset : Z) (st : RunState)
    (requests : nat) : option BatchResult :=
  match fuel with
  | O => None
  | S fuel' =>
      match fetchInboxConversations source INBOX_LIMIT f INBOX_LIMIT offset with
      | inr message =>
          Some {| finalState := st; pageRequests := S requests; thrown := Some message |}
      | inl (totalCount, items) =>
          if Nat.eqb (length items) 0
          then Some {| finalState := st; pageRequests := S requests; thrown := None |}
          else
            let st' := processItems api now incremental st items in
            let offset' := (offset + Z.of_nat (length items))%Z in
            if (totalCount <=? offset')%Z
            then Some {| finalState := st'; pageRequests := S requests; thrown := None |}
            else if (INBOX_MAX_PAGES <=? page + 1)%Z
            then Some {| finalState := st'; pageRequests := S requests; thrown := None |}
            else inboxPagesFrom fuel' (page + 1)%Z offset' st' (S requests)
      end
  end.

(** One filter batch: [offset] and [page] start at 0.  The page cap bounds
    the number of iterations. *)
Definition inboxBatch (st : RunState) : option BatchResult :=
  inboxPagesFrom (Z.to_nat (Z.max 1 INBOX_MAX_PAGES)) 0 0 st 0.

End InboxPages.

(** A raw lead of the leads endpoint. *)
Record RawLead := {
  leadId : option string;
  lead_id_ : option string;          (* lead.id *)
  lead_lead_id : option string;      (* lead.lead_id *)
  linkedinProfileUrl : option string;
  lead_linkedin_url : option string;
  lead_profileUrl : option string;
  lead_profile_url : option string;
  lead_firstName : option string;
  lead_first_name : option string;
  lead_lastName : option string;
  lead_last_name : option string;
  lead_fullName : option string;
  lead_full_name : option string;
  lead_title : option string;
  lead_job_title : option string;
  lead_position : option string;
  lead_companyName : option string;
  lead_company_name : option string;
  lead_companyDomain : option string;
  lead_company_domain : option string;
  lead_campaignName : option string;
  lead_campaign_name : option string;
  lead_campaignId : option string;
  lead_campaign_id : option string;
  lead_ownerEmail : option string;
  lead_owner_email : option string;
  lead_status_ : option string;
  lead_lead_status : option string;
  lead_lastTouchAt : option string;
  lead_last_touch_at : option string;
  lead_lastReplyAt : option string;
  lead_last_reply_at : option string
}.

(** A page of the leads endpoint, after the script's shape heuristics:
    the items, the next cursor (empty when there is none) and [hasMore]. *)
Record LeadsPage := {
  page_items : list RawLead;
  page_cursor : string;
  page_hasMore : bool
}.

(** The Source's answer to a leads request for [(listId, limit, page,
    cursor)]: a page, or the error thrown by [getWithRetry]. *)
Definition LeadsSource := option string -> Z -> Z -> string -> LeadsPage + string.

(** How [fetchLeadsFromList] ends: with the leads, or by throwing. *)
Inductive Fetched (A : Type) :=
| Returned (results : A)
| Threw (message : string).
Arguments Returned {A} results.
Arguments Threw {A} message.

(** The loop of [fetchLeadsFromList(listId)]; the second component counts
    the page requests.  [None] when [fuel] iterations did not reach the
    [break]. *)
Fixpoint fetchLeadsLoop (source : LeadsSource) (PAGE_LIMIT : Z) (listId : option string)
    (fuel : nat) (results : list RawLead) (cursor : string) (page : Z)
    (requests : nat) : option (Fetched (list RawLead) * nat) :=
  match fuel with
  | O => None
  | S fuel' =>
      match source listId PAGE_LIMIT page cursor with
      | inr message => Some (Threw message, S requests)
      | inl data =>
          let items := page_items data in
          let results' := results ++ items in
          let cursor' := page_cursor data in
          if Js.truthy cursor'
          then fetchLeadsLoop source PAGE_LIMIT listId fuel' results' cursor' page (S requests)
          else if page_hasMore data
          then fetchLeadsLoop source PAGE_LIMIT listId fuel' results' cursor' (page + 1)%Z (S requests)
          else if Z.eqb (Z.of_nat (length items)) PAGE_LIMIT
          then fetchLeadsLoop source PAGE_LIMIT listId fuel' results' cursor' (page + 1)%Z (S requests)
          else Some (Returned results', S requests)
      end
  end.

Definition fetchLeadsFromList (source : LeadsSource) (PAGE_LIMIT : Z)
    (listId : option string) (fuel : nat) : option (Fetched (list RawLead) * nat) :=
  fetchLeadsLoop source PAGE_LIMIT listId fuel [] "" 1%Z 0.

(* ===================================================================== *)
(** ** Upserting people, one record at a time *)
(* ===================================================================== *)

(** What the Sink gives while one row is handled: to the query of
    [findPersonByLinkedInUrl] (a 2xx answer carries the first match with a
    record id, if any), to the update, and to the create (a 2xx answer
    carries the new record id when one can be read from the body). *)
Record RowAnswers := {
  onQuery : HttpOutcome (option (string * AttioRecord));
  onUpdate : PatchAnswers;
  onCreate : HttpOutcome (option string)
}.

(** [findPersonByLinkedInUrl(linkedinUrl)]: a failed query (thrown or not
    2xx) is answered like no match. *)
Definition findPersonByLinkedInUrl (linkedinUrl : string)
    (answer : HttpOutcome (option (string * AttioRecord)))
    : option (string * AttioRecord) * list SinkRequest :=
  if negb (Js.truthy linkedinUrl) then (None, [])
  else
    (match answer with
     | Ok2xx (Some found) => Some found
     | _ => None
     end, [QueryPerson linkedinUrl]).

(** The data [attioUpsertPeople] builds up: the count [ok], the cache
    [PEOPLE_RECORD_ID_BY_LINKEDIN_URL], what was done with each row, and the
    requests sent. *)
Record PeopleUpsert := {
  ok : nat;
  recordIdByUrl : gmap string string;
  outcomes : list (string * Outcome);
  requests : list SinkRequest
}.

(** The body of [for (const row of peopleRows)] on the single-record
    endpoint. *)
Definition upsertPerson (sink : PersonRow -> RowAnswers) (acc : PeopleUpsert)
    (row : PersonRow) : PeopleUpsert :=
  let answers := sink row in
  let li := linkedin_url row in
  let '(existingPerson, qreqs) := findPersonByLinkedInUrl li (onQuery answers) in
  match existingPerson with
  | Some (recordId, record) =>
      let '(outcome, preqs) := reconcileExisting recordId record row (onUpdate answers) in
      {| ok := S (ok acc);
         recordIdByUrl := <[li := recordId]> (recordIdByUrl acc);
         outcomes := outcomes acc ++ [(li, outcome)];
         requests := requests acc ++ qreqs ++ preqs |}
  | None =>
      match onCreate answers with
      | Ok2xx newId =>
          {| ok := S (ok acc);
             recordIdByUrl :=
               match newId with
               | Some recordId =>
                   if Js.truthy recordId && Js.truthy li
                   then <[li := recordId]> (recordIdByUrl acc)
                   else recordIdByUrl acc
               | None => recordIdByUrl acc
               end;
             outcomes := outcomes acc ++ [(li, created)];
             requests := requests acc ++ qreqs ++ [CreatePerson row] |}
      | _ =>
          {| ok := ok acc;
             recordIdByUrl := recordIdByUrl acc;
             outcomes := outcomes acc ++ [(li, failed)];
             requests := requests acc ++ qreqs ++ [CreatePerson row] |}
      end
  end.

(** The loop [for (const row of peopleRows)] of [attioUpsertPeople]. *)
Definition upsertPeopleLoop (sink : PersonRow -> RowAnswers)
    (peopleRows : list PersonRow) : PeopleUpsert :=
  fold_left (upsertPerson sink) peopleRows
    {| ok := 0; recordIdByUrl := ∅; outcomes := []; requests := [] |}.

(** What the one request to the batch endpoint gives: a 2xx response, a
    response with another status ([detail] is the start of its body as
    JSON, empty without a body), or a thrown error. *)
Inductive BatchAnswer :=
| BatchAccepted
| BatchRefused (status : Z) (detail : string)
| BatchThrown (message : string).

(** Where [attioUpsertPeople] sends the people: the single-record create
    endpoint, when [AT_PEOPLE_UPSERT_URL] ends with
    [/v2/objects/people/records]; otherwise (and by default, with
    [/v2/people:batchUpsert]) all rows in one request, [onBatch] being what
    that request gives. *)
Inductive PeopleEndpoint :=
| SingleRecord
| BatchUpsert (onBatch : BatchAnswer).

(** [attioUpsertPeople(peopleRows)].  With no row nothing is done, and a dry
    run only returns the number of rows.  Otherwise
    [ensureAttioObjectIdsLoaded()] is awaited first, outside any [try]:
    [onObjectIds] is what its request gives ([Ok2xx] also when the ids are
    loaded already and no request is made).  When it throws,
    [attioUpsertPeople] throws that error and no row is handled.  On the
    single-record endpoint the rows are then handled one by one; on the
    batch endpoint they are sent at once, nothing is cached, and a response
    that is not 2xx is thrown as an error. *)
Definition attioUpsertPeople (dryRun : bool) (endpoint : PeopleEndpoint)
    (onObjectIds : HttpOutcome unit) (sink : PersonRow -> RowAnswers)
    (peopleRows : list PersonRow) : Fetched PeopleUpsert :=
  if Nat.eqb (length peopleRows) 0
  then Returned {| ok := 0; recordIdByUrl := ∅; outcomes := []; requests := [] |}
  else if dryRun
  then Returned {| ok := length peopleRows; recordIdByUrl := ∅; outcomes := [];
                   requests := [] |}
  else match onObjectIds with
       | Thrown message => Threw message
       | _ =>
           match endpoint with
           | SingleRecord => Returned (upsertPeopleLoop sink peopleRows)
           | BatchUpsert BatchAccepted =>
               Returned {| ok := length peopleRows; recordIdByUrl := ∅; outcomes := [];
                           requests := [UpsertPeople peopleRows] |}
           | BatchUpsert (BatchRefused status detail) =>
               Threw ("Attio people upsert failed ("
                      +:+ NilZero.string_of_int (Z.to_int status) +:+ ") " +:+ detail)
           | BatchUpsert (BatchThrown message) => Threw message
           end
       end.

(* ===================================================================== *)
(** ** Upserting messages *)
(* ===================================================================== *)

(** The values of one message record. *)
Record MessageValues := {
  mv_body : string;
  mv_sent_at : string;
  mv_direction : string;
  mv_channel : string;
  mv_conversation_id : string;
  mv_campaign : option string;
  mv_message_uid : string;
  mv_person : string
}.

(** The uniqueness token: thread id, creation time and sender, joined by
    colons. *)
Definition message_uid (thread_id : string) (m : RawMessage) : string :=
  Js.or thread_id "" +:+ ":" +:+ Js.orOpt (createdAt m) "" +:+ ":" +:+ Js.orOpt (sender m) "".

Definition messageValues (personId : string) (thread : ThreadRow) (m : RawMessage)
    : MessageValues :=
  {| mv_body := Js.orOpt (body m) (Js.or (t_last_message_text thread) "");
     mv_sent_at := Js.orOpt (createdAt m) (t_first_message_at thread);
     mv_direction := if isMe m then "Outbound" else "Inbound";
     mv_channel := if isInMail m then "inmail" else "dm";
     mv_conversation_id := t_thread_id thread;
     mv_campaign := if Js.truthy (t_campaign_id thread)
                    then Some (t_campaign_id thread) else None;
     mv_message_uid := message_uid (t_thread_id thread) m;
     mv_person := personId |}.

(** The Sink's message object.  The Sink is a remote service; the script
    only POSTs creates to it.  With [uniqueMessageUid] the attribute
    [message_uid] is declared unique in the Sink's schema and a create whose
    token is already stored is refused with a 4xx status; without it every
    create is stored.  The record id of a stored message is its position. *)
Record MessageStore := {
  uniqueMessageUid : bool;
  stored : list MessageValues
}.

Definition holdsUid (uid : string) (msgs : list MessageValues) : bool :=
  existsb (fun v => String.eqb (mv_message_uid v) uid) msgs.

Definition sinkCreateMessage (sink : MessageStore) (vals : MessageValues)
    : HttpOutcome (option nat) * MessageStore :=
  if uniqueMessageUid sink && holdsUid (mv_message_uid vals) (stored sink)
  then (Non2xx 409, sink)
  else (Ok2xx (Some (length (stored sink))),
        {| uniqueMessageUid := uniqueMessageUid sink;
           stored := stored sink ++ [vals] |}).

Record ThreadsConfig := {
  AT_DISABLE_THREADS_UPSERT : bool;
  AT_DRY_RUN : bool;
  AT_LIMIT_MESSAGES : Z
}.

(** [messages.slice(-n)] for a positive [n]. *)
Definition lastN {A : Type} (n : nat) (l : list A) : list A := skipn (length l - n) l.

(** The inner loop [for (const m of limited)]: [None] in the first
    component when a create was refused or threw, which abandons the rest
    of the thread. *)
Fixpoint createMessages (personId : string) (thread : ThreadRow) (limited : list RawMessage)
    (sink : MessageStore) (createdMessageIds : list nat) (upserted : nat)
    : option (list nat) * MessageStore * nat :=
  match limited with
  | [] => (Some createdMessageIds, sink, upserted)
  | m :: rest =>
      match sinkCreateMessage sink (messageValues personId thread m) with
      | (Ok2xx messageId, sink') =>
          createMessages personId thread rest sink'
            (match messageId with
             | Some i => createdMessageIds ++ [i]
             | None => createdMessageIds
             end)
            (S upserted)
      | (_, sink') => (None, sink', upserted)
      end
  end.

(** [messagesByPerson]: person id to created message ids, in insertion
    order. *)
Fixpoint trackMessages (personId : string) (ids : list nat)
    (messagesByPerson : list (string * list nat)) : list (string * list nat) :=
  match messagesByPerson with
  | [] => [(personId, ids)]
  | (p, l) :: rest =>
      if String.eqb p personId then (p, l ++ ids) :: rest
      else (p, l) :: trackMessages personId ids rest
  end.

Record ThreadsUpsert := {
  messageSink : MessageStore;
  upsertedCount : nat;
  messagesByPerson : list (string * list nat)
}.

(** Step 1 of [attioUpsertThreads] for one thread row. *)
Definition upsertThread (cfg : ThreadsConfig) (recordIdByUrl : gmap string string)
    (acc : ThreadsUpsert) (thread : ThreadRow) : ThreadsUpsert :=
  match recordIdByUrl !! t_person_match_linkedin_url thread with
  | None => acc
  | Some personId =>
      if negb (Js.truthy personId) then acc
      else
        let messages := t_messages thread in
        let limited := if (0 <? AT_LIMIT_MESSAGES cfg)%Z
                       then lastN (Z.to_nat (AT_LIMIT_MESSAGES cfg)) messages
                       else messages in
        match createMessages personId thread limited (messageSink acc) [] (upsertedCount acc) with
        | (Some createdMessageIds, sink', n) =>
            {| messageSink := sink';
               upsertedCount := n;
               messagesByPerson :=
                 if Nat.ltb 0 (length createdMessageIds)
                 then trackMessages personId createdMessageIds (messagesByPerson acc)
                 else messagesByPerson acc |}
        | (None, sink', n) =>
            {| messageSink := sink'; upsertedCount := n;
               messagesByPerson := messagesByPerson acc |}
        end
  end.

(** [attioUpsertThreads(threadRows)]: the Sink's message object afterwards,
    the returned count, and the back-reference patches of step 2. *)
Definition attioUpsertThreads (cfg : ThreadsConfig) (recordIdByUrl : gmap string string)
    (sink : MessageStore) (threadRows : list ThreadRow)
    : MessageStore * nat * list SinkRequest :=
  if Nat.eqb (length threadRows) 0 then (sink, 0, [])
  else if AT_DISABLE_THREADS_UPSERT cfg then (sink, 0, [])
  else if AT_DRY_RUN cfg then (sink, length threadRows, [])
  else
    let r := fold_left (upsertThread cfg recordIdByUrl) threadRows
               {| messageSink := sink; upsertedCount := 0; messagesByPerson := [] |} in
    (messageSink r, upsertedCount r,
     map (fun '(personId, ids) => LinkMessages personId ids) (messagesByPerson r)).

(** How many stored messages carry the token [uid]. *)
Definition countUid (uid : string) (sink : MessageStore) : nat :=
  length (filter (fun v => mv_message_uid v = uid) (stored sink)).

(* ===================================================================== *)
(** ** The per-lead flow and the run reports *)
(* ===================================================================== *)

(** [a || b || c || ''] over optional fields. *)
Definition firstOf (fields : list (option string)) : string :=
  fold_right Js.orOpt "" fields.

Definition leadIdOf (lead : RawLead) : string :=
  firstOf [leadId lead; lead_id_ lead; lead_lead_id lead].

Definition leadUrlOf (api : UrlApi) (lead : RawLead) : string :=
  normalizeLinkedInUrl api
    (Js.Str (firstOf [linkedinProfileUrl lead; lead_linkedin_url lead;
                      lead_profileUrl lead; lead_profile_url lead])).

Definition extractLeadCore (api : UrlApi) (lead : RawLead) : PersonRow :=
  {| first_name := firstOf [lead_firstName lead; lead_first_name lead];
     last_name := firstOf [lead_lastName lead; lead_last_name lead];
     full_name :=
       Js.orOpt (lead_fullName lead)
         (Js.orOpt (lead_full_name lead)
            (Js.trim (Js.orOpt (lead_firstName lead) "" +:+ " "
                      +:+ Js.orOpt (lead_lastName lead) "")));
     job_title := firstOf [lead_title lead; lead_job_title lead; lead_position lead];
     company_name := firstOf [lead_companyName lead; lead_company_name lead];
     company_domain := firstOf [lead_companyDomain lead; lead_company_domain lead];
     linkedin_url := leadUrlOf api lead;
     heyreach_lead_id := leadIdOf lead;
     lead_source := "HeyReach";
     campaign_name := firstOf [lead_campaignName lead; lead_campaign_name lead];
     campaign_id := firstOf [lead_campaignId lead; lead_campaign_id lead];
     owner_email := firstOf [lead_ownerEmail lead; lead_owner_email lead];
     lead_status := firstOf [lead_status_ lead; lead_lead_status lead];
     last_touch_at := firstOf [lead_lastTouchAt lead; lead_last_touch_at lead];
     last_reply_at := firstOf [lead_lastReplyAt lead; lead_last_reply_at lead] |}.

(** A raw message of the per-lead conversations endpoint. *)
Record LeadMessage := {
  lm_timestamp : option string;
  lm_createdAt : option string;
  lm_created_at : option string;
  lm_date : option string;
  lm_body : option string;
  lm_text : option string;
  lm_message : option string;
  lm_direction : option string;
  lm_from : option string;
  lm_channel : option string;
  lm_type : option string;
  lm_id : option string;
  lm_messageId : option string;
  lm_message_id : option string;
  lm_threadId : option string;
  lm_thread_id : option string;
  lm_campaignId : option string;
  lm_campaign_id : option string
}.

(** A row of [messages.csv] in the per-lead flow ([raw_json] is the raw
    message itself). *)
Record LeadMessageRow := {
  lr_person_match_linkedin_url : string;
  lr_lead_id : string;
  lr_direction : string;
  lr_channel : string;
  lr_message_id : string;
  lr_thread_id : string;
  lr_campaign_id : string;
  lr_timestamp : string;
  lr_body : string;
  lr_raw : LeadMessage
}.

Definition extractMessageCore (leadId linkedinUrl : string) (m : LeadMessage) : LeadMessageRow :=
  {| lr_person_match_linkedin_url := linkedinUrl;
     lr_lead_id := Js.or leadId "";
     lr_direction :=
       Js.orOpt (lm_direction m)
         (Js.or (match lm_from m with
                 | Some from => if String.eqb from "me" then "sent"
                                else if String.eqb from "lead" then "received" else ""
                 | None => ""
                 end) "");
     lr_channel := firstOf [lm_channel m; lm_type m];
     lr_message_id := firstOf [lm_id m; lm_messageId m; lm_message_id m];
     lr_thread_id := firstOf [lm_threadId m; lm_thread_id m];
     lr_campaign_id := firstOf [lm_campaignId m; lm_campaign_id m];
     lr_timestamp := firstOf [lm_timestamp m; lm_createdAt m; lm_created_at m; lm_date m];
     lr_body := firstOf [lm_body m; lm_text m; lm_message m];
     lr_raw := m |}.

(** A structured error record of the report.  [err_entity] is the
    [listId] or [leadId] property, when the record has one; the [stack]
    text is left out. *)
Record ErrorRecord := {
  err_stage : string;
  err_entity : option string;
  err_message : string
}.

Record Report := {
  count_uniqueLeads : nat;
  count_peopleRows : nat;
  count_peopleSkipped : nat;
  count_messageRows : nat;
  count_threadRows : option nat;     (* only in the inbox report *)
  skippedPeople : list (string * string);
  errors : list ErrorRecord
}.

(** The report object written at the end of the inbox flow. *)
Definition inboxReport (st : RunState) : Report :=
  {| count_uniqueLeads := 0;
     count_peopleRows := length (peopleRows st);
     count_peopleSkipped := 0;
     count_messageRows := length (messageRows st);
     count_threadRows := Some (length (threadRows st));
     skippedPeople := [];
     errors := [] |}.

(** [uniqueLeadsById]: a map in insertion order; a lead without id is
    passed over, and the first lead of an id is kept. *)
Definition addLead (uniqueLeadsById : list (string * RawLead)) (lead : RawLead)
    : list (string * RawLead) :=
  let id := leadIdOf lead in
  if negb (Js.truthy id) then uniqueLeadsById
  else if existsb (fun kv => String.eqb (fst kv) id) uniqueLeadsById then uniqueLeadsById
  else uniqueLeadsById ++ [(id, lead)].

(** The data of the per-lead flow. *)
Record LeadRun := {
  uniqueLeadsById : list (string * RawLead);
  runErrors : list ErrorRecord;
  leadMessageRows : list LeadMessageRow
}.

Section PerLeadFlow.
Variable api : UrlApi.
(** How [fetchLeadsFromList(listId)] and [fetchConversationsForLead(id)]
    end for each argument. *)
Variable fetchLeads : option string -> Fetched (list RawLead).
Variable fetchConversationsForLead : string -> Fetched (list LeadMessage).
Variable LIST_IDS : list string.
Variable MAX_LEADS : Z.

(** Step 1, one list: [try { ... } catch (err) { errors.push(...) }]. *)
Definition pullList (run : LeadRun) (listId : string) : LeadRun :=
  match fetchLeads (Some listId) with
  | Returned leads =>
      {| uniqueLeadsById := fold_left addLead leads (uniqueLeadsById run);
         runErrors := runErrors run;
         leadMessageRows := leadMessageRows run |}
  | Threw message =>
      {| uniqueLeadsById := uniqueLeadsById run;
         runErrors := runErrors run ++
           [{| err_stage := "fetchLeadsFromList"; err_entity := Some listId;
               err_message := message |}];
         leadMessageRows := leadMessageRows run |}
  end.

Definition pullAll (run : LeadRun) : LeadRun :=
  match fetchLeads None with
  | Returned leads =>
      {| uniqueLeadsById := fold_left addLead leads (uniqueLeadsById run);
         runErrors := runErrors run;
         leadMessageRows := leadMessageRows run |}
  | Threw message =>
      {| uniqueLeadsById := uniqueLeadsById run;
         runErrors := runErrors run ++
           [{| err_stage := "fetchLeads"; err_entity := None;
               err_message := message |}];
         leadMessageRows := leadMessageRows run |}
  end.

(** Step 3, one lead of [leadsArray]. *)
Definition pullConversations (run : LeadRun) (lead : RawLead) : LeadRun :=
  let id := leadIdOf lead in
  if negb (Js.truthy id) then run
  else
    let liUrl := leadUrlOf api lead in
    if negb (Js.truthy liUrl) then run
    else
      match fetchConversationsForLead id with
      | Returned conv =>
          {| uniqueLeadsById := uniqueLeadsById run;
             runErrors := runErrors run;
             leadMessageRows := leadMessageRows run ++ map (extractMessageCore id liUrl) conv |}
      | Threw message =>
          {| uniqueLeadsById := uniqueLeadsById run;
             runErrors := runErrors run ++
               [{| err_stage := "fetchConversationsForLead"; err_entity := Some id;
                   err_message := message |}];
             leadMessageRows := leadMessageRows run |}
      end.

Definition leadsArrayOf (run : LeadRun) : list RawLead :=
  let leadsArray := map snd (uniqueLeadsById run) in
  if (0 <? MAX_LEADS)%Z && (MAX_LEADS <? Z.of_nat (length leadsArray))%Z
  then firstn (Z.to_nat MAX_LEADS) leadsArray
  else leadsArray.

(** The per-lead part of [main], up to the report object. *)
Definition perLeadFlow : LeadRun * Report :=
  let start := {| uniqueLeadsById := []; runErrors := []; leadMessageRows := [] |} in
  let run1 := if Nat.ltb 0 (length LIST_IDS)
              then fold_left pullList LIST_IDS start
              else pullAll start in
  let rows := map (fun kv => extractLeadCore api (snd kv)) (uniqueLeadsById run1) in
  let peopleRows := filter (fun row => Js.truthy (linkedin_url row) = true) rows in
  let skipped := filter (fun row => Js.truthy (linkedin_url row) = false) rows in
  let run2 := fold_left pullConversations (leadsArrayOf run1) run1 in
  (run2,
   {| count_uniqueLeads := length (uniqueLeadsById run2);
      count_peopleRows := length peopleRows;
      count_peopleSkipped := length skipped;
      count_messageRows := length (leadMessageRows run2);
      count_threadRows := None;
      skippedPeople := map (fun row => ("missing_linkedin_url", heyreach_lead_id row)) skipped;
      errors := runErrors run2 |}).

End PerLeadFlow.

(* ===================================================================== *)
(** ** Predicates used in the statements *)
(* ===================================================================== *)

(** The string parses and its host contains [linkedin]: the branch of
    [normalizeLinkedInUrl] that rewrites its input. *)
Definition isLinkedInUrl (api : UrlApi) (s : string) : bool :=
  match newURL api (Js.trim s) with
  | Some u => Js.includes "linkedin" (hostname api u)
  | None => false
  end.

(** The serialisation of a URL once fragment and query are cleared. *)
Definition cleaned (api : UrlApi) (u : URL api) : string :=
  toString api (clearSearch api (clearHash api u)).

(** No code unit of the string is white space. *)
Fixpoint noWhiteSpace (s : string) : bool :=
  match s with
  | EmptyString => true
  | String c r => negb (Js.isWhiteSpace c) && noWhiteSpace r
  end.

(** What the idempotence of [normalizeLinkedInUrl] needs of the platform's
    URL class, for the URLs with a LinkedIn host that its constructor
    returns: a serialisation holds no white space; the cleaned
    serialisation is read back as a URL of the same host with the same
    cleaned serialisation; and when it ends with a slash, the string
    without that slash is read as a URL of the same host whose cleaned
    serialisation is that string, or (the path being the root) that string,
    which then ends with no slash, followed by the slash. *)
Record UrlLaws (api : UrlApi) : Prop := {
  serialised_without_space :
    forall s u, newURL api s = Some u ->
                Js.includes "linkedin" (hostname api u) = true ->
                noWhiteSpace (cleaned api u) = true;
  read_back :
    forall s u, newURL api s = Some u ->
                Js.includes "linkedin" (hostname api u) = true ->
                exists u', newURL api (cleaned api u) = Some u' /\
                           hostname api u' = hostname api u /\
                           cleaned api u' = cleaned api u;
  read_back_without_slash :
    forall s u t, newURL api s = Some u ->
                  Js.includes "linkedin" (hostname api u) = true ->
                  cleaned api u = t +:+ "/" ->
                  exists u', newURL api t = Some u' /\
                             hostname api u' = hostname api u /\
                             (cleaned api u' = t \/
                              (cleaned api u' = t +:+ "/" /\
                               Js.endsWithChar "/" t = false))
}.

(** What the parser of [SimpleUrl] returns: a host of host characters and a path of path
    characters that starts with a slash. *)
Definition wellFormed (u : SimpleUrl.t) : Prop :=
  (SimpleUrl.scheme u = "https"%string \/ SimpleUrl.scheme u = "http"%string) /\
  Js.truthy (SimpleUrl.host u) = true /\
  SimpleUrl.allChars SimpleUrl.isHostChar (SimpleUrl.host u) = true /\
  SimpleUrl.allChars SimpleUrl.isPathChar (SimpleUrl.path u) = true /\
  exists p, SimpleUrl.path u = String "/" p.

(** The correspondent of a conversation carries no profile URL. *)
Definition hasNoProfileUrl (conv : Conversation) : Prop :=
  Js.orOpt (profileUrl (correspondentOf conv))
    (Js.orOpt (profile_url (correspondentOf conv)) "") = "".

(** The bookkeeping of the in-run deduplication is consistent: the keys
    of [peopleRows] are distinct, non-empty, and are exactly the members of
    [peopleByUrl]. *)
Definition peopleConsistent (st : RunState) : Prop :=
  NoDup (map linkedin_url (peopleRows st)) /\
  (forall k, k ∈ peopleByUrl st <-> k ∈ map linkedin_url (peopleRows st)) /\
  Forall (fun r => Js.truthy (linkedin_url r) = true) (peopleRows st).

(** *** The pagination scenario

    A Source holding 237 conversations, served in pages of at most 100 by
    offset, and reporting the total with every page. *)

Definition scenarioConversation (i : nat) : Conversation :=
  {| conv_id := Some ("c" +:+ NilZero.string_of_uint (Nat.to_uint i));
     lastMessageAt := Some "2024-05-01T10:00:00Z";
     correspondentProfile := None;
     accountEmailAddress := None;
     campaignId := None;
     messages := [];
     totalMessages := None;
     lastMessageSender := None;
     lastMessageText := None |}.

Definition scenarioItems (offset : Z) : list Conversation :=
  if Z.eqb offset 0 then map scenarioConversation (seq 0 100)
  else if Z.eqb offset 100 then map scenarioConversation (seq 100 100)
  else if Z.eqb offset 200 then map scenarioConversation (seq 200 37)
  else [].

Definition scenarioSource : InboxSource :=
  fun _ _ offset =>
    Ok2xx {| body_totalCount := Some 237%Z; body_count := None;
             body_items := scenarioItems offset |}.

(** The same Source when its responses carry no total. *)
Definition scenarioSourceNoTotal : InboxSource :=
  fun _ _ offset =>
    Ok2xx {| body_totalCount := None; body_count := None;
             body_items := scenarioItems offset |}.

(** What a batch reports: the page requests issued and the thread rows
    extracted. *)
Definition batchFigures (r : option BatchResult) : option (nat * nat) :=
  match r with
  | Some r => Some (pageRequests r, length (threadRows (finalState r)))
  | None => None
  end.

(** A leads page of [n] items that carries neither a cursor nor
    [hasMore]. *)
Definition plainPage (p : LeadsPage) (n : nat) : Prop :=
  page_cursor p = "" /\ page_hasMore p = false /\ length (page_items p) = n.

(** *** Reconciliation

    The candidate values of a row equal the stored ones: the full name the
    reconciler derives from the row, the job title, the company name and
    the lead id are what the Sink record holds (a missing stored value
    counting as the empty string). *)
Definition sameAsStored (cur : CurrentValues) (row : PersonRow) : Prop :=
  newFullOf row = Js.orOpt (cur_full_name cur) "" /\
  job_title row = Js.orOpt (cur_job_title cur) "" /\
  company_name row = Js.orOpt (cur_company_name cur) "" /\
  heyreach_lead_id row = Js.orOpt (cur_heyreach_lead_id cur) "".

(** A candidate value is non-empty and differs from the stored value. *)
Definition candidateDiffers (candidate : string) (stored : option string) : Prop :=
  Js.truthy candidate = true /\ stored <> Some candidate.

(** The stored value is empty: missing, [null] or the empty string. *)
Definition storedEmpty (stored : option string) : Prop :=
  Js.truthy (Js.orOpt stored "") = false.

(** *** Messages *)

(** The Sink's message object after [attioUpsertThreads]. *)
Definition sinkAfterThreads (cfg : ThreadsConfig) (recordIdByUrl : gmap string string)
    (sink : MessageStore) (threadRows : list ThreadRow) : MessageStore :=
  fst (fst (attioUpsertThreads cfg recordIdByUrl sink threadRows)).

(** No two stored messages carry the same token. *)
Definition uidsDistinct (sink : MessageStore) : Prop :=
  NoDup (map mv_message_uid (stored sink)).

(** What every step of the message upsert keeps: the schema flag, what is
    stored already, and, under the unique attribute, distinct tokens. *)
Definition extends (a b : MessageStore) : Prop :=
  uniqueMessageUid b = uniqueMessageUid a /\
  stored a `prefix_of` stored b /\
  (uniqueMessageUid a = true -> uidsDistinct a -> uidsDistinct b).

(** A thread of one outbound message, its owner known to the people
    cache, and the configuration of a live run. *)
Definition exampleMessage : RawMessage :=
  {| sender := Some "ME"; createdAt := Some "2024-05-01T10:00:00Z";
     body := Some "Hello"; isInMail := false |}.

Definition exampleThread : ThreadRow :=
  {| t_person_match_linkedin_url := "https://www.linkedin.com/in/jane-doe";
     t_thread_id := "t-1";
     t_campaign_id := "";
     t_first_message_at := "2024-05-01T10:00:00Z";
     t_last_message_at := "2024-05-01T10:00:00Z";
     t_total_messages := 1;
     t_last_message_text := "Hello";
     t_last_sender := "ME";
     t_last_direction := "sent";
     t_last_channel := "dm";
     t_message_count_sent := 1;
     t_message_count_received := 0;
     t_messages := [exampleMessage] |}.

Definition examplePeopleIds : gmap string string :=
  {[ "https://www.linkedin.com/in/jane-doe" := "rec-1" ]}.

Definition liveConfig : ThreadsConfig :=
  {| AT_DISABLE_THREADS_UPSERT := false; AT_DRY_RUN := false; AT_LIMIT_MESSAGES := 0 |}.

(** *** Failures

    An inbox run that extracted one person, against a Sink holding that
    person under another job title. *)
Definition exampleConversation : Conversation :=
  {| conv_id := Some "t-1";
     lastMessageAt := Some "2024-05-01T10:00:00Z";
     correspondentProfile :=
       Some {| profileUrl := Some "https://www.linkedin.com/in/jane-doe/";
               profile_url := None; firstName := Some "Jane"; c_first_name := None;
               lastName := Some "Doe"; c_last_name := None;
               position := Some "Engineer"; headline := None; companyName := None |};
     accountEmailAddress := None;
     campaignId := None;
     messages := [exampleMessage];
     totalMessages := None;
     lastMessageSender := None;
     lastMessageText := None |}.

Definition exampleRun : RunState :=
  processItems SimpleUrl.api "2024-05-03T00:00:00Z" false (initialState ∅)
    [exampleConversation].

Definition storedJane : AttioRecord :=
  {| v_name := [{| ne_full_name := Some "Jane Doe"; ne_first_name := Some "Jane";
                   ne_last_name := Some "Doe" |}];
     v_job_title_5 := [Some "Intern"];
     v_company_name := [];
     v_heyreach_lead_id := [] |}.

(** The Sink finds the person and refuses the patch. *)
Definition sinkRefusingPatch : PersonRow -> RowAnswers :=
  fun _ => {| onQuery := Ok2xx (Some ("rec-1", storedJane));
              onUpdate := {| onEnsureIds := Ok2xx tt; onPatch := Non2xx 500 |};
              onCreate := Non2xx 500 |}.

(** The query fails; creates are accepted. *)
Definition sinkFailingQuery : PersonRow -> RowAnswers :=
  fun _ => {| onQuery := Thrown "timeout of 30000ms exceeded";
              onUpdate := {| onEnsureIds := Ok2xx tt; onPatch := Ok2xx tt |};
              onCreate := Ok2xx (Some "rec-2") |}.

(** A per-lead run over two lists: the fetch of list [A] fails, list [B]
    returns one lead, whose conversations cannot be fetched. *)
Definition exampleLead : RawLead :=
  {| leadId := Some "lead-7"; lead_id_ := None; lead_lead_id := None;
     linkedinProfileUrl := Some "https://www.linkedin.com/in/jane-doe/";
     lead_linkedin_url := None; lead_profileUrl := None; lead_profile_url := None;
     lead_firstName := Some "Jane"; lead_first_name := None;
     lead_lastName := Some "Doe"; lead_last_name := None;
     lead_fullName := None; lead_full_name := None;
     lead_title := None; lead_job_title := None; lead_position := None;
     lead_companyName := None; lead_company_name := None;
     lead_companyDomain := None; lead_company_domain := None;
     lead_campaignName := None; lead_campaign_name := None;
     lead_campaignId := None; lead_campaign_id := None;
     lead_ownerEmail := None; lead_owner_email := None;
     lead_status_ := None; lead_lead_status := None;
     lead_lastTouchAt := None; lead_last_touch_at := None;
     lead_lastReplyAt := None; lead_last_reply_at := None |}.

Definition exampleFetchLeads (listId : option string) : Fetched (list RawLead) :=
  match listId with
  | Some l => if String.eqb l "A" then Threw "Exhausted retries for /leads"
              else Returned [exampleLead]
  | None => Returned []
  end.

Definition exampleFetchConversations (_ : string) : Fetched (list LeadMessage) :=
  Threw "Request failed with status 500".

(* ===================================================================== *)
(** ** CSV output *)
(* ===================================================================== *)

(** The double quote, the comma and the line feed. *)
Definition dquote : ascii := "034"%char.
Definition comma : ascii := ","%char.
Definition lineFeed : ascii := "010"%char.

(** The test of the character class made of the double quote, the comma
    and the line feed: the string holds one of them. *)
Fixpoint needsQuoting (str : string) : bool :=
  match str with
  | EmptyString => false
  | String c r =>
      Ascii.eqb c dquote || Ascii.eqb c comma || Ascii.eqb c lineFeed || needsQuoting r
  end.

(** The global replace of [csvEscape]: every double quote is doubled. *)
Fixpoint doubleQuotes (str : string) : string :=
  match str with
  | EmptyString => EmptyString
  | String c r =>
      if Ascii.eqb c dquote then String dquote (String dquote (doubleQuotes r))
      else String c (doubleQuotes r)
  end.

(** [csvEscape(value)] *)
Definition csvEscape (value : Js.value) : string :=
  match value with
  | Js.Undefined | Js.Null => ""
  | Js.Str str =>
      if needsQuoting str
      then String dquote (doubleQuotes str +:+ String dquote EmptyString)
      else str
  end.

(** [writeCsv(filePath, headerArray, rowsArray)]: the text written to the
    file.  A row is read by column name, [row[col]]. *)
Definition writeCsv (headerArray : list string) (rowsArray : list (string -> Js.value))
    : string :=
  let header := Js.join "," (map (fun h => csvEscape (Js.Str h)) headerArray) in
  let body :=
    Js.join (String lineFeed EmptyString)
      (map (fun row => Js.join "," (map (fun col => csvEscape (row col)) headerArray))
           rowsArray) in
  header
  +:+ (if Nat.ltb 0 (length rowsArray) then String lineFeed EmptyString +:+ body else "")
  +:+ String lineFeed EmptyString.

(* ===================================================================== *)
(** ** The pacing gate and the retrying HTTP client *)
(* ===================================================================== *)

(** [MAX_REQS_PER_2S] is what [parseInt] reads from the setting: an
    integer, or [NaN] ([None]) when the setting does not start with a
    number.  [Math.min], [Math.max], the division and [Math.ceil] give [NaN]
    for [NaN]. *)

(** [Math.max(1, Math.min(14, MAX_REQS_PER_2S))] *)
Definition effectiveBudget (MAX_REQS_PER_2S : option Z) : option Z :=
  match MAX_REQS_PER_2S with
  | Some m => Some (Z.max 1 (Z.min 14 m))
  | None => None
  end.

(** [Math.ceil(2000 / Math.max(1, Math.min(14, MAX_REQS_PER_2S)))] *)
Definition PER_REQ_DELAY_MS (MAX_REQS_PER_2S : option Z) : option Z :=
  match effectiveBudget MAX_REQS_PER_2S with
  | Some k => Some ((2000 + k - 1) / k)%Z
  | None => None
  end.

(** [rateLimitWait()]: [now] is the reading of [Date.now()]; the result is
    the time to sleep and the new value of [nextAllowedAtMs]. *)
Definition rateLimitWait (delay now nextAllowedAtMs : Z) : Z * Z :=
  let wait := Z.max 0 (nextAllowedAtMs - now) in
  (wait, (Z.max now nextAllowedAtMs + delay)%Z).

(** The times at which the gate lets successive callers through (the
    clock reading plus the prescribed sleep), for calls made one after the
    other at the clock readings [nows]. *)
Fixpoint releaseTimes (delay : Z) (nextAllowedAtMs : Z) (nows : list Z) : list Z :=
  match nows with
  | [] => []
  | now :: rest =>
      let '(wait, next) := rateLimitWait delay now nextAllowedAtMs in
      (now + wait)%Z :: releaseTimes delay next rest
  end.

(** [rateLimitWait()] with a delay and a [nextAllowedAtMs] that may be
    [NaN].  With a delay that is [NaN] the new [nextAllowedAtMs] is [NaN];
    with a [nextAllowedAtMs] that is [NaN], so is [wait], the test
    [wait > 0] fails and there is no sleep. *)
Definition rateLimitGate (delay : option Z) (now : Z) (nextAllowedAtMs : option Z)
    : Z * option Z :=
  match nextAllowedAtMs, delay with
  | Some next, Some d =>
      let '(wait, next') := rateLimitWait d now next in (wait, Some next')
  | Some next, None => (Z.max 0 (next - now), None)
  | None, _ => (0%Z, None)
  end.

(** The release times of calls made one after the other through
    [rateLimitGate]. *)
Fixpoint gateReleaseTimes (delay : option Z) (nextAllowedAtMs : option Z) (nows : list Z)
    : list Z :=
  match nows with
  | [] => []
  | now :: rest =>
      let '(wait, next) := rateLimitGate delay now nextAllowedAtMs in
      (now + wait)%Z :: gateReleaseTimes delay next rest
  end.

Inductive Method := GET | POST.

#[global] Instance Method_eq_dec : EqDecision Method.
Proof. solve_decision. Defined.

(** What one axios call gives: a response of any status (the client
    accepts every status), or a thrown error, which may carry a response
    status. *)
Inductive AxiosAnswer (A : Type) :=
| Responded (status : Z) (data : A)
| Failed (status : option Z) (message : string).
Arguments Responded {A} status data.
Arguments Failed {A} status message.

(** The errors [getWithRetry] throws: the error of a failed call, the
    error built for an unexpected status, and the final one. *)
Inductive GetError :=
| CallError (message : string)
| RequestFailed (status : Z)
| ExhaustedRetries.

(** How one pass over the auth variants ends. *)
Inductive Flow (A : Type) :=
| Return (status : Z) (data : A)
| Throw (err : GetError)
| NextAttempt.
Arguments Return {A} status data.
Arguments Throw {A} err.
Arguments NextAttempt {A}.

Definition is2xx (status : Z) : bool := (200 <=? status)%Z && (status <? 300)%Z.

Section GetWithRetry.
Variable A : Type.
(** The server: its answer to the request number [n] (counting from 0)
    made with the given method and auth variant. *)
Variable server : nat -> Method -> nat -> AxiosAnswer A.
Variable MAX_RETRIES : Z.
Variable postBodyIfNeeded : bool.

(** [!status || status === 429 || status >= 500] *)
Definition retryable (status : option Z) : bool :=
  match status with
  | None => true
  | Some s => Z.eqb s 0 || Z.eqb s 429 || (500 <=? s)%Z
  end.

(** The POST fallback: [Some] when it answers 2xx. *)
Definition postFallback (log : list (Method * nat)) (i : nat) : option (Z * A) :=
  match server (length log) POST i with
  | Responded status data => if is2xx status then Some (status, data) else None
  | Failed _ _ => None
  end.

(** The loop over the auth variants [i], [i + 1], ... of one attempt.
    [log] lists the requests made so far, each with its method and
    variant. *)
Fixpoint tryVariants (attempt : Z) (variants : list nat) (log : list (Method * nat))
    : Flow A * list (Method * nat) :=
  match variants with
  | [] => (NextAttempt, log)
  | i :: rest =>
      let log1 := log ++ [(GET, i)] in
      match server (length log) GET i with
      | Failed status message =>
          if (attempt <? MAX_RETRIES)%Z && retryable status
          then tryVariants attempt rest log1
          else if postBodyIfNeeded
          then match postFallback log1 i with
               | Some (s, d) => (Return s d, log1 ++ [(POST, i)])
               | None => (Throw (CallError message), log1 ++ [(POST, i)])
               end
          else (Throw (CallError message), log1)
      | Responded status data =>
          if is2xx status then (Return status data, log1)
          else if ((300 <=? status)%Z && (status <? 400)%Z)
                  || Z.eqb status 404 || Z.eqb status 405
          then
            if postBodyIfNeeded
            then match postFallback log1 i with
                 | Some (s, d) => (Return s d, log1 ++ [(POST, i)])
                 | None => tryVariants attempt rest (log1 ++ [(POST, i)])
                 end
            else tryVariants attempt rest log1
          else if Z.eqb status 401 || Z.eqb status 403
          then tryVariants attempt rest log1
          else if (Z.eqb status 429 || (500 <=? status)%Z) && (attempt <? MAX_RETRIES)%Z
          then (NextAttempt, log1)
          else (Throw (RequestFailed status), log1)
      end
  end.

(** The five auth header variants, by index. *)
Definition authVariants : list nat := [0; 1; 2; 3; 4].

(** The loop [for (let attempt = 0; attempt <= MAX_RETRIES; attempt += 1)],
    with [remaining] attempts to go. *)
Fixpoint attempts (remaining : nat) (attempt : Z) (log : list (Method * nat))
    : Flow A * list (Method * nat) :=
  match remaining with
  | O => (Throw ExhaustedRetries, log)
  | S remaining' =>
      match tryVariants attempt authVariants log with
      | (NextAttempt, log') => attempts remaining' (attempt + 1)%Z log'
      | done => done
      end
  end.

(** [getWithRetry(url, params, postBodyIfNeeded)]: what it returns or
    throws, and the requests it made. *)
Definition getWithRetry : Flow A * list (Method * nat) :=
  attempts (Z.to_nat (MAX_RETRIES + 1)) 0 [].

End GetWithRetry.

(** [joinUrl(a, b)] of [probeEndpoints]. *)
Definition joinUrl (a b : string) : string :=
  let a := if Js.endsWithChar "/" a then a else a +:+ "/" in
  let b := if Js.startsWith "/" b then SimpleUrl.tail b else b in
  a +:+ b.

(* ===================================================================== *)
(** ** Configuration values *)
(* ===================================================================== *)

(** [s.split(sep)] for a one-character separator: at least one piece. *)
Fixpoint splitOn (sep : ascii) (s : string) : list string :=
  match s with
  | EmptyString => [EmptyString]
  | String c r =>
      if Ascii.eqb c sep then EmptyString :: splitOn sep r
      else match splitOn sep r with
           | [] => [String c EmptyString]
           | w :: ws => String c w :: ws
           end
  end.

(** [(process.env.HR_LIST_IDS || '').split(',').map(s => s.trim()).filter(Boolean)] *)
Definition parseListIds (HR_LIST_IDS : option string) : list string :=
  filter (fun s => Js.truthy s = true)
    (map Js.trim (splitOn "," (Js.orOpt HR_LIST_IDS ""))).

(** The replacement that removes the slashes at the end of a string. *)
Fixpoint stripTrailingSlashes (s : string) : string :=
  match s with
  | EmptyString => EmptyString
  | String c r =>
      match stripTrailingSlashes r with
      | EmptyString => if Ascii.eqb c "/" then EmptyString else String c EmptyString
      | r' => String c r'
      end
  end.

(** [API_BASE] and [URL_LEADS]. *)
Definition API_BASE (HR_API_BASE : option string) : string :=
  stripTrailingSlashes (Js.orOpt HR_API_BASE "").

Definition URL_LEADS (HR_GET_LEADS_URL HR_API_BASE : option string) : string :=
  Js.orOpt HR_GET_LEADS_URL
    (if Js.truthy (API_BASE HR_API_BASE) then API_BASE HR_API_BASE +:+ "/leads" else "").

(* ===================================================================== *)
(** ** Filter batches and thread validation of the inbox flow *)
(* ===================================================================== *)

(** The list [filtersBatches].  The configured ids are used when there are
    any, the ids fetched from the Source otherwise. *)
Definition filtersBatches (LIST_IDS : list string)
    (INBOX_CAMPAIGN_IDS INBOX_ACCOUNT_IDS fetchedCampaignIds fetchedAccountIds : list Z)
    : list Filters :=
  let campaignIds := if Nat.ltb 0 (length INBOX_CAMPAIGN_IDS)
                     then INBOX_CAMPAIGN_IDS else fetchedCampaignIds in
  let accountIds := if Nat.ltb 0 (length INBOX_ACCOUNT_IDS)
                    then INBOX_ACCOUNT_IDS else fetchedAccountIds in
  map ByList LIST_IDS ++
  (if Nat.ltb 0 (length INBOX_CAMPAIGN_IDS) && negb (Nat.ltb 0 (length INBOX_ACCOUNT_IDS))
   then map ByCampaign campaignIds
   else if negb (Nat.ltb 0 (length INBOX_CAMPAIGN_IDS)) && Nat.ltb 0 (length INBOX_ACCOUNT_IDS)
   then map ByAccount accountIds
   else flat_map (fun cid => map (ByCampaignAndAccount cid) accountIds) campaignIds).

(** [MAX_INBOX_BATCHES > 0 ? filtersBatches.slice(0, MAX_INBOX_BATCHES) : filtersBatches] *)
Definition cappedBatches (MAX_INBOX_BATCHES : Z) (batches : list Filters) : list Filters :=
  if (0 <? MAX_INBOX_BATCHES)%Z then firstn (Z.to_nat MAX_INBOX_BATCHES) batches
  else batches.

(** The validation pass over [threadRows].  The key is built from
    [thread.linkedin_url], a property thread rows do not have, and the
    thread id. *)
Definition threadKey (thread : ThreadRow) : string :=
  "undefined-" +:+ t_thread_id thread.

Fixpoint validateThreads (seenThreads : gset string) (rows : list ThreadRow)
    : list ThreadRow :=
  match rows with
  | [] => []
  | thread :: rest =>
      if negb (bool_decide (threadKey thread ∈ seenThreads))
      then thread :: validateThreads ({[threadKey thread]} ∪ seenThreads) rest
      else validateThreads seenThreads rest
  end.

Definition validatedThreads (st : RunState) : list ThreadRow :=
  validateThreads ∅ (threadRows st).

(** What the end of the inbox flow does after extraction.  The two upserts
    run inside one [try]: when [attioUpsertPeople] throws, the error is
    written to the console and [attioUpsertThreads] is not called.  The
    report written to [backfill-report.json] afterwards is the same in
    both cases.  [messageSink] is the Sink's message object before the
    threads upsert. *)
Record InboxEnd := {
  peopleUpsert : Fetched PeopleUpsert;
  threadsUpsert : option (MessageStore * nat * list SinkRequest);
  runReport : Report
}.

Definition inboxFinish (cfg : ThreadsConfig) (endpoint : PeopleEndpoint)
    (onObjectIds : HttpOutcome unit) (sink : PersonRow -> RowAnswers)
    (messageSink : MessageStore) (st : RunState) : InboxEnd :=
  let p := attioUpsertPeople (AT_DRY_RUN cfg) endpoint onObjectIds sink
             (validatedPeople st) in
  {| peopleUpsert := p;
     threadsUpsert :=
       match p with
       | Returned people =>
           Some (attioUpsertThreads cfg (recordIdByUrl people) messageSink
                   (validatedThreads st))
       | Threw _ => None
       end;
     runReport := inboxReport st |}.

(* ===================================================================== *)
(** ** The values sent when a person is created *)
(* ===================================================================== *)

Definition isSlugChar (c : ascii) : bool :=
  negb (Ascii.eqb c "/" || Ascii.eqb c "?").

(** The longest run of characters other than [/] and [?] at the start. *)
Fixpoint takeSlug (s : string) : string :=
  match s with
  | EmptyString => EmptyString
  | String c r => if isSlugChar c then String c (takeSlug r) else EmptyString
  end.

Fixpoint dropChars (n : nat) (s : string) : string :=
  match n, s with
  | O, _ => s
  | S n', String _ r => dropChars n' r
  | S _, EmptyString => EmptyString
  end.

(** The first group of the left-most match of the pattern
    [linkedin.com/in/] followed by one or more characters other than [/]
    and [?]. *)
Fixpoint matchLinkedinSlug (s : string) : option string :=
  match s with
  | EmptyString => None
  | String _ r =>
      if Js.startsWith "linkedin.com/in/" s
      then let slug := takeSlug (dropChars 16 s) in
           if Js.truthy slug then Some slug else matchLinkedinSlug r
      else matchLinkedinSlug r
  end.

Definition lowerAscii (c : ascii) : ascii :=
  let n := nat_of_ascii c in
  if (65 <=? n) && (n <=? 90) then ascii_of_nat (n + 32) else c.

(** A prefix test that ignores the case of ASCII letters. *)
Fixpoint startsWithNoCase (p s : string) : bool :=
  match p, s with
  | EmptyString, _ => true
  | String a p', String b s' =>
      if Ascii.eqb (lowerAscii a) (lowerAscii b) then startsWithNoCase p' s' else false
  | String _ _, EmptyString => false
  end.

(** [directValues]: the values of the create request, in insertion order.
    People rows have no [email] property, so no e-mail address is sent. *)
Definition directValues (row : PersonRow) : Changes :=
  let first := Js.or (first_name row) "" in
  let last := Js.or (last_name row) "" in
  (if Js.truthy first || Js.truthy last
   then [("name", NameValue (Js.trim (first +:+ " " +:+ last)) first last)]
   else if Js.truthy (full_name row)
   then let full := Js.trim (full_name row) in
        let parts := Js.splitWs full in
        [("name", NameValue full (Js.join " " (removelast parts))
                    (Js.or (List.last parts "") ""))]
   else [])
  ++ (if Js.truthy (linkedin_url row)
      then (match matchLinkedinSlug (linkedin_url row) with
            | Some slug =>
                if negb (startsWithNoCase "conversation-" slug)
                then [("linkedin", TextValue slug)] else []
            | None => []
            end)
           ++ [("linkedin_url_6", TextValue (linkedin_url row))]
      else []).

(** A Sink record that holds no value yet. *)
Definition blankRecord : AttioRecord :=
  {| v_name := []; v_job_title_5 := []; v_company_name := [];
     v_heyreach_lead_id := [] |}.

(** A string holds no comma. *)
Fixpoint commaFree (s : string) : bool :=
  match s with
  | EmptyString => true
  | String c r => negb (Ascii.eqb c ",") && commaFree r
  end.

(** A list id as [parseListIds] returns them: non-empty, without
    surrounding white space and without comma. *)
Definition cleanId (id : string) : Prop :=
  Js.truthy id = true /\ Js.trim id = id /\ commaFree id = true.

(** A row with every field of interest filled. *)
Definition filledRow : PersonRow :=
  {| first_name := "Jane"; last_name := "Doe"; full_name := "Jane Doe";
     job_title := "Engineer"; company_name := "Acme"; company_domain := "";
     linkedin_url := "https://www.linkedin.com/in/jane-doe";
     heyreach_lead_id := "L1"; lead_source := "HeyReach"; campaign_name := "";
     campaign_id := ""; owner_email := ""; lead_status := ""; last_touch_at := "";
     last_reply_at := "" |}.

(** A conversation whose correspondent is not given. *)
Definition anonymousConversation : Conversation :=
  {| conv_id := Some "t-42"; lastMessageAt := Some "2024-05-01T10:00:00Z";
     correspondentProfile := None; accountEmailAddress := None;
     campaignId := None; messages := []; totalMessages := None;
     lastMessageSender := None; lastMessageText := None |}.

(** The watermarks [ths] hold, for the conversation, an entry that is not
    older than its last message: the skip test of incremental mode passes. *)
Definition covered (ths : gmap string Watermark) (conv : Conversation) : Prop :=
  exists w, ths !! convIdOf conv = Some w /\
            Js.geb (last_message_at w) (lastAtOf conv) = true.

(** The watermarks a run hands to the next one through the state file:
    [writeJsonSafe] writes the own properties of [syncState.threads], and
    [readJsonSafe] reads them back.  An assignment under the key [__proto__]
    on an object that has no own property of that name sets the object's
    prototype: the run itself reads the entry back, the file does not hold
    it.  When the state that was [loaded] has the key (as an own property,
    from a file), the assignment updates it and it is written. *)
Definition persisted (loaded ths : gmap string Watermark) : gmap string Watermark :=
  if bool_decide (is_Some (loaded !! "__proto__")) then ths else delete "__proto__" ths.

(** The rows of the inbox flow refer to one another: the key of every
    thread row is the key of a person row, and every message row carries the
    thread id and key of a thread row that holds its raw message. *)
Definition rowsLinked (st : RunState) : Prop :=
  (forall t, t ∈ threadRows st ->
             t_person_match_linkedin_url t ∈ map linkedin_url (peopleRows st)) /\
  (forall m, m ∈ messageRows st ->
             exists t, t ∈ threadRows st /\
                       thread_id m = t_thread_id t /\
                       person_match_linkedin_url m = t_person_match_linkedin_url t /\
                       raw m ∈ t_messages t).

(** The counts of the thread rows add up: each thread row counts every
    message as sent or as received, and there is one message row for each
    message of each thread row. *)
Definition countsAddUp (st : RunState) : Prop :=
  length (messageRows st) = list_sum (map (fun t => length (t_messages t)) (threadRows st)) /\
  Forall (fun t => t_message_count_sent t + t_message_count_received t
                   = length (t_messages t)) (threadRows st).

(** The messages of a thread row that [attioUpsertThreads] sends:
    [limited]. *)
Definition limitedMessages (cfg : ThreadsConfig) (thread : ThreadRow) : list RawMessage :=
  if (0 <? AT_LIMIT_MESSAGES cfg)%Z
  then lastN (Z.to_nat (AT_LIMIT_MESSAGES cfg)) (t_messages thread)
  else t_messages thread.

(** Nothing of the thread row will be created in [sink]: its person is not
    in the cache, or it has no message to send, or the token of the first
    message to send is already stored. *)
Definition blocked (cfg : ThreadsConfig) (recordIdByUrl : gmap string string)
    (sink : MessageStore) (thread : ThreadRow) : Prop :=
  match recordIdByUrl !! t_person_match_linkedin_url thread with
  | None => True
  | Some personId =>
      Js.truthy personId = false \/
      match limitedMessages cfg thread with
      | [] => True
      | m :: _ => holdsUid (message_uid (t_thread_id thread) m) (stored sink) = true
      end
  end.

(** A thread of three messages, the first of which is [exampleMessage]. *)
Definition longerThread : ThreadRow :=
  {| t_person_match_linkedin_url := t_person_match_linkedin_url exampleThread;
     t_thread_id := t_thread_id exampleThread;
     t_campaign_id := t_campaign_id exampleThread;
     t_first_message_at := t_first_message_at exampleThread;
     t_last_message_at := "2024-05-02T09:00:00Z";
     t_total_messages := 3;
     t_last_message_text := "Thanks!";
     t_last_sender := "CORRESPONDENT";
     t_last_direction := "received";
     t_last_channel := "dm";
     t_message_count_sent := 2;
     t_message_count_received := 1;
     t_messages :=
       t_messages exampleThread ++
       [{| createdAt := Some "2024-05-02T08:00:00Z"; sender := Some "ME";
           body := Some "Any news?"; isInMail := false |};
        {| createdAt := Some "2024-05-02T09:00:00Z"; sender := Some "CORRESPONDENT";
           body := Some "Thanks!"; isInMail := false |}] |}.

(** The stored message [v] was built from a message of one of the thread
    rows, for the person the cache gives for the key of that row. *)
Definition addedBy (recordIdByUrl : gmap string string) (rows : list ThreadRow)
    (v : MessageValues) : Prop :=
  exists t m, t ∈ rows /\ m ∈ t_messages t /\
              recordIdByUrl !! t_person_match_linkedin_url t = Some (mv_person v) /\
              v = messageValues (mv_person v) t m.

(** What holds of the data of [attioUpsertThreads] while it works on a
    Sink that held [before]: the messages added, the count, and the
    back-references gathered in [messagesByPerson]. *)
Definition threadsInvariant (recordIdByUrl : gmap string string) (rows : list ThreadRow)
    (before : list MessageValues) (acc : ThreadsUpsert) : Prop :=
  (exists added, stored (messageSink acc) = before ++ added /\
                 upsertedCount acc = length added /\
                 Forall (addedBy recordIdByUrl rows) added) /\
  NoDup (map fst (messagesByPerson acc)) /\
  (forall personId messageIds,
      (personId, messageIds) ∈ messagesByPerson acc ->
      messageIds <> [] /\
      forall i, i ∈ messageIds ->
                length before <= i /\
                exists v, stored (messageSink acc) !! i = Some v /\ mv_person v = personId).

(** A Source that reports no total with its inbox pages, and a leads
    endpoint that answers every request with an empty page. *)
Definition silentInboxSource : InboxSource :=
  fun _ _ _ => Ok2xx {| body_totalCount := None; body_count := None;
                        body_items := [exampleConversation; anonymousConversation] |}.

Definition emptyLeadsSource : LeadsSource :=
  fun _ _ _ _ => inl {| page_items := []; page_cursor := ""; page_hasMore := false |}.

(** The rows written to [people.csv] by the per-lead flow: one for each
    unique lead that has a profile URL. *)
Definition leadPeopleRows (api : UrlApi) (run : LeadRun) : list PersonRow :=
  filter (fun row => Js.truthy (linkedin_url row) = true)
    (map (fun kv => extractLeadCore api (snd kv)) (uniqueLeadsById run)).

(** [uniqueLeadsById] is keyed by the lead id: the keys are distinct, and
    each is the non-empty id of its lead. *)
Definition leadsKeyed (m : list (string * RawLead)) : Prop :=
  NoDup (map fst m) /\
  Forall (fun kv => fst kv = leadIdOf (snd kv) /\ Js.truthy (fst kv) = true) m.

(** A message of a lead, and a conversations endpoint that returns it for
    every lead. *)
Definition exampleLeadMessage : LeadMessage :=
  {| lm_timestamp := Some "2024-05-01T10:00:00Z"; lm_createdAt := None;
     lm_created_at := None; lm_date := None;
     lm_body := Some "Hello"; lm_text := None; lm_message := None;
     lm_direction := None; lm_from := Some "me";
     lm_channel := None; lm_type := None;
     lm_id := Some "m-1"; lm_messageId := None; lm_message_id := None;
     lm_threadId := None; lm_thread_id := None;
     lm_campaignId := None; lm_campaign_id := None |}.

Definition answeringConversations (_ : string) : Fetched (list LeadMessage) :=
  Returned [exampleLeadMessage].

(** The row's person was not found and could not be created. *)
Definition createFailed (sink : PersonRow -> RowAnswers) (row : PersonRow) : bool :=
  match fst (findPersonByLinkedInUrl (linkedin_url row) (onQuery (sink row))) with
  | Some _ => false
  | None => match onCreate (sink row) with Ok2xx _ => false | _ => true end
  end.

(** The people cache gives a usable record id for the key. *)
Definition cached (recordIdByUrl : gmap string string) (url : string) : Prop :=
  exists personId, recordIdByUrl !! url = Some personId /\ Js.truthy personId = true.

(** A Sink that finds a person, under a usable record id, for every row. *)
Definition findsEveryone (sink : PersonRow -> RowAnswers) : Prop :=
  forall row, exists recordId record,
    onQuery (sink row) = Ok2xx (Some (recordId, record)) /\ Js.truthy recordId = true.

(** A Sink that finds every person as [rec-1] with no value stored, and
    refuses every patch. *)
Definition refusingSink (_ : PersonRow) : RowAnswers :=
  {| onQuery := Ok2xx (Some ("rec-1", blankRecord));
     onUpdate := {| onEnsureIds := Ok2xx tt; onPatch := Non2xx 500 |};
     onCreate := Non2xx 500 |}.

(** A second lead with the profile URL of [exampleLead]. *)
Definition sameProfileLead : RawLead :=
  {| leadId := Some "lead-8"; lead_id_ := None; lead_lead_id := None;
     linkedinProfileUrl := Some "https://www.linkedin.com/in/jane-doe";
     lead_linkedin_url := None; lead_profileUrl := None; lead_profile_url := None;
     lead_firstName := Some "Jane"; lead_first_name := None;
     lead_lastName := Some "Doe"; lead_last_name := None;
     lead_fullName := None; lead_full_name := None;
     lead_title := None; lead_job_title := None; lead_position := None;
     lead_companyName := None; lead_company_name := None;
     lead_companyDomain := None; lead_company_domain := None;
     lead_campaignName := None; lead_campaign_name := None;
     lead_campaignId := None; lead_campaign_id := None;
     lead_ownerEmail := None; lead_owner_email := None;
     lead_status_ := None; lead_lead_status := None;
     lead_lastTouchAt := None; lead_last_touch_at := None;
     lead_lastReplyAt := None; lead_last_reply_at := None |}.

(* ===================================================================== *)
(** ** The instant a timestamp denotes *)
(* ===================================================================== *)

(** The script compares timestamps as strings.  The spec speaks of a thread
    being newer or not newer; the definitions of this section follow these
    words: they read a UTC timestamp written as [YYYY-MM-DDThh:mm:ssZ] or
    as [YYYY-MM-DDThh:mm:ss.mmmZ] and give the instant it denotes as the
    number [YYYYMMDDhhmmssmmm], which for the timestamps of valid dates
    grows with time. *)
Inductive Slot := Digit | Lit (c : ascii).

Definition digitOf (c : ascii) : option N :=
  let n := N_of_ascii c in
  if ((48 <=? n) && (n <=? 57))%N then Some (n - 48)%N else None.

(** The number written by the digits of [s], when [s] has the shape. *)
Fixpoint readShape (shape : list Slot) (s : string) (acc : N) : option N :=
  match shape, s with
  | [], EmptyString => Some acc
  | Digit :: shape', String c r =>
      match digitOf c with
      | Some d => readShape shape' r (10 * acc + d)%N
      | None => None
      end
  | Lit l :: shape', String c r =>
      if Ascii.eqb c l then readShape shape' r acc else None
  | _, _ => None
  end.

Definition secondsShape : list Slot :=
  [Digit; Digit; Digit; Digit; Lit "-"; Digit; Digit; Lit "-"; Digit; Digit; Lit "T";
   Digit; Digit; Lit ":"; Digit; Digit; Lit ":"; Digit; Digit]%char.

Definition plainShape : list Slot := secondsShape ++ [Lit "Z"%char].

Definition millisShape : list Slot :=
  secondsShape ++ [Lit "."; Digit; Digit; Digit; Lit "Z"]%char.

Definition instantOf (s : string) : option N :=
  match readShape plainShape s 0 with
  | Some k => Some (1000 * k)%N
  | None => readShape millisShape s 0
  end.

(** A conversation with the given id and time of last message, and the
    watermarks of a state file holding one thread. *)
Definition conversationAt (id lastAt : string) : Conversation :=
  {| conv_id := Some id; lastMessageAt := Some lastAt;
     correspondentProfile := None; accountEmailAddress := None;
     campaignId := None; messages := []; totalMessages := None;
     lastMessageSender := None; lastMessageText := None |}.

Definition watermarkAt (id lastAt : string) : gmap string Watermark :=
  {[ id := {| last_message_at := lastAt; message_count := 2%Z;
              last_synced := "2024-05-02T00:00:00Z" |} ]}.

(* ===================================================================== *)
(** ** Runs of the people upsert against a Sink that keeps what it is sent *)
(* ===================================================================== *)

(** The Sink's people object, as far as the script reads and writes it: the
    records in creation order, each with its record id, the value of
    [linkedin_url_6] it was created with, and the attributes the reconciler
    reads.  The Sink is a remote service; this one accepts every request,
    stores the values of a create, applies the values of a patch, and
    answers the query by [linkedin_url_6] with the first record that
    carries the URL.  The record id of a person is [rec-] followed by its
    position. *)
Record StoredPerson := {
  sp_record_id : string;
  sp_linkedin_url_6 : option string;
  sp_values : AttioRecord
}.

Definition PeopleStore := list StoredPerson.

Definition recordIdAt (n : nat) : string :=
  "rec-" +:+ NilZero.string_of_uint (Nat.to_uint n).

Definition storeQuery (store : PeopleStore) (url : string)
    : option (string * AttioRecord) :=
  match List.find (fun p => bool_decide (sp_linkedin_url_6 p = Some url)) store with
  | Some p => Some (sp_record_id p, sp_values p)
  | None => None
  end.

(** The text value sent under a key, if any. *)
Definition textValueOf (key : string) (values : Changes) : option string :=
  match List.find (fun kv => String.eqb (fst kv) key) values with
  | Some (_, TextValue v) => Some v
  | _ => None
  end.

Definition storeCreate (store : PeopleStore) (values : Changes) : PeopleStore :=
  store ++ [{| sp_record_id := recordIdAt (length store);
               sp_linkedin_url_6 := textValueOf "linkedin_url_6" values;
               sp_values := applyPatch blankRecord values |}].

Definition storePatch (store : PeopleStore) (recordId : string) (values : Changes)
    : PeopleStore :=
  map (fun p => if String.eqb (sp_record_id p) recordId
                then {| sp_record_id := sp_record_id p;
                        sp_linkedin_url_6 := sp_linkedin_url_6 p;
                        sp_values := applyPatch (sp_values p) values |}
                else p) store.

(** What this Sink answers while a row is handled. *)
Definition storeAnswers (store : PeopleStore) (row : PersonRow) : RowAnswers :=
  {| onQuery := Ok2xx (storeQuery store (linkedin_url row));
     onUpdate := {| onEnsureIds := Ok2xx tt; onPatch := Ok2xx tt |};
     onCreate := Ok2xx (Some (recordIdAt (length store))) |}.

(** The effect of a request on this Sink; the create request of a row
    carries [directValues row]. *)
Definition storeApply (store : PeopleStore) (request : SinkRequest) : PeopleStore :=
  match request with
  | CreatePerson row => storeCreate store (directValues row)
  | PatchPerson recordId values => storePatch store recordId values
  | _ => store
  end.

(** One run of the people upsert against this Sink: each row is handled by
    the loop body with the answers of the Sink as it is at that moment, and
    the requests sent for the row take effect before the next row.  The
    result is the Sink afterwards and what was done with each row. *)
Definition runAgainst (store : PeopleStore) (peopleRows : list PersonRow)
    : PeopleStore * list (string * Outcome) :=
  fold_left
    (fun state row =>
       let r := upsertPeopleLoop (fun _ => storeAnswers (fst state) row) [row] in
       (fold_left storeApply (requests r) (fst state), snd state ++ outcomes r))
    peopleRows (store, []).

(* ===================================================================== *)
(** ** Theorems *)
(* ===================================================================== *)

(** *** String primitives *)

Lemma trimEnd_cons_not_ws c r :
  Js.isWhiteSpace c = false -> Js.trimEnd (String c r) = String c (Js.trimEnd r).
Proof.
  intros Hc. simpl. destruct (Js.trimEnd r); [now rewrite Hc | reflexivity].
Qed.

Lemma trimEnd_idem s : Js.trimEnd (Js.trimEnd s) = Js.trimEnd s.
Proof.
  induction s as [|c r IH]; [reflexivity|].
  simpl. destruct (Js.trimEnd r) as [|a t] eqn:E.
  - destruct (Js.isWhiteSpace c) eqn:Hc; [reflexivity|].
    simpl. now rewrite Hc.
  - change (Js.trimEnd (String c (String a t)))
      with (match Js.trimEnd (String a t) with
            | EmptyString =>
                if Js.isWhiteSpace c then EmptyString else String c EmptyString
            | r' => String c r'
            end).
    now rewrite IH.
Qed.

Lemma trimStart_shape s :
  Js.trimStart s = EmptyString \/
  exists c r, Js.trimStart s = String c r /\ Js.isWhiteSpace c = false.
Proof.
  induction s as [|c r IH]; [now left|].
  simpl. destruct (Js.isWhiteSpace c) eqn:Hc; [exact IH|].
  right. now exists c, r.
Qed.

Lemma trim_idem s : Js.trim (Js.trim s) = Js.trim s.
Proof.
  unfold Js.trim. destruct (trimStart_shape s) as [E | (c & r & E & Hc)]; rewrite E.
  - reflexivity.
  - rewrite (trimEnd_cons_not_ws c r Hc). simpl Js.trimStart. rewrite Hc.
    rewrite (trimEnd_cons_not_ws c _ Hc). now rewrite trimEnd_idem.
Qed.

Lemma truthy_false s : Js.truthy s = false <-> s = EmptyString.
Proof. destruct s; simpl; split; congruence. Qed.

Lemma endsWithChar_app_char c y : Js.endsWithChar c (y +:+ String c EmptyString) = true.
Proof.
  induction y as [|a r IH]; simpl.
  - apply Ascii.eqb_refl.
  - destruct (r +:+ String c EmptyString) eqn:E; [destruct r; discriminate|].
    exact IH.
Qed.

Lemma dropLast_app_char c y : Js.dropLast (y +:+ String c EmptyString) = y.
Proof.
  induction y as [|a r IH]; simpl; [reflexivity|].
  destruct (r +:+ String c EmptyString) eqn:E; [destruct r; discriminate|].
  now rewrite IH.
Qed.

(** *** Identity keys *)

Lemma normalize_empty api : normalizeLinkedInUrl api (Js.Str "") = "".
Proof. reflexivity. Qed.

Lemma normalize_off_linkedin api s :
  isLinkedInUrl api s = false -> normalizeLinkedInUrl api (Js.Str s) = Js.trim s.
Proof.
  unfold isLinkedInUrl, normalizeLinkedInUrl. intros H.
  destruct s as [|c r]; [reflexivity|]. cbn [Js.truthy negb].
  destruct (newURL api (Js.trim (String c r))); [now rewrite H | reflexivity].
Qed.

Lemma isLinkedInUrl_trim api s : isLinkedInUrl api (Js.trim s) = isLinkedInUrl api s.
Proof. unfold isLinkedInUrl. now rewrite trim_idem. Qed.

Lemma includes_app_r needle a b :
  Js.includes needle b = true -> Js.includes needle (a +:+ b) = true.
Proof.
  intros H. induction a as [|c r IH]; [exact H|].
  change (String c r +:+ b) with (String c (r +:+ b)).
  simpl. rewrite IH. now destruct (Js.startsWith needle (String c (r +:+ b))).
Qed.

Lemma liUrlOf_fallback api conv :
  hasNoProfileUrl conv ->
  liUrlOf api conv = "https://www.linkedin.com/in/conversation-" +:+ convIdOf conv.
Proof. unfold hasNoProfileUrl, liUrlOf. now intros ->. Qed.



(** *** Watermark *)

Lemma ltb_iff_not_geb a b : String.ltb a b = true <-> Js.geb a b = false.
Proof.
  unfold String.ltb, Js.geb, String.leb. rewrite (String.compare_antisym a b).
  destruct (String.compare b a); simpl; split; congruence.
Qed.

Lemma app_singleton_ne {A} (l : list A) x : l ++ [x] <> l.
Proof.
  intros H. apply (f_equal (@length A)) in H. rewrite length_app in H.
  simpl in H. lia.
Qed.

(** *** Timestamps in one format *)

Lemma digitOf_code c d : digitOf c = Some d -> (N_of_ascii c = 48 + d /\ d <= 9)%N.
Proof.
  unfold digitOf. destruct ((48 <=? N_of_ascii c) && (N_of_ascii c <=? 57))%N eqn:E;
    [| discriminate].
  intros [= <-]. apply andb_true_iff in E as [E1 E2].
  apply N.leb_le in E1, E2. lia.
Qed.

Lemma readShape_length shape s acc k :
  readShape shape s acc = Some k -> String.length s = length shape.
Proof.
  revert s acc. induction shape as [|slot shape IH]; intros [|c r] acc H;
    try (cbn in H; discriminate H); try (destruct slot; discriminate H); [reflexivity|].
  cbn [String.length length]. f_equal. destruct slot as [|l]; cbn [readShape] in H.
  - destruct (digitOf c); [exact (IH _ _ H) | discriminate H].
  - destruct (Ascii.eqb c l); [exact (IH _ _ H) | discriminate H].
Qed.

Lemma readShape_mono shape a b acc1 acc2 k1 k2 :
  (acc1 < acc2)%N ->
  readShape shape a acc1 = Some k1 -> readShape shape b acc2 = Some k2 -> (k1 < k2)%N.
Proof.
  revert a b acc1 acc2.
  induction shape as [|slot shape IH]; intros [|c a] [|c' b] acc1 acc2 Hlt H1 H2;
    try (cbn in H1; discriminate H1); try (cbn in H2; discriminate H2);
    try (destruct slot; discriminate H1); try (destruct slot; discriminate H2).
  - cbn in H1, H2. congruence.
  - destruct slot as [|l]; cbn [readShape] in H1, H2.
    + destruct (digitOf c) as [d|] eqn:Ed; [| discriminate H1].
      destruct (digitOf c') as [d'|] eqn:Ed'; [| discriminate H2].
      apply digitOf_code in Ed as [_ Hd]. apply digitOf_code in Ed' as [_ Hd'].
      assert (10 * acc1 + d < 10 * acc2 + d')%N as Hstep by lia.
      exact (IH a b _ _ Hstep H1 H2).
    + destruct (Ascii.eqb c l); [| discriminate H1].
      destruct (Ascii.eqb c' l); [| discriminate H2].
      exact (IH a b acc1 acc2 Hlt H1 H2).
Qed.

Lemma readShape_compare shape a b acc ka kb :
  readShape shape a acc = Some ka -> readShape shape b acc = Some kb ->
  String.compare a b = N.compare ka kb.
Proof.
  revert a b acc. induction shape as [|slot shape IH]; intros [|c a] [|c' b] acc H1 H2;
    try (cbn in H1; discriminate H1); try (cbn in H2; discriminate H2);
    try (destruct slot; discriminate H1); try (destruct slot; discriminate H2).
  - cbn in H1, H2. injection H1 as <-. injection H2 as <-.
    symmetry. apply N.compare_refl.
  - cbn [String.compare]. unfold Ascii.compare.
    destruct slot as [|l]; cbn [readShape] in H1, H2.
    + destruct (digitOf c) as [d|] eqn:Ed; [| discriminate H1].
      destruct (digitOf c') as [d'|] eqn:Ed'; [| discriminate H2].
      apply digitOf_code in Ed as [Ec Hd]. apply digitOf_code in Ed' as [Ec' Hd'].
      destruct (N.compare_spec (N_of_ascii c) (N_of_ascii c')) as [E | L | G].
      * assert (d = d') as -> by lia. exact (IH a b _ H1 H2).
      * symmetry. apply N.compare_lt_iff.
        assert (10 * acc + d < 10 * acc + d')%N as Hstep by lia.
        exact (readShape_mono shape a b _ _ _ _ Hstep H1 H2).
      * symmetry. apply N.compare_gt_iff.
        assert (10 * acc + d' < 10 * acc + d)%N as Hstep by lia.
        exact (readShape_mono shape b a _ _ _ _ Hstep H2 H1).
    + destruct (Ascii.eqb_spec c l) as [-> |]; [| discriminate H1].
      destruct (Ascii.eqb_spec c' l) as [-> |]; [| discriminate H2].
      rewrite N.compare_refl. exact (IH a b acc H1 H2).
Qed.

Lemma instantOf_compare a b ia ib :
  String.length a = String.length b ->
  instantOf a = Some ia -> instantOf b = Some ib ->
  String.compare a b = N.compare ia ib.
Proof.
  unfold instantOf. intros Hlen Ha Hb.
  destruct (readShape plainShape a 0) as [ka|] eqn:Pa;
    destruct (readShape plainShape b 0) as [kb|] eqn:Pb.
  - injection Ha as <-. injection Hb as <-.
    rewrite (readShape_compare _ _ _ _ _ _ Pa Pb).
    destruct (N.compare_spec ka kb) as [E | L | G]; symmetry.
    + subst. apply N.compare_refl.
    + apply N.compare_lt_iff. lia.
    + apply N.compare_gt_iff. lia.
  - apply readShape_length in Pa, Hb. rewrite Hlen, Hb in Pa. discriminate Pa.
  - apply readShape_length in Ha, Pb. rewrite <- Hlen, Ha in Pb. discriminate Pb.
  - exact (readShape_compare _ _ _ _ _ _ Ha Hb).
Qed.

Lemma geb_instant a b ia ib :
  String.length a = String.length b ->
  instantOf a = Some ia -> instantOf b = Some ib ->
  (Js.geb a b = true <-> (ib <= ia)%N) /\ (String.ltb a b = true <-> (ia < ib)%N).
Proof.
  intros Hlen Ha Hb. unfold Js.geb, String.leb, String.ltb.
  rewrite (instantOf_compare b a ib ia (eq_sym Hlen) Hb Ha).
  rewrite (instantOf_compare a b ia ib Hlen Ha Hb).
  destruct (N.compare_spec ib ia); destruct (N.compare_spec ia ib); try lia;
    split; split; intros; try lia; try discriminate; reflexivity.
Qed.

Lemma processConversation_skip_iff (api : UrlApi) (now : string)
    (last_sync : option string) (FORCE_INBOX : bool)
    (st : RunState) (conv : Conversation) :
  isIncrementalSync last_sync FORCE_INBOX = true ->
  let st' := processConversation api now (isIncrementalSync last_sync FORCE_INBOX) st conv in
  let stale := exists w, threads st !! convIdOf conv = Some w /\
                         Js.geb (last_message_at w) (lastAtOf conv) = true in
  ((peopleRows st' = peopleRows st /\ threadRows st' = threadRows st /\
    messageRows st' = messageRows st) <-> stale) /\
  (stale -> st' = st) /\
  (threadRows st' = threadRows st ++ [threadRowOf api conv] <->
   forall w, threads st !! convIdOf conv = Some w ->
             String.ltb (last_message_at w) (lastAtOf conv) = true).
Proof.
  intros Hinc st' stale. subst st' stale. rewrite Hinc.
  unfold processConversation, skipUnchanged. cbn [andb].
  destruct (threads st !! convIdOf conv) as [w|] eqn:Hw.
  - destruct (Js.geb (last_message_at w) (lastAtOf conv)) eqn:Hge.
    + split; [| split].
      * split; [intros _; now exists w | now intros _].
      * reflexivity.
      * split.
        -- intros H. symmetry in H. now apply app_singleton_ne in H.
        -- intros H. specialize (H w eq_refl). apply ltb_iff_not_geb in H. congruence.
    + cbn [peopleRows threadRows messageRows]. split; [| split].
      * split.
        -- intros (_ & H & _). now apply app_singleton_ne in H.
        -- intros (w' & [= <-] & H). congruence.
      * intros (w' & [= <-] & H). congruence.
      * split; [| reflexivity].
        intros _ w' [= <-]. now apply ltb_iff_not_geb.
  - cbn [peopleRows threadRows messageRows]. split; [| split].
    + split.
      * intros (_ & H & _). now apply app_singleton_ne in H.
      * intros (w' & [=] & _).
    + intros (w' & [=] & _).
    + split; [| reflexivity]. intros _ w' [=].
Qed.




(** *** In-run deduplication *)

Lemma liUrlOf_truthy api conv : Js.truthy (liUrlOf api conv) = true.
Proof.
  unfold liUrlOf.
  destruct (Js.truthy (normalizeLinkedInUrl api _)) eqn:E; [exact E | reflexivity].
Qed.

Lemma processConversation_people api now inc st conv :
  let st' := processConversation api now inc st conv in
  (liUrlOf api conv ∈ peopleByUrl st \/
   skipUnchanged inc (threads st) (convIdOf conv) (lastAtOf conv) = true ->
   peopleRows st' = peopleRows st /\ peopleByUrl st' = peopleByUrl st) /\
  (liUrlOf api conv ∉ peopleByUrl st ->
   skipUnchanged inc (threads st) (convIdOf conv) (lastAtOf conv) = false ->
   peopleRows st' = peopleRows st ++ [personRowOf api conv] /\
   peopleByUrl st' = {[liUrlOf api conv]} ∪ peopleByUrl st).
Proof.
  cbv zeta. unfold processConversation.
  destruct (skipUnchanged inc (threads st) (convIdOf conv) (lastAtOf conv)) eqn:Hs.
  - split; [now intros _ | intros _ [=]].
  - cbn [peopleRows peopleByUrl]. rewrite liUrlOf_truthy. cbn [andb]. split.
    + intros [Hin | [=]]. now rewrite bool_decide_eq_true_2 by exact Hin.
    + intros Hnin _. now rewrite bool_decide_eq_false_2 by exact Hnin.
Qed.

Lemma processConversation_consistent api now inc st conv :
  peopleConsistent st -> peopleConsistent (processConversation api now inc st conv).
Proof.
  intros (Hnd & Hset & Hall). unfold peopleConsistent.
  destruct (processConversation_people api now inc st conv) as [Hsame Hnew].
  destruct (skipUnchanged inc (threads st) (convIdOf conv) (lastAtOf conv)) eqn:Hs.
  { destruct Hsame as [-> ->]; [now right|]. split; [exact Hnd|]. split; [exact Hset | exact Hall]. }
  destruct (decide (liUrlOf api conv ∈ peopleByUrl st)) as [Hin | Hnin].
  { destruct Hsame as [-> ->]; [now left|]. split; [exact Hnd|]. split; [exact Hset | exact Hall]. }
  destruct (Hnew Hnin eq_refl) as [-> ->].
  assert (linkedin_url (personRowOf api conv) = liUrlOf api conv) as Hk by reflexivity.
  split; [| split].
  - rewrite map_app. cbn [map]. rewrite Hk. apply NoDup_app. split; [exact Hnd|].
    split; [| apply NoDup_singleton].
    intros k Hk1 Hk2. apply list_elem_of_singleton in Hk2. subst k.
    apply Hnin, Hset, Hk1.
  - intros k. rewrite map_app. cbn [map]. rewrite Hk.
    rewrite elem_of_union, elem_of_singleton, elem_of_app, list_elem_of_singleton.
    rewrite Hset. tauto.
  - apply Forall_app. split; [exact Hall|]. constructor; [| constructor].
    rewrite Hk. apply liUrlOf_truthy.
Qed.

Lemma processItems_consistent api now inc convs st :
  peopleConsistent st -> peopleConsistent (processItems api now inc st convs).
Proof.
  revert st. induction convs as [|c cs IH]; intros st H; [exact H|].
  apply IH. now apply processConversation_consistent.
Qed.

Lemma initialState_consistent ths : peopleConsistent (initialState ths).
Proof.
  split; [constructor | split; [| constructor]].
  intros k. cbn. split; [intros H; now apply not_elem_of_empty in H | intros H; inversion H].
Qed.

Lemma processConversation_prefix api now inc st conv :
  peopleRows st `prefix_of` peopleRows (processConversation api now inc st conv).
Proof.
  unfold processConversation.
  destruct (skipUnchanged _ _ _ _); [reflexivity|]. cbn [peopleRows].
  destruct (_ && _); [now apply prefix_app_r | reflexivity].
Qed.

Lemma processItems_prefix api now inc convs st :
  peopleRows st `prefix_of` peopleRows (processItems api now inc st convs).
Proof.
  revert st. induction convs as [|c cs IH]; intros st; [reflexivity|].
  etrans; [apply (processConversation_prefix api now inc st c) | apply IH].
Qed.

Lemma processItems_app api now inc st l1 l2 :
  processItems api now inc st (l1 ++ l2)
  = processItems api now inc (processItems api now inc st l1) l2.
Proof. apply fold_left_app. Qed.

Lemma validatePeople_distinct seen rows :
  NoDup (map linkedin_url (validatePeople seen rows)) /\
  forall k, k ∈ map linkedin_url (validatePeople seen rows) -> k ∉ seen.
Proof.
  revert seen. induction rows as [|r rs IH]; intros seen.
  - split; [constructor | intros k H; inversion H].
  - simpl. destruct (Js.truthy (linkedin_url r)); cbn [andb]; [| exact (IH seen)].
    destruct (bool_decide (linkedin_url r ∈ seen)) eqn:Hd; cbn [negb]; [exact (IH seen)|].
    apply bool_decide_eq_false in Hd.
    destruct (IH ({[linkedin_url r]} ∪ seen)) as [Hnd Hout]. cbn [map]. split.
    + constructor; [| exact Hnd]. intros Hin. apply Hout in Hin.
      apply Hin, elem_of_union_l, elem_of_singleton. reflexivity.
    + intros k Hk. apply elem_of_cons in Hk as [-> | Hk]; [exact Hd|].
      apply Hout in Hk. intros Hs. apply Hk, elem_of_union_r, Hs.
Qed.

Lemma validatePeople_id seen rows :
  NoDup (map linkedin_url rows) ->
  Forall (fun r => Js.truthy (linkedin_url r) = true) rows ->
  (forall k, k ∈ map linkedin_url rows -> k ∉ seen) ->
  validatePeople seen rows = rows.
Proof.
  revert seen. induction rows as [|r rs IH]; intros seen Hnd Hall Hout; [reflexivity|].
  cbn [map] in Hnd, Hout. apply NoDup_cons in Hnd as [Hr Hnd].
  apply Forall_cons in Hall as [Ht Hall].
  simpl. rewrite Ht. rewrite bool_decide_eq_false_2 by (apply Hout; left).
  cbn [andb negb]. f_equal. apply IH; [exact Hnd | exact Hall |].
  intros k Hk. rewrite not_elem_of_union, not_elem_of_singleton. split.
  - intros ->. contradiction.
  - apply Hout. now right.
Qed.

(** *** Pagination *)

Lemma processItems_threadRows_full api now st items :
  length (threadRows (processItems api now false st items))
  = length (threadRows st) + length items.
Proof.
  revert st. induction items as [|c cs IH]; intros st; [simpl; lia|].
  change (processItems api now false st (c :: cs))
    with (processItems api now false (processConversation api now false st c) cs).
  rewrite IH. unfold processConversation, skipUnchanged. cbn [andb threadRows].
  rewrite length_app. simpl. lia.
Qed.

Lemma inboxPagesFrom_enough api now inc source L cap f fuel page offset st n :
  (Z.max 1 (cap - page) <= Z.of_nat fuel)%Z ->
  exists r, inboxPagesFrom api now inc source L cap f fuel page offset st n = Some r /\
            (Z.of_nat (pageRequests r) <= Z.of_nat n + Z.max 1 (cap - page))%Z.
Proof.
  revert page offset st n. induction fuel as [|fuel IH]; intros page offset st n Hf.
  { simpl in Hf. lia. }
  cbn [inboxPagesFrom].
  destruct (fetchInboxConversations source L f L offset) as [[totalCount items] | message].
  2: { eexists. split; [reflexivity|]. cbn [pageRequests]. lia. }
  destruct (Nat.eqb (length items) 0).
  { eexists. split; [reflexivity|]. cbn [pageRequests]. lia. }
  destruct (totalCount <=? offset + Z.of_nat (length items))%Z.
  { eexists. split; [reflexivity|]. cbn [pageRequests]. lia. }
  destruct (cap <=? page + 1)%Z eqn:Hcap.
  { eexists. split; [reflexivity|]. cbn [pageRequests]. lia. }
  apply Z.leb_gt in Hcap.
  destruct (IH (page + 1)%Z (offset + Z.of_nat (length items))%Z
              (processItems api now inc st items) (S n)) as (r & Hr & Hb); [lia|].
  exists r. split; [exact Hr|]. lia.
Qed.

Lemma inboxPagesFrom_step api now inc source L cap f fuel page offset st n totalCount items :
  fetchInboxConversations source L f L offset = inl (totalCount, items) ->
  inboxPagesFrom api now inc source L cap f (S fuel) page offset st n
  = if Nat.eqb (length items) 0
    then Some {| finalState := st; pageRequests := S n; thrown := None |}
    else if (totalCount <=? offset + Z.of_nat (length items))%Z
    then Some {| finalState := processItems api now inc st items;
                 pageRequests := S n; thrown := None |}
    else if (cap <=? page + 1)%Z
    then Some {| finalState := processItems api now inc st items;
                 pageRequests := S n; thrown := None |}
    else inboxPagesFrom api now inc source L cap f fuel (page + 1)%Z
           (offset + Z.of_nat (length items))%Z (processItems api now inc st items) (S n).
Proof. intros H. cbn [inboxPagesFrom]. now rewrite H. Qed.

Lemma fetchLeadsLoop_step source L listId fuel results cursor page n data :
  source listId L page cursor = inl data ->
  fetchLeadsLoop source L listId (S fuel) results cursor page n
  = if Js.truthy (page_cursor data)
    then fetchLeadsLoop source L listId fuel (results ++ page_items data)
           (page_cursor data) page (S n)
    else if page_hasMore data
    then fetchLeadsLoop source L listId fuel (results ++ page_items data)
           (page_cursor data) (page + 1)%Z (S n)
    else if Z.eqb (Z.of_nat (length (page_items data))) L
    then fetchLeadsLoop source L listId fuel (results ++ page_items data)
           (page_cursor data) (page + 1)%Z (S n)
    else Some (Returned (results ++ page_items data), S n).
Proof. intros H. cbn [fetchLeadsLoop]. now rewrite H. Qed.

Lemma inbox_scenario api now source L cap f st i0 i1 i2 :
  (3 <= cap)%Z ->
  fetchInboxConversations source L f L 0 = inl (237%Z, i0) -> length i0 = 100 ->
  fetchInboxConversations source L f L 100 = inl (237%Z, i1) -> length i1 = 100 ->
  fetchInboxConversations source L f L 200 = inl (237%Z, i2) -> length i2 = 37 ->
  exists r, inboxBatch api now false source L cap f st = Some r /\
            pageRequests r = 3 /\ thrown r = None /\
            length (threadRows (finalState r)) = length (threadRows st) + 237.
Proof.
  intros Hcap H0 L0 H1 L1 H2 L2. unfold inboxBatch.
  destruct (Z.to_nat (Z.max 1 cap)) as [|[|[|fuel]]] eqn:Hfuel; try lia.
  rewrite (inboxPagesFrom_step _ _ _ _ _ _ _ _ _ _ _ _ _ _ H0). rewrite L0.
  change (Nat.eqb 100 0) with false. cbv iota.
  change (237 <=? 0 + Z.of_nat 100)%Z with false. cbv iota.
  replace (cap <=? 0 + 1)%Z with false by (symmetry; apply Z.leb_gt; lia).
  change (0 + Z.of_nat 100)%Z with 100%Z. change (0 + 1)%Z with 1%Z.
  rewrite (inboxPagesFrom_step _ _ _ _ _ _ _ _ _ _ _ _ _ _ H1). rewrite L1.
  change (Nat.eqb 100 0) with false. cbv iota.
  change (237 <=? 100 + Z.of_nat 100)%Z with false. cbv iota.
  replace (cap <=? 1 + 1)%Z with false by (symmetry; apply Z.leb_gt; lia).
  change (100 + Z.of_nat 100)%Z with 200%Z. change (1 + 1)%Z with 2%Z.
  rewrite (inboxPagesFrom_step _ _ _ _ _ _ _ _ _ _ _ _ _ _ H2). rewrite L2.
  change (Nat.eqb 37 0) with false. cbv iota.
  change (237 <=? 200 + Z.of_nat 37)%Z with true. cbv iota.
  eexists. split; [reflexivity|]. cbn [pageRequests thrown finalState].
  split; [reflexivity|]. split; [reflexivity|].
  rewrite !processItems_threadRows_full. lia.
Qed.

Lemma leads_scenario (leads : LeadsSource) listId fuel p1 p2 p3 :
  3 <= fuel ->
  leads listId 100%Z 1%Z "" = inl p1 -> plainPage p1 100 ->
  leads listId 100%Z 2%Z "" = inl p2 -> plainPage p2 100 ->
  leads listId 100%Z 3%Z "" = inl p3 -> plainPage p3 37 ->
  fetchLeadsFromList leads 100 listId fuel
  = Some (Returned (page_items p1 ++ page_items p2 ++ page_items p3), 3) /\
  length (page_items p1 ++ page_items p2 ++ page_items p3) = 237.
Proof.
  intros Hfuel H1 (C1 & M1 & L1) H2 (C2 & M2 & L2) H3 (C3 & M3 & L3).
  destruct fuel as [|[|[|fuel]]]; try lia. unfold fetchLeadsFromList. split.
  - rewrite (fetchLeadsLoop_step _ _ _ _ _ _ _ _ _ H1). rewrite C1, M1, L1.
    cbn [Js.truthy]. change (Z.of_nat 100 =? 100)%Z with true. cbv iota.
    change (1 + 1)%Z with 2%Z.
    rewrite (fetchLeadsLoop_step _ _ _ _ _ _ _ _ _ H2). rewrite C2, M2, L2.
    cbn [Js.truthy]. change (Z.of_nat 100 =? 100)%Z with true. cbv iota.
    change (2 + 1)%Z with 3%Z.
    rewrite (fetchLeadsLoop_step _ _ _ _ _ _ _ _ _ H3). rewrite C3, M3, L3.
    cbn [Js.truthy]. change (Z.of_nat 37 =? 100)%Z with false. cbv iota.
    now rewrite <- app_assoc.
  - rewrite !length_app, L1, L2, L3. reflexivity.
Qed.

(** C6 (as amended) -- The offset-based page loop of a filter batch always
    ends, after at most [max(1, INBOX_MAX_PAGES)] page requests.  It ends at
    the request that returns an empty page, at the request after which the
    running offset has reached the reported total, and at the request that
    reaches the page cap.  The page-numbered lead loop, which reads no
    total, ends at a page that carries neither cursor nor [hasMore] and
    whose count differs from the page size.  For a Source returning 100,
    100 and 37 conversations at offsets 0, 100 and 200 and reporting the
    total 237, with a page cap of at least 3 and no watermark skipping, the
    batch issues exactly 3 page requests and yields 237 thread rows; for
    lead pages 1, 2, 3 of 100, 100 and 37 leads with page size 100 the lead
    loop issues exactly 3 requests and returns 237 leads. *)
Theorem pagination_termination (api : UrlApi) (now : string) (incremental : bool)
    (source : InboxSource) (L cap : Z) (f : Filters) (st : RunState) :
  (exists r, inboxBatch api now incremental source L cap f st = Some r /\
             (Z.of_nat (pageRequests r) <= Z.max 1 cap)%Z) /\
  (forall fuel page offset s n totalCount items,
      fetchInboxConversations source L f L offset = inl (totalCount, items) ->
      (items = [] ->
       inboxPagesFrom api now incremental source L cap f (S fuel) page offset s n
       = Some {| finalState := s; pageRequests := S n; thrown := None |}) /\
      (items <> [] ->
       (totalCount <= offset + Z.of_nat (length items))%Z \/ (cap <= page + 1)%Z ->
       inboxPagesFrom api now incremental source L cap f (S fuel) page offset s n
       = Some {| finalState := processItems api now incremental s items;
                 pageRequests := S n; thrown := None |})) /\
  (forall (leads : LeadsSource) P listId fuel results cursor page n data,
      leads listId P page cursor = inl data ->
      page_cursor data = "" -> page_hasMore data = false ->
      Z.of_nat (length (page_items data)) <> P ->
      fetchLeadsLoop leads P listId (S fuel) results cursor page n
      = Some (Returned (results ++ page_items data), S n)) /\
  (forall i0 i1 i2,
      incremental = false -> (3 <= cap)%Z ->
      fetchInboxConversations source L f L 0 = inl (237%Z, i0) -> length i0 = 100 ->
      fetchInboxConversations source L f L 100 = inl (237%Z, i1) -> length i1 = 100 ->
      fetchInboxConversations source L f L 200 = inl (237%Z, i2) -> length i2 = 37 ->
      exists r, inboxBatch api now incremental source L cap f st = Some r /\
                pageRequests r = 3 /\ thrown r = None /\
                length (threadRows (finalState r)) = length (threadRows st) + 237) /\
  (forall (leads : LeadsSource) listId fuel p1 p2 p3,
      3 <= fuel ->
      leads listId 100%Z 1%Z "" = inl p1 -> plainPage p1 100 ->
      leads listId 100%Z 2%Z "" = inl p2 -> plainPage p2 100 ->
      leads listId 100%Z 3%Z "" = inl p3 -> plainPage p3 37 ->
      fetchLeadsFromList leads 100 listId fuel
      = Some (Returned (page_items p1 ++ page_items p2 ++ page_items p3), 3) /\
      length (page_items p1 ++ page_items p2 ++ page_items p3) = 237).
Proof.
  split; [| split; [| split; [| split]]].
  - unfold inboxBatch.
    destruct (inboxPagesFrom_enough api now incremental source L cap f
                (Z.to_nat (Z.max 1 cap)) 0 0 st 0) as (r & Hr & Hb); [lia|].
    exists r. split; [exact Hr|]. lia.
  - intros fuel page offset s n totalCount items Hfetch.
    rewrite (inboxPagesFrom_step _ _ _ _ _ _ _ _ _ _ _ _ _ _ Hfetch). split.
    + now intros ->.
    + intros Hne Hstop. destruct items as [|c cs]; [contradiction|].
      change (Nat.eqb (length (c :: cs)) 0) with false. cbv iota.
      destruct Hstop as [Ht | Hc].
      * apply Z.leb_le in Ht. now rewrite Ht.
      * apply Z.leb_le in Hc. rewrite Hc. now destruct (totalCount <=? _)%Z.
  - intros leads P listId fuel results cursor page n data Hd Hc Hm Hl.
    rewrite (fetchLeadsLoop_step _ _ _ _ _ _ _ _ _ Hd). rewrite Hc, Hm.
    cbn [Js.truthy]. apply Z.eqb_neq in Hl. now rewrite Hl.
  - intros i0 i1 i2 -> Hcap. now apply inbox_scenario.
  - intros leads. apply leads_scenario.
Qed.

Lemma pagination_termination_witness :
  batchFigures (inboxBatch SimpleUrl.api "2024-05-03T00:00:00Z" false scenarioSource
                  100 3 (ByCampaign 1) (initialState ∅))
  = Some (3, 237).
Proof.
  destruct (pagination_termination SimpleUrl.api "2024-05-03T00:00:00Z" false
              scenarioSource 100 3 (ByCampaign 1) (initialState ∅))
    as (_ & _ & _ & Hscenario & _).
  destruct (Hscenario (scenarioItems 0) (scenarioItems 100) (scenarioItems 200))
    as (r & Hr & Hreq & _ & Hlen);
    [reflexivity | lia | reflexivity | reflexivity | reflexivity | reflexivity
    | reflexivity | reflexivity |].
  rewrite Hr. cbn [batchFigures]. now rewrite Hreq, Hlen.
Defined.

(** C6 (as stated) fails: with the page cap at its default of one page per
    batch, the Source of the scenario gets one page request and the batch
    yields 100 conversations, not 3 requests and 237. *)
Lemma pagination_scenario_under_default_page_cap :
  batchFigures (inboxBatch SimpleUrl.api "2024-05-03T00:00:00Z" false scenarioSource
                  100 1 (ByCampaign 1) (initialState ∅))
  = Some (1, 100) /\
  batchFigures (inboxBatch SimpleUrl.api "2024-05-03T00:00:00Z" false scenarioSource
                  100 1 (ByCampaign 1) (initialState ∅))
  <> Some (3, 237).
Proof.
  assert (batchFigures (inboxBatch SimpleUrl.api "2024-05-03T00:00:00Z" false
                          scenarioSource 100 1 (ByCampaign 1) (initialState ∅))
          = Some (1, 100)) as H by (vm_compute; reflexivity).
  split; [exact H|]. rewrite H. discriminate.
Qed.

(** When the responses carry no total, the offset loop ends after the
    first page whatever the page cap. *)
Lemma pagination_scenario_without_total :
  batchFigures (inboxBatch SimpleUrl.api "2024-05-03T00:00:00Z" false
                  scenarioSourceNoTotal 100 10 (ByCampaign 1) (initialState ∅))
  = Some (1, 100).
Proof. vm_compute. reflexivity. Qed.

(** *** Diff and patch *)

Lemma or_empty_r s : Js.or s "" = s.
Proof. now destruct s. Qed.

Lemma truthy_or_empty s : Js.truthy (Js.or s "") = Js.truthy s.
Proof. now rewrite or_empty_r. Qed.

Lemma strictNe_false x y : strictNe x y = false <-> y = Some x.
Proof.
  destruct y as [s|]; simpl; [| split; discriminate].
  rewrite negb_false_iff, String.eqb_eq. split; congruence.
Qed.

Lemma strictNe_true x y : strictNe x y = true <-> y <> Some x.
Proof.
  rewrite <- strictNe_false. destruct (strictNe x y); split; congruence.
Qed.

(** The four tests of [detectChanges]. *)
Lemma detectChanges_keys cur row :
  keys (detectChanges cur row)
  = (if Js.truthy (newFullOf row)
        && negb (String.eqb (newFullOf row) (Js.orOpt (cur_full_name cur) ""))
     then ["name"] else [])
    ++ (if Js.truthy (job_title row) && strictNe (job_title row) (cur_job_title cur)
        then ["job_title_5"] else [])
    ++ (if Js.truthy (company_name row)
           && strictNe (company_name row) (cur_company_name cur)
        then ["company_name"] else [])
    ++ (if Js.truthy (heyreach_lead_id row)
           && negb (Js.truthy (Js.orOpt (cur_heyreach_lead_id cur) ""))
        then ["heyreach_lead_id"] else []).
Proof.
  unfold keys, detectChanges. rewrite !map_app.
  repeat match goal with |- context [if ?b then _ else _] => destruct b end;
    reflexivity.
Qed.

Lemma detectChanges_same cur row :
  sameAsStored cur row -> detectChanges cur row = [].
Proof.
  intros (Hn & Hj & Hc & Hh). unfold detectChanges.
  rewrite Hn, String.eqb_refl, andb_false_r.
  assert (forall x y, x = Js.orOpt y "" -> Js.truthy x && strictNe x y = false) as Hx.
  { intros x [s|] ->; simpl; [| reflexivity]. rewrite or_empty_r.
    now rewrite String.eqb_refl, andb_false_r. }
  rewrite (Hx _ _ Hj), (Hx _ _ Hc).
  rewrite Hh. now destruct (Js.truthy (Js.orOpt (cur_heyreach_lead_id cur) "")).
Qed.

Lemma newFullOf_personRow api conv :
  newFullOf (personRowOf api conv) = full_name (personRowOf api conv).
Proof.
  unfold newFullOf, personRowOf, buildPeopleRowFromCorrespondent.
  cbn [first_name last_name full_name]. rewrite !or_empty_r.
  unfold Js.or. now destruct (Js.truthy _).
Qed.

(** Reading a record back after the patch computed for [row] leaves
    nothing more to change for [row]. *)
Lemma detectChanges_after_patch record row :
  detectChanges
    (extractCurrentValues (applyPatch record (detectChanges (extractCurrentValues record) row)))
    row = [].
Proof.
  destruct record as [nm jt cn hi]. unfold detectChanges at 2.
  unfold extractCurrentValues at 2 3 4 5.
  cbn [v_name v_job_title_5 v_company_name v_heyreach_lead_id
       cur_full_name cur_job_title cur_company_name cur_heyreach_lead_id].
  destruct (Js.truthy (newFullOf row) && _) eqn:Bn;
  destruct (Js.truthy (job_title row) && _) eqn:Bj;
  destruct (Js.truthy (company_name row) && _) eqn:Bc;
  destruct (Js.truthy (heyreach_lead_id row) && _) eqn:Bh;
  cbn -[Js.truthy Js.orOpt strictNe newFullOf];
  unfold detectChanges, extractCurrentValues;
  cbn -[Js.truthy Js.orOpt strictNe newFullOf Js.or Js.splitWs Js.join String.eqb];
  repeat match goal with
    | |- context [Js.orOpt (Some ?s) ""] =>
        change (Js.orOpt (Some s) "") with (Js.or s ""); rewrite (or_empty_r s)
    end;
  rewrite ?String.eqb_refl, ?andb_false_r;
  repeat match goal with
    | |- context [strictNe ?x (Some ?x)] =>
        replace (strictNe x (Some x)) with false
          by (symmetry; now apply strictNe_false)
    end;
  rewrite ?andb_false_r, ?Bn, ?Bj, ?Bc, ?Bh;
  try reflexivity;
  now destruct (Js.truthy (heyreach_lead_id row)).
Qed.

Lemma elem_of_cond (k k' : string) (b : bool) :
  k ∈ (if b then [k'] else []) <-> b = true /\ k = k'.
Proof.
  destruct b.
  - rewrite list_elem_of_singleton. tauto.
  - split; [intros H; inversion H | intros [[=] _]].
Qed.

Lemma detectChanges_key_iff cur row k :
  k ∈ keys (detectChanges cur row) <->
  (candidateDiffers (newFullOf row) (Some (Js.orOpt (cur_full_name cur) "")) /\ k = "name") \/
  (candidateDiffers (job_title row) (cur_job_title cur) /\ k = "job_title_5") \/
  (candidateDiffers (company_name row) (cur_company_name cur) /\ k = "company_name") \/
  ((Js.truthy (heyreach_lead_id row) = true /\ storedEmpty (cur_heyreach_lead_id cur))
   /\ k = "heyreach_lead_id").
Proof.
  rewrite detectChanges_keys, !elem_of_app, !elem_of_cond.
  unfold candidateDiffers, storedEmpty.
  rewrite !andb_true_iff, !strictNe_true, !negb_true_iff, String.eqb_neq.
  assert (forall a b : string, Some a <> Some b <-> b <> a) as Hs
      by (intros a b; split; congruence).
  rewrite Hs. tauto.
Qed.

Lemma detectChanges_value cur row k v :
  (k, v) ∈ detectChanges cur row ->
  (k = "name" /\ exists first last, v = NameValue (newFullOf row) first last) \/
  (k = "job_title_5" /\ v = TextValue (job_title row)) \/
  (k = "company_name" /\ v = TextValue (company_name row)) \/
  (k = "heyreach_lead_id" /\ v = TextValue (heyreach_lead_id row)).
Proof.
  unfold detectChanges. rewrite !elem_of_app.
  intros [H | [H | [H | H]]];
    match type of H with _ ∈ (if ?b then _ else _) => destruct b end;
    try (now inversion H);
    apply list_elem_of_singleton in H; injection H as -> ->.
  - left. split; [reflexivity|]. eauto.
  - right. left. now split.
  - right. right. left. now split.
  - right. right. right. now split.
Qed.

Lemma keys_NoDup cur row : NoDup (keys (detectChanges cur row)).
Proof.
  rewrite detectChanges_keys.
  repeat match goal with |- context [if ?b then _ else _] => destruct b end;
    apply (bool_decide_unpack _); vm_compute; exact I.
Qed.

Lemma reconcileExisting_cases recordId record row answers :
  let changes := detectChanges (extractCurrentValues record) row in
  (changes = [] /\ reconcileExisting recordId record row answers = (unchanged, [])) \/
  (changes <> [] /\
   ((reconcileExisting recordId record row answers = (updated, [PatchPerson recordId changes])
     /\ exists b, onPatch answers = Ok2xx b) \/
    reconcileExisting recordId record row answers = (failed, [PatchPerson recordId changes]) \/
    reconcileExisting recordId record row answers = (failed, []))).
Proof.
  cbv zeta. unfold reconcileExisting, updatePersonFields, keys.
  destruct (detectChanges (extractCurrentValues record) row) as [|c cs] eqn:E.
  - left. now split.
  - right. split; [discriminate|]. cbn [map length Nat.ltb Nat.leb Nat.eqb].
    destruct (onEnsureIds answers); destruct (onPatch answers); eauto.
Qed.

Lemma upsertPerson_unchanged sink acc row recordId record :
  Js.truthy (linkedin_url row) = true ->
  onQuery (sink row) = Ok2xx (Some (recordId, record)) ->
  sameAsStored (extractCurrentValues record) row ->
  outcomes (upsertPerson sink acc row) = outcomes acc ++ [(linkedin_url row, unchanged)] /\
  requests (upsertPerson sink acc row) = requests acc ++ [QueryPerson (linkedin_url row)].
Proof.
  intros Ht Hq Hs. unfold upsertPerson, findPersonByLinkedInUrl.
  rewrite Ht, Hq. cbn [negb]. unfold reconcileExisting.
  rewrite (detectChanges_same _ _ Hs). cbn. rewrite ?app_nil_r. now split.
Qed.

Lemma directValues_keys row :
  exists nameKeys handleKeys,
    keys (directValues row)
    = nameKeys ++ (if Js.truthy (linkedin_url row)
                   then handleKeys ++ ["linkedin_url_6"] else []) /\
    (nameKeys = [] \/ nameKeys = ["name"]) /\
    (handleKeys = [] \/ handleKeys = ["linkedin"]).
Proof.
  unfold directValues, keys. rewrite map_app.
  eexists (map fst _), (map fst (match matchLinkedinSlug (linkedin_url row) with
                                 | Some slug =>
                                     if negb (startsWithNoCase "conversation-" slug)
                                     then [("linkedin", TextValue slug)] else []
                                 | None => []
                                 end)).
  split; [| split].
  - f_equal. destruct (Js.truthy (linkedin_url row)); [| reflexivity].
    now rewrite map_app.
  - destruct (_ || _); [now right|]. destruct (Js.truthy (full_name row)); [now right | now left].
  - destruct (matchLinkedinSlug _); [| now left]. destruct (negb _); [now right | now left].
Qed.

Lemma create_sends_name_and_url_only_aux row :
  ("job_title_5" ∉ keys (directValues row)) /\ ("company_name" ∉ keys (directValues row)).
Proof.
  destruct (directValues_keys row) as (nk & hk & Hk & Hn & Hh). rewrite Hk.
  split; intros H; apply elem_of_app in H as [H | H];
    try (destruct Hn as [-> | ->]; [inversion H|];
         apply list_elem_of_singleton in H; discriminate H);
    (destruct (Js.truthy (linkedin_url row)); [| inversion H]);
    apply elem_of_app in H as [H | H];
    try (apply list_elem_of_singleton in H; discriminate H);
    (destruct Hh as [-> | ->]; [inversion H|]);
    apply list_elem_of_singleton in H; discriminate H.
Qed.

Lemma applyPatch_untouched changes record :
  "job_title_5" ∉ keys changes -> "company_name" ∉ keys changes ->
  v_job_title_5 (applyPatch record changes) = v_job_title_5 record /\
  v_company_name (applyPatch record changes) = v_company_name record.
Proof.
  unfold applyPatch, keys. revert record.
  induction changes as [|[k v] rest IH]; intros record Hj Hc; [now split|].
  cbn [fold_left map fst] in *.
  apply not_elem_of_cons in Hj as [Hj Hj']. apply not_elem_of_cons in Hc as [Hc Hc'].
  destruct (IH (applyChange record (k, v)) Hj' Hc') as [-> ->].
  destruct v as [full first last | s]; cbn [applyChange].
  - destruct (String.eqb k "name"); now split.
  - destruct (String.eqb k "job_title_5") eqn:E1; [apply String.eqb_eq in E1; congruence|].
    destruct (String.eqb k "company_name") eqn:E2; [apply String.eqb_eq in E2; congruence|].
    destruct (String.eqb k "heyreach_lead_id"); now split.
Qed.

Lemma attioUpsertPeople_returns onObjectIds sink rows :
  (forall message, onObjectIds <> Thrown message) ->
  attioUpsertPeople false SingleRecord onObjectIds sink rows
  = Returned (upsertPeopleLoop sink rows).
Proof.
  intros Hok. unfold attioUpsertPeople. destruct rows as [|r rs]; [reflexivity|].
  cbn [length Nat.eqb]. destruct onObjectIds as [b | status | message]; try reflexivity.
  now destruct (Hok message).
Qed.

Lemma created_record_is_patched row recordId answers :
  Js.truthy (job_title row) = true \/ Js.truthy (company_name row) = true ->
  fst (reconcileExisting recordId (applyPatch blankRecord (directValues row)) row answers)
  <> unchanged.
Proof.
  intros Hrow. set (record := applyPatch blankRecord (directValues row)).
  destruct (create_sends_name_and_url_only_aux row) as (Hj & Hc).
  destruct (applyPatch_untouched (directValues row) blankRecord Hj Hc) as [Ej Ec].
  fold record in Ej, Ec. cbn [blankRecord v_job_title_5 v_company_name] in Ej, Ec.
  assert ("job_title_5" ∈ keys (detectChanges (extractCurrentValues record) row) \/
          "company_name" ∈ keys (detectChanges (extractCurrentValues record) row)) as Hkey.
  { destruct Hrow as [Ht | Ht]; [left | right]; apply detectChanges_key_iff.
    - right. left. split; [| reflexivity]. split; [exact Ht|].
      unfold extractCurrentValues. cbn [cur_job_title]. rewrite Ej. discriminate.
    - right. right. left. split; [| reflexivity]. split; [exact Ht|].
      unfold extractCurrentValues. cbn [cur_company_name]. rewrite Ec. discriminate. }
  destruct (reconcileExisting_cases recordId record row answers)
    as [[Hnil _] | [_ [[-> _] | [-> | ->]]]]; try discriminate.
  rewrite Hnil in Hkey. destruct Hkey as [H | H]; inversion H.
Qed.




Lemma applyChange_lead_id record kv :
  fst kv <> "heyreach_lead_id" ->
  v_heyreach_lead_id (applyChange record kv) = v_heyreach_lead_id record.
Proof.
  destruct kv as [k [full first last | s]]; cbn [fst applyChange]; intros Hk.
  - now destruct (String.eqb k "name").
  - destruct (String.eqb k "job_title_5"); [reflexivity|].
    destruct (String.eqb k "company_name"); [reflexivity|].
    destruct (String.eqb k "heyreach_lead_id") eqn:E; [| reflexivity].
    now apply String.eqb_eq in E.
Qed.

Lemma applyPatch_lead_id changes record :
  "heyreach_lead_id" ∉ keys changes ->
  v_heyreach_lead_id (applyPatch record changes) = v_heyreach_lead_id record.
Proof.
  unfold applyPatch, keys. revert record.
  induction changes as [|kv rest IH]; intros record Hk; [reflexivity|].
  cbn [fold_left map] in *. apply not_elem_of_cons in Hk as [Hne Hrest].
  rewrite (IH _ Hrest). apply applyChange_lead_id. congruence.
Qed.

Lemma lead_id_key_iff cur row :
  "heyreach_lead_id" ∈ keys (detectChanges cur row) <->
  Js.truthy (heyreach_lead_id row) = true /\ storedEmpty (cur_heyreach_lead_id cur).
Proof.
  rewrite detectChanges_key_iff. split.
  - intros [[_ [=]] | [[_ [=]] | [[_ [=]] | [H _]]]]. exact H.
  - intros H. right. right. right. now split.
Qed.

Lemma reconcileStep_lead_id recordId record run :
  ~ storedEmpty (cur_heyreach_lead_id (extractCurrentValues record)) ->
  v_heyreach_lead_id (reconcileStep recordId record run) = v_heyreach_lead_id record.
Proof.
  intros Hset. destruct run as [row answers]. unfold reconcileStep.
  destruct (reconcileExisting_cases recordId record row answers)
    as [[_ ->] | [_ [[-> _] | [-> | ->]]]]; try reflexivity.
  apply applyPatch_lead_id. rewrite lead_id_key_iff. tauto.
Qed.

(** C5 -- The change set holds the [heyreach_lead_id] key exactly when
    the candidate lead id is non-empty and the stored one is empty, and
    then with the candidate as value.  When the stored lead id is
    non-empty no patch sent by the reconciler names the attribute, and the
    stored value stays what it was through any sequence of
    reconciliations, whatever the rows and the Sink's answers. *)
Theorem lead_id_write_once :
  (forall cur row,
      "heyreach_lead_id" ∈ keys (detectChanges cur row) <->
      Js.truthy (heyreach_lead_id row) = true /\ storedEmpty (cur_heyreach_lead_id cur)) /\
  (forall cur row v,
      ("heyreach_lead_id", v) ∈ detectChanges cur row ->
      v = TextValue (heyreach_lead_id row)) /\
  (forall recordId record row answers id changes,
      ~ storedEmpty (cur_heyreach_lead_id (extractCurrentValues record)) ->
      PatchPerson id changes ∈ snd (reconcileExisting recordId record row answers) ->
      "heyreach_lead_id" ∉ keys changes) /\
  (forall recordId record runs,
      ~ storedEmpty (cur_heyreach_lead_id (extractCurrentValues record)) ->
      cur_heyreach_lead_id
        (extractCurrentValues (fold_left (reconcileStep recordId) runs record))
      = cur_heyreach_lead_id (extractCurrentValues record)).
Proof.
  split; [exact lead_id_key_iff|]. split; [| split].
  - intros cur row v Hin.
    destruct (detectChanges_value cur row _ v Hin)
      as [[[=] _] | [[[=] _] | [[[=] _] | [_ ->]]]]. reflexivity.
  - intros recordId record row answers id changes Hset Hin.
    destruct (reconcileExisting_cases recordId record row answers)
      as [[_ Hre] | [_ [[Hre _] | [Hre | Hre]]]]; rewrite Hre in Hin; cbn [snd] in Hin;
      try (now inversion Hin);
      apply list_elem_of_singleton in Hin; injection Hin as -> ->;
      rewrite lead_id_key_iff; tauto.
  - intros recordId record runs. revert record.
    induction runs as [|run rest IH]; intros record Hset; [reflexivity|].
    cbn [fold_left].
    assert (cur_heyreach_lead_id (extractCurrentValues (reconcileStep recordId record run))
            = cur_heyreach_lead_id (extractCurrentValues record)) as Hstep.
    { unfold extractCurrentValues. cbn [cur_heyreach_lead_id].
      now rewrite reconcileStep_lead_id. }
    rewrite IH; [exact Hstep | now rewrite Hstep].
Qed.

Lemma lead_id_write_once_witness :
  let record := {| v_name := []; v_job_title_5 := []; v_company_name := [];
                   v_heyreach_lead_id := [Some "L1"] |} in
  let row title lead := {| first_name := "Jane"; last_name := "Doe"; full_name := "Jane Doe";
                           job_title := title; company_name := ""; company_domain := "";
                           linkedin_url := "https://www.linkedin.com/in/jane-doe";
                           heyreach_lead_id := lead; lead_source := "HeyReach";
                           campaign_name := ""; campaign_id := ""; owner_email := "";
                           lead_status := ""; last_touch_at := ""; last_reply_at := "" |} in
  let accepted := {| onEnsureIds := Ok2xx tt; onPatch := Ok2xx tt |} in
  cur_heyreach_lead_id
    (extractCurrentValues
       (fold_left (reconcileStep "rec-1")
          [(row "Engineer" "L2", accepted); (row "Manager" "L3", accepted)] record))
  = Some "L1".
Proof.
  intros record row accepted.
  apply (proj2 (proj2 (proj2 lead_id_write_once)) "rec-1" record
           [(row "Engineer" "L2", accepted); (row "Manager" "L3", accepted)]).
  unfold storedEmpty. vm_compute. discriminate.
Defined.

(** C3 (as amended) -- The change set computed by [detectChanges] holds
    distinct keys among [name], [job_title_5], [company_name] and
    [heyreach_lead_id]; it holds the first three exactly when the candidate
    value (for the name, the derived full name) is non-empty and differs
    from the stored one, and [heyreach_lead_id] exactly when the candidate is
    non-empty and the stored value is empty; each key carries the candidate
    value, and the patch sent has exactly the change set as its values.
    For a stored title [Engineer] and a row with title [Engineer] and
    company [Acme] the change set is the company alone. *)
Theorem diff_minimality (cur : CurrentValues) (row : PersonRow) :
  NoDup (keys (detectChanges cur row)) /\
  (forall k, k ∈ keys (detectChanges cur row) ->
             k ∈ ["name"; "job_title_5"; "company_name"; "heyreach_lead_id"]) /\
  ("name" ∈ keys (detectChanges cur row) <->
   candidateDiffers (newFullOf row) (Some (Js.orOpt (cur_full_name cur) ""))) /\
  ("job_title_5" ∈ keys (detectChanges cur row) <->
   candidateDiffers (job_title row) (cur_job_title cur)) /\
  ("company_name" ∈ keys (detectChanges cur row) <->
   candidateDiffers (company_name row) (cur_company_name cur)) /\
  ("heyreach_lead_id" ∈ keys (detectChanges cur row) <->
   Js.truthy (heyreach_lead_id row) = true /\ storedEmpty (cur_heyreach_lead_id cur)) /\
  (forall k v, (k, v) ∈ detectChanges cur row ->
     (k = "name" /\ exists first last, v = NameValue (newFullOf row) first last) \/
     (k = "job_title_5" /\ v = TextValue (job_title row)) \/
     (k = "company_name" /\ v = TextValue (company_name row)) \/
     (k = "heyreach_lead_id" /\ v = TextValue (heyreach_lead_id row))) /\
  (forall recordId answers r,
      r ∈ snd (updatePersonFields recordId (detectChanges cur row) answers) ->
      r = PatchPerson recordId (detectChanges cur row)) /\
  (newFullOf row = "" -> heyreach_lead_id row = "" ->
   cur_job_title cur = Some "Engineer" -> job_title row = "Engineer" ->
   company_name row = "Acme" -> cur_company_name cur = None ->
   detectChanges cur row = [("company_name", TextValue "Acme")]).
Proof.
  split; [apply keys_NoDup|]. split.
  { intros k Hk. apply detectChanges_key_iff in Hk.
    destruct Hk as [[_ ->] | [[_ ->] | [[_ ->] | [_ ->]]]];
      apply list_elem_of_In; cbn; tauto. }
  split.
  { rewrite detectChanges_key_iff. split.
    - intros [[H _] | [[_ [=]] | [[_ [=]] | [_ [=]]]]]. exact H.
    - intros H. left. now split. }
  split.
  { rewrite detectChanges_key_iff. split.
    - intros [[_ [=]] | [[H _] | [[_ [=]] | [_ [=]]]]]. exact H.
    - intros H. right. left. now split. }
  split.
  { rewrite detectChanges_key_iff. split.
    - intros [[_ [=]] | [[_ [=]] | [[H _] | [_ [=]]]]]. exact H.
    - intros H. right. right. left. now split. }
  split; [apply lead_id_key_iff|]. split; [apply detectChanges_value|]. split.
  { intros recordId answers r. unfold updatePersonFields.
    destruct (Nat.eqb _ 0); [intros H; inversion H|].
    destruct (onEnsureIds answers); cbn [snd]; intros H;
      try (now apply list_elem_of_singleton in H); inversion H. }
  intros Hn Hh Hj Hj' Hc Hc'. unfold detectChanges.
  rewrite Hn, Hh, Hj, Hj', Hc, Hc'. reflexivity.
Qed.

Lemma diff_minimality_witness :
  detectChanges
    {| cur_full_name := None; cur_first_name := None; cur_last_name := None;
       cur_job_title := Some "Engineer"; cur_company_name := None;
       cur_heyreach_lead_id := None |}
    {| first_name := ""; last_name := ""; full_name := ""; job_title := "Engineer";
       company_name := "Acme"; company_domain := ""; linkedin_url := "";
       heyreach_lead_id := ""; lead_source := "HeyReach"; campaign_name := "";
       campaign_id := ""; owner_email := ""; lead_status := ""; last_touch_at := "";
       last_reply_at := "" |}
  = [("company_name", TextValue "Acme")].
Proof.
  apply diff_minimality; reflexivity.
Defined.

(** C3 (as stated) fails on the lead id: a candidate lead id that is
    non-empty and differs from the stored one is not part of the change
    set when the stored one is already set. *)
Lemma diff_omits_differing_lead_id :
  let cur := {| cur_full_name := None; cur_first_name := None; cur_last_name := None;
                cur_job_title := None; cur_company_name := None;
                cur_heyreach_lead_id := Some "L1" |} in
  let row := {| first_name := ""; last_name := ""; full_name := ""; job_title := "";
                company_name := ""; company_domain := ""; linkedin_url := "";
                heyreach_lead_id := "L2"; lead_source := "HeyReach"; campaign_name := "";
                campaign_id := ""; owner_email := ""; lead_status := "";
                last_touch_at := ""; last_reply_at := "" |} in
  candidateDiffers (heyreach_lead_id row) (cur_heyreach_lead_id cur) /\
  detectChanges cur row = [] /\
  "heyreach_lead_id" ∉ keys (detectChanges cur row).
Proof.
  cbv zeta. split; [split; [reflexivity | discriminate] |].
  split; [reflexivity|]. cbn. intros H. inversion H.
Qed.

(** *** Message tokens *)

Lemma holdsUid_iff uid msgs :
  holdsUid uid msgs = true <-> uid ∈ map mv_message_uid msgs.
Proof.
  unfold holdsUid. rewrite existsb_exists, list_elem_of_In, in_map_iff.
  split; intros (v & H1 & H2); exists v.
  - apply String.eqb_eq in H2. now split.
  - split; [exact H2 | now apply String.eqb_eq].
Qed.

Lemma extends_refl a : extends a a.
Proof. now repeat split. Qed.

Lemma extends_trans a b c : extends a b -> extends b c -> extends a c.
Proof.
  intros (F1 & P1 & D1) (F2 & P2 & D2). split; [congruence|]. split; [etrans; [exact P1 | exact P2] |].
  intros Hu Hd. apply D2; [congruence | now apply D1].
Qed.

Lemma sinkCreateMessage_extends sink vals :
  extends sink (snd (sinkCreateMessage sink vals)).
Proof.
  unfold sinkCreateMessage.
  destruct (uniqueMessageUid sink && holdsUid (mv_message_uid vals) (stored sink)) eqn:E;
    cbn [snd]; [apply extends_refl|].
  split; [reflexivity|]. cbn [stored]. split; [now apply prefix_app_r|].
  intros Hu Hd. unfold uidsDistinct in *. cbn [stored].
  rewrite Hu in E. cbn [andb] in E. rewrite map_app. apply NoDup_app.
  split; [exact Hd|]. split; [| apply NoDup_singleton].
  intros uid Hin Hin'. apply list_elem_of_singleton in Hin'. subst uid.
  apply holdsUid_iff in Hin. congruence.
Qed.

Lemma createMessages_extends personId thread limited sink ids n :
  extends sink (snd (fst (createMessages personId thread limited sink ids n))).
Proof.
  revert sink ids n. induction limited as [|m rest IH]; intros sink ids n.
  - apply extends_refl.
  - cbn [createMessages].
    pose proof (sinkCreateMessage_extends sink (messageValues personId thread m)) as H.
    destruct (sinkCreateMessage sink (messageValues personId thread m)) as [[b | st | msg] sink'];
      cbn [snd fst] in *; [| exact H | exact H].
    eapply extends_trans; [exact H | apply IH].
Qed.

Lemma upsertThread_extends cfg ids acc thread :
  extends (messageSink acc) (messageSink (upsertThread cfg ids acc thread)).
Proof.
  unfold upsertThread. destruct (ids !! _) as [personId|]; [| apply extends_refl].
  destruct (negb (Js.truthy personId)); [apply extends_refl|].
  match goal with |- context [createMessages ?p ?t ?l ?s ?i ?n] =>
    pose proof (createMessages_extends p t l s i n) as H;
    destruct (createMessages p t l s i n) as [[[created|] sink'] k]
  end; exact H.
Qed.

Lemma sinkAfterThreads_extends cfg ids sink rows :
  extends sink (sinkAfterThreads cfg ids sink rows).
Proof.
  unfold sinkAfterThreads, attioUpsertThreads.
  destruct (Nat.eqb (length rows) 0); [apply extends_refl|].
  destruct (AT_DISABLE_THREADS_UPSERT cfg); [apply extends_refl|].
  destruct (AT_DRY_RUN cfg); [apply extends_refl|]. cbn [fst].
  set (acc := {| messageSink := sink; upsertedCount := 0; messagesByPerson := [] |}).
  change sink with (messageSink acc) at 1. generalize acc. clear acc.
  induction rows as [|t ts IH]; intros acc; [apply extends_refl|].
  cbn [fold_left]. eapply extends_trans; [apply upsertThread_extends | apply IH].
Qed.

Lemma filter_uid_absent uid msgs :
  uid ∉ map mv_message_uid msgs ->
  filter (fun v => mv_message_uid v = uid) msgs = [].
Proof.
  induction msgs as [|v vs IH]; intros Hout; [reflexivity|].
  cbn [map] in Hout. apply not_elem_of_cons in Hout as [Hne Hout].
  rewrite filter_cons_False by congruence. now apply IH.
Qed.

Lemma countUid_distinct uid sink :
  uidsDistinct sink -> holdsUid uid (stored sink) = true -> countUid uid sink = 1.
Proof.
  unfold uidsDistinct, countUid. intros Hd Hin. apply holdsUid_iff in Hin.
  induction (stored sink) as [|v vs IH]; [inversion Hin|].
  cbn [map] in *. apply NoDup_cons in Hd as [Hv Hd].
  destruct (decide (mv_message_uid v = uid)) as [Heq | Hne].
  - rewrite filter_cons_True by exact Heq. cbn [length]. f_equal.
    rewrite filter_uid_absent; [reflexivity | now rewrite <- Heq].
  - rewrite filter_cons_False by exact Hne. apply IH; [exact Hd|].
    apply elem_of_cons in Hin as [Heq | Hin]; [congruence | exact Hin].
Qed.

Lemma countUid_at_most_one uid sink : uidsDistinct sink -> countUid uid sink <= 1.
Proof.
  intros Hd. destruct (holdsUid uid (stored sink)) eqn:E.
  - rewrite (countUid_distinct uid sink Hd E). lia.
  - unfold countUid. rewrite filter_uid_absent; [simpl; lia|].
    intros Hin. apply holdsUid_iff in Hin. congruence.
Qed.

Lemma createMessages_without_unique personId thread limited sink ids n :
  uniqueMessageUid sink = false ->
  stored (snd (fst (createMessages personId thread limited sink ids n)))
  = stored sink ++ map (messageValues personId thread) limited.
Proof.
  revert sink ids n. induction limited as [|m rest IH]; intros sink ids n Hu.
  - cbn. now rewrite app_nil_r.
  - cbn [createMessages map]. unfold sinkCreateMessage. rewrite Hu. cbn [andb].
    rewrite IH by reflexivity. cbn [stored]. now rewrite <- app_assoc.
Qed.

(** C4 (as amended) -- The token of a message is a function of the thread
    id, the creation time and the sender alone, and it is the
    [message_uid] value of the create request whatever the run.  The
    script itself sends one create per message in every run and looks
    nothing up: a Sink without the unique attribute stores them all.
    When the Sink's schema declares [message_uid] unique, so that it
    refuses a create whose token it already stores, the tokens stored stay
    distinct through any two runs, and a message stored by the first run
    is stored exactly once after the second. *)
Theorem message_uniqueness :
  (forall thread_id m1 m2,
      createdAt m1 = createdAt m2 -> sender m1 = sender m2 ->
      message_uid thread_id m1 = message_uid thread_id m2) /\
  (forall personId thread m,
      mv_message_uid (messageValues personId thread m) = message_uid (t_thread_id thread) m) /\
  (forall personId thread limited sink ids n,
      uniqueMessageUid sink = false ->
      stored (snd (fst (createMessages personId thread limited sink ids n)))
      = stored sink ++ map (messageValues personId thread) limited) /\
  (forall cfg1 cfg2 ids1 ids2 rows1 rows2 sink0 uid,
      uniqueMessageUid sink0 = true -> uidsDistinct sink0 ->
      let sink1 := sinkAfterThreads cfg1 ids1 sink0 rows1 in
      let sink2 := sinkAfterThreads cfg2 ids2 sink1 rows2 in
      countUid uid sink2 <= 1 /\
      (holdsUid uid (stored sink1) = true -> countUid uid sink2 = 1)).
Proof.
  split; [| split; [| split]].
  - intros thread_id m1 m2 Hc Hs. unfold message_uid. now rewrite Hc, Hs.
  - reflexivity.
  - apply createMessages_without_unique.
  - intros cfg1 cfg2 ids1 ids2 rows1 rows2 sink0 uid Hu Hd sink1 sink2.
    destruct (sinkAfterThreads_extends cfg1 ids1 sink0 rows1) as (F1 & P1 & D1).
    destruct (sinkAfterThreads_extends cfg2 ids2 sink1 rows2) as (F2 & P2 & D2).
    fold sink1 in F1, P1, D1, F2, P2, D2. fold sink2 in F2, P2, D2.
    assert (uidsDistinct sink2) as Hd2.
    { apply D2; [congruence | now apply D1]. }
    split; [now apply countUid_at_most_one|].
    intros Hin. apply countUid_distinct; [exact Hd2|].
    apply holdsUid_iff. apply holdsUid_iff in Hin.
    destruct P2 as [k ->]. rewrite map_app. apply elem_of_app. now left.
Qed.

Lemma message_uniqueness_witness :
  let sink0 := {| uniqueMessageUid := true; stored := [] |} in
  let sink1 := sinkAfterThreads liveConfig examplePeopleIds sink0 [exampleThread] in
  let sink2 := sinkAfterThreads liveConfig examplePeopleIds sink1 [exampleThread] in
  countUid (message_uid "t-1" exampleMessage) sink2 = 1.
Proof.
  intros sink0 sink1 sink2.
  apply (proj2 (proj2 (proj2 message_uniqueness)) liveConfig liveConfig
           examplePeopleIds examplePeopleIds [exampleThread] [exampleThread] sink0
           (message_uid "t-1" exampleMessage)).
  - reflexivity.
  - constructor.
  - vm_compute. reflexivity.
Defined.

(** C4 (as stated) fails: the script sends a create for the same message
    in each run, and a Sink that stores what it is sent ends up with two
    messages for the token. *)
Lemma message_stored_twice_without_unique_attribute :
  let sink0 := {| uniqueMessageUid := false; stored := [] |} in
  let sink1 := sinkAfterThreads liveConfig examplePeopleIds sink0 [exampleThread] in
  let sink2 := sinkAfterThreads liveConfig examplePeopleIds sink1 [exampleThread] in
  message_uid "t-1" exampleMessage = "t-1:2024-05-01T10:00:00Z:ME" /\
  countUid (message_uid "t-1" exampleMessage) sink2 = 2.
Proof. cbv zeta. split; vm_compute; reflexivity. Qed.

(** *** Failures of single entities *)

Section PerLeadFacts.
Variable api : UrlApi.
Variable fetchLeads : option string -> Fetched (list RawLead).
Variable fetchConversationsForLead : string -> Fetched (list LeadMessage).

Lemma addLead_keeps m lead k :
  k ∈ map fst m -> k ∈ map fst (addLead m lead).
Proof.
  intros H. unfold addLead. destruct (negb _); [exact H|].
  destruct (existsb _ m); [exact H|].
  rewrite map_app. apply elem_of_app. now left.
Qed.

Lemma addLead_adds m lead :
  Js.truthy (leadIdOf lead) = true -> leadIdOf lead ∈ map fst (addLead m lead).
Proof.
  intros Ht. unfold addLead. rewrite Ht. cbn [negb].
  destruct (existsb _ m) eqn:E.
  - apply existsb_exists in E as (kv & Hin & Heq). apply String.eqb_eq in Heq.
    rewrite <- Heq. apply list_elem_of_fmap. exists kv. split; [reflexivity|].
    now apply list_elem_of_In.
  - rewrite map_app. apply elem_of_app. right. cbn. left.
Qed.

Lemma addLeads_keep leads m k :
  k ∈ map fst m -> k ∈ map fst (fold_left addLead leads m).
Proof.
  revert m. induction leads as [|l ls IH]; intros m H; [exact H|].
  cbn [fold_left]. now apply IH, addLead_keeps.
Qed.

Lemma addLeads_add leads m lead :
  lead ∈ leads -> Js.truthy (leadIdOf lead) = true ->
  leadIdOf lead ∈ map fst (fold_left addLead leads m).
Proof.
  revert m. induction leads as [|l ls IH]; intros m Hin Ht; [inversion Hin|].
  cbn [fold_left]. apply elem_of_cons in Hin as [-> | Hin].
  - now apply addLeads_keep, addLead_adds.
  - now apply IH.
Qed.

Lemma pullList_keeps run listId :
  (forall e, e ∈ runErrors run -> e ∈ runErrors (pullList fetchLeads run listId)) /\
  (forall k, k ∈ map fst (uniqueLeadsById run) ->
             k ∈ map fst (uniqueLeadsById (pullList fetchLeads run listId))).
Proof.
  unfold pullList. destruct (fetchLeads (Some listId)); cbn [runErrors uniqueLeadsById].
  - split; [tauto|]. intros k. apply addLeads_keep.
  - split; [| tauto]. intros e He. apply elem_of_app. now left.
Qed.

Lemma pullLists_keep ids run :
  (forall e, e ∈ runErrors run ->
             e ∈ runErrors (fold_left (pullList fetchLeads) ids run)) /\
  (forall k, k ∈ map fst (uniqueLeadsById run) ->
             k ∈ map fst (uniqueLeadsById (fold_left (pullList fetchLeads) ids run))).
Proof.
  revert run. induction ids as [|i rest IH]; intros run; [tauto|].
  cbn [fold_left]. destruct (pullList_keeps run i) as [He Hk].
  destruct (IH (pullList fetchLeads run i)) as [He' Hk']. split; auto.
Qed.

Lemma pullLists_record ids run listId message :
  listId ∈ ids -> fetchLeads (Some listId) = Threw message ->
  {| err_stage := "fetchLeadsFromList"; err_entity := Some listId;
     err_message := message |}
  ∈ runErrors (fold_left (pullList fetchLeads) ids run).
Proof.
  revert run. induction ids as [|i rest IH]; intros run Hin Hf; [inversion Hin|].
  cbn [fold_left]. apply elem_of_cons in Hin as [<- | Hin]; [| now apply IH].
  apply pullLists_keep. unfold pullList. rewrite Hf. cbn [runErrors].
  apply elem_of_app. right. left.
Qed.

Lemma pullLists_leads ids run listId leads lead :
  listId ∈ ids -> fetchLeads (Some listId) = Returned leads ->
  lead ∈ leads -> Js.truthy (leadIdOf lead) = true ->
  leadIdOf lead ∈ map fst (uniqueLeadsById (fold_left (pullList fetchLeads) ids run)).
Proof.
  revert run. induction ids as [|i rest IH]; intros run Hin Hf Hl Ht; [inversion Hin|].
  cbn [fold_left]. apply elem_of_cons in Hin as [<- | Hin]; [| now apply IH].
  apply pullLists_keep. unfold pullList. rewrite Hf. cbn [uniqueLeadsById].
  now apply addLeads_add.
Qed.

Lemma pullConversations_keeps run lead :
  uniqueLeadsById (pullConversations api fetchConversationsForLead run lead)
  = uniqueLeadsById run /\
  (forall e, e ∈ runErrors run ->
             e ∈ runErrors (pullConversations api fetchConversationsForLead run lead)) /\
  (forall r, r ∈ leadMessageRows run ->
             r ∈ leadMessageRows (pullConversations api fetchConversationsForLead run lead)).
Proof.
  unfold pullConversations. destruct (negb _); [tauto|]. destruct (negb _); [tauto|].
  destruct (fetchConversationsForLead _);
    cbn [uniqueLeadsById runErrors leadMessageRows];
    (split; [reflexivity|]); split; try tauto;
    intros x Hx; apply elem_of_app; now left.
Qed.

Lemma pullAllConversations_keep leads run :
  uniqueLeadsById (fold_left (pullConversations api fetchConversationsForLead) leads run)
  = uniqueLeadsById run /\
  (forall e, e ∈ runErrors run ->
     e ∈ runErrors (fold_left (pullConversations api fetchConversationsForLead) leads run)) /\
  (forall r, r ∈ leadMessageRows run ->
     r ∈ leadMessageRows
           (fold_left (pullConversations api fetchConversationsForLead) leads run)).
Proof.
  revert run. induction leads as [|l ls IH]; intros run; [tauto|].
  cbn [fold_left]. destruct (pullConversations_keeps run l) as (Hu & He & Hr).
  destruct (IH (pullConversations api fetchConversationsForLead run l)) as (Hu' & He' & Hr').
  split; [congruence|]. split; auto.
Qed.

Lemma pullAllConversations_lead leads run lead :
  lead ∈ leads ->
  Js.truthy (leadIdOf lead) = true -> Js.truthy (leadUrlOf api lead) = true ->
  let run' := fold_left (pullConversations api fetchConversationsForLead) leads run in
  (forall message,
      fetchConversationsForLead (leadIdOf lead) = Threw message ->
      {| err_stage := "fetchConversationsForLead"; err_entity := Some (leadIdOf lead);
         err_message := message |} ∈ runErrors run') /\
  (forall conv m,
      fetchConversationsForLead (leadIdOf lead) = Returned conv -> m ∈ conv ->
      extractMessageCore (leadIdOf lead) (leadUrlOf api lead) m ∈ leadMessageRows run').
Proof.
  revert run. induction leads as [|l ls IH]; intros run Hin Hid Hurl; [inversion Hin|].
  cbn [fold_left]. apply elem_of_cons in Hin as [<- | Hin]; [| now apply IH].
  cbv zeta.
  destruct (pullAllConversations_keep ls
              (pullConversations api fetchConversationsForLead run lead))
    as (_ & He & Hr).
  split.
  - intros message Hf. apply He. unfold pullConversations.
    rewrite Hid, Hurl, Hf. cbn [negb runErrors]. apply elem_of_app. right. left.
  - intros conv m Hf Hm. apply Hr. unfold pullConversations.
    rewrite Hid, Hurl, Hf. cbn [negb leadMessageRows]. apply elem_of_app. right.
    apply list_elem_of_fmap. now exists m.
Qed.

Lemma addLead_ids m lead :
  Forall (fun kv => Js.truthy (leadIdOf (snd kv)) = true) m ->
  Forall (fun kv => Js.truthy (leadIdOf (snd kv)) = true) (addLead m lead).
Proof.
  intros H. unfold addLead. destruct (Js.truthy (leadIdOf lead)) eqn:Ht; [| exact H].
  cbn [negb]. destruct (existsb _ m); [exact H|].
  apply Forall_app. split; [exact H|]. constructor; [exact Ht | constructor].
Qed.

Lemma pullLists_ids ids run :
  Forall (fun kv => Js.truthy (leadIdOf (snd kv)) = true) (uniqueLeadsById run) ->
  Forall (fun kv => Js.truthy (leadIdOf (snd kv)) = true)
    (uniqueLeadsById (fold_left (pullList fetchLeads) ids run)).
Proof.
  revert run. induction ids as [|i rest IH]; intros run H; [exact H|].
  cbn [fold_left]. apply IH. unfold pullList.
  destruct (fetchLeads (Some i)) as [leads|]; cbn [uniqueLeadsById]; [| exact H].
  clear IH. revert H. generalize (uniqueLeadsById run).
  induction leads as [|l ls IHl]; intros m H; [exact H|].
  cbn [fold_left]. now apply IHl, addLead_ids.
Qed.

Lemma pullAll_ids run :
  Forall (fun kv => Js.truthy (leadIdOf (snd kv)) = true) (uniqueLeadsById run) ->
  Forall (fun kv => Js.truthy (leadIdOf (snd kv)) = true)
    (uniqueLeadsById (pullAll fetchLeads run)).
Proof.
  intros H. unfold pullAll.
  destruct (fetchLeads None) as [leads|]; cbn [uniqueLeadsById]; [| exact H].
  revert H. generalize (uniqueLeadsById run).
  induction leads as [|l ls IHl]; intros m H; [exact H|].
  cbn [fold_left]. now apply IHl, addLead_ids.
Qed.

Lemma leadsArrayOf_ids MAX_LEADS run lead :
  Forall (fun kv => Js.truthy (leadIdOf (snd kv)) = true) (uniqueLeadsById run) ->
  lead ∈ leadsArrayOf MAX_LEADS run -> Js.truthy (leadIdOf lead) = true.
Proof.
  intros Hall Hin.
  assert (lead ∈ map snd (uniqueLeadsById run)) as Hin'.
  { unfold leadsArrayOf in Hin. destruct (_ && _); [| exact Hin].
    rewrite <- (firstn_skipn (Z.to_nat MAX_LEADS) (map snd (uniqueLeadsById run))).
    apply elem_of_app. now left. }
  apply list_elem_of_fmap in Hin' as (kv & -> & Hkv).
  rewrite Forall_forall in Hall. now apply Hall.
Qed.

End PerLeadFacts.

Lemma upsertPerson_failed_query sink acc row newId :
  Js.truthy (linkedin_url row) = true ->
  (forall found, onQuery (sink row) <> Ok2xx (Some found)) ->
  onCreate (sink row) = Ok2xx newId ->
  outcomes (upsertPerson sink acc row) = outcomes acc ++ [(linkedin_url row, created)] /\
  requests (upsertPerson sink acc row)
  = requests acc ++ [QueryPerson (linkedin_url row); CreatePerson row].
Proof.
  intros Ht Hq Hc. unfold upsertPerson, findPersonByLinkedInUrl. rewrite Ht. cbn [negb].
  destruct (onQuery (sink row)) as [[found|] | status | message];
    [now destruct (Hq found) | | |]; rewrite Hc; cbn [outcomes requests]; now split.
Qed.

Lemma upsertPeopleLoop_handles_all sink rows :
  map fst (outcomes (upsertPeopleLoop sink rows)) = map linkedin_url rows.
Proof.
  unfold upsertPeopleLoop.
  assert (forall acc,
             map fst (outcomes (fold_left (upsertPerson sink) rows acc))
             = map fst (outcomes acc) ++ map linkedin_url rows) as H.
  { induction rows as [|r rs IH]; intros acc; [cbn; now rewrite app_nil_r|].
    cbn [fold_left map]. rewrite IH. unfold upsertPerson.
    destruct (findPersonByLinkedInUrl _ _) as [[[recordId record]|] qreqs].
    - destruct (reconcileExisting _ _ _ _) as [outcome preqs]. cbn [outcomes].
      rewrite map_app, <- app_assoc. reflexivity.
    - destruct (onCreate (sink r)); cbn [outcomes];
        rewrite map_app, <- app_assoc; reflexivity. }
  apply (H {| ok := 0; recordIdByUrl := ∅; outcomes := []; requests := [] |}).
Qed.

(** C9 (as amended) -- In the per-lead flow a failed lead fetch for a
    list and a failed conversation fetch for a lead do not stop the run:
    the list or lead is passed over, the leads of the lists that answered
    are kept, the messages of the leads that answered are emitted, and the
    report's error list, which is the list accumulated during the run,
    holds a record with the stage, the list or lead id and the message of
    each such failure.  A failed Sink query or patch does not stop the
    people upsert on the single-record endpoint either: once the lookup of
    the object ids made before the first row has not thrown, every row is
    handled (after a failed
    query the person is created).  When that lookup throws, or when the
    batch endpoint is used and its one request fails, no row is handled
    and the threads upsert is not called, but the run still ends with its
    report.  All these Sink failures are only written to the console: the
    report of the inbox flow, the only flow that writes to the Sink, always
    has an empty error list. *)
Theorem failure_isolation (api : UrlApi)
    (fetchLeads : option string -> Fetched (list RawLead))
    (fetchConversationsForLead : string -> Fetched (list LeadMessage))
    (LIST_IDS : list string) (MAX_LEADS : Z) :
  let flow := perLeadFlow api fetchLeads fetchConversationsForLead LIST_IDS MAX_LEADS in
  let run := fst flow in
  let report := snd flow in
  errors report = runErrors run /\
  (forall listId message,
      listId ∈ LIST_IDS -> fetchLeads (Some listId) = Threw message ->
      {| err_stage := "fetchLeadsFromList"; err_entity := Some listId;
         err_message := message |} ∈ errors report) /\
  (forall listId leads lead,
      listId ∈ LIST_IDS -> fetchLeads (Some listId) = Returned leads ->
      lead ∈ leads -> Js.truthy (leadIdOf lead) = true ->
      leadIdOf lead ∈ map fst (uniqueLeadsById run)) /\
  (forall message,
      LIST_IDS = [] -> fetchLeads None = Threw message ->
      {| err_stage := "fetchLeads"; err_entity := None; err_message := message |}
      ∈ errors report) /\
  (forall lead,
      lead ∈ leadsArrayOf MAX_LEADS run -> Js.truthy (leadUrlOf api lead) = true ->
      (forall message,
          fetchConversationsForLead (leadIdOf lead) = Threw message ->
          {| err_stage := "fetchConversationsForLead"; err_entity := Some (leadIdOf lead);
             err_message := message |} ∈ errors report) /\
      (forall conv m,
          fetchConversationsForLead (leadIdOf lead) = Returned conv -> m ∈ conv ->
          extractMessageCore (leadIdOf lead) (leadUrlOf api lead) m
          ∈ leadMessageRows run)) /\
  (forall onObjectIds sink rows,
      (forall message, onObjectIds <> Thrown message) ->
      exists r, attioUpsertPeople false SingleRecord onObjectIds sink rows = Returned r /\
                map fst (outcomes r) = map linkedin_url rows) /\
  (forall cfg endpoint message sink messageSink st,
      AT_DRY_RUN cfg = false -> validatedPeople st <> [] ->
      peopleUpsert (inboxFinish cfg endpoint (Thrown message) sink messageSink st)
      = Threw message /\
      threadsUpsert (inboxFinish cfg endpoint (Thrown message) sink messageSink st) = None) /\
  (forall cfg onBatch onObjectIds sink messageSink st,
      AT_DRY_RUN cfg = false -> validatedPeople st <> [] ->
      onBatch <> BatchAccepted ->
      (exists message,
          peopleUpsert (inboxFinish cfg (BatchUpsert onBatch) onObjectIds sink messageSink st)
          = Threw message) /\
      threadsUpsert (inboxFinish cfg (BatchUpsert onBatch) onObjectIds sink messageSink st)
      = None) /\
  (forall sink acc row newId,
      Js.truthy (linkedin_url row) = true ->
      (forall found, onQuery (sink row) <> Ok2xx (Some found)) ->
      onCreate (sink row) = Ok2xx newId ->
      outcomes (upsertPerson sink acc row) = outcomes acc ++ [(linkedin_url row, created)] /\
      requests (upsertPerson sink acc row)
      = requests acc ++ [QueryPerson (linkedin_url row); CreatePerson row]) /\
  (forall cfg endpoint onObjectIds sink messageSink st,
      errors (runReport (inboxFinish cfg endpoint onObjectIds sink messageSink st)) = []).
Proof.
  cbv zeta. unfold perLeadFlow. cbn [fst snd errors].
  set (start := {| uniqueLeadsById := []; runErrors := []; leadMessageRows := [] |}).
  set (run1 := if Nat.ltb 0 (length LIST_IDS)
               then fold_left (pullList fetchLeads) LIST_IDS start
               else pullAll fetchLeads start).
  destruct (pullAllConversations_keep api fetchConversationsForLead
              (leadsArrayOf MAX_LEADS run1) run1) as (Hu & He & Hr).
  assert (forall listId, listId ∈ LIST_IDS ->
            run1 = fold_left (pullList fetchLeads) LIST_IDS start) as Hlists.
  { intros listId Hin. subst run1. destruct LIST_IDS; [inversion Hin | reflexivity]. }
  assert (Forall (fun kv => Js.truthy (leadIdOf (snd kv)) = true) (uniqueLeadsById run1))
    as Hids.
  { subst run1. destruct (Nat.ltb 0 (length LIST_IDS));
      [apply pullLists_ids | apply pullAll_ids]; constructor. }
  split; [reflexivity|].
  split; [| split; [| split; [| split; [| split; [| split; [| split; [| split]]]]]]].
  - intros listId message Hin Hf. apply He. rewrite (Hlists listId Hin).
    now apply pullLists_record.
  - intros listId leads lead Hin Hf Hl Ht. rewrite Hu, (Hlists listId Hin).
    now apply pullLists_leads with (listId := listId) (leads := leads).
  - intros message Hnil Hf. apply He. subst run1. rewrite Hnil. cbn [length Nat.ltb Nat.leb].
    unfold pullAll. rewrite Hf. cbn [runErrors]. left.
  - intros lead Hin Hurl.
    assert (lead ∈ leadsArrayOf MAX_LEADS run1) as Hin1.
    { unfold leadsArrayOf in *. now rewrite Hu in Hin. }
    exact (pullAllConversations_lead api fetchConversationsForLead
             (leadsArrayOf MAX_LEADS run1) run1 lead Hin1
             (leadsArrayOf_ids MAX_LEADS run1 lead Hids Hin1) Hurl).
  - intros onObjectIds sink rows Hlookup. exists (upsertPeopleLoop sink rows).
    split; [now apply attioUpsertPeople_returns | apply upsertPeopleLoop_handles_all].
  - intros cfg endpoint message sink messageSink st Hlive Hrows.
    unfold inboxFinish, attioUpsertPeople. cbn [peopleUpsert threadsUpsert].
    rewrite Hlive. destruct (validatedPeople st); [contradiction | now split].
  - intros cfg onBatch onObjectIds sink messageSink st Hlive Hrows Hbatch.
    unfold inboxFinish, attioUpsertPeople. cbn [peopleUpsert threadsUpsert].
    rewrite Hlive. destruct (validatedPeople st) as [|row rows]; [contradiction|].
    cbn [length Nat.eqb].
    destruct onObjectIds as [b | status | message];
      destruct onBatch as [| refusedStatus detail | thrown];
      try contradiction; (split; [eexists; reflexivity | reflexivity]).
  - apply upsertPerson_failed_query.
  - reflexivity.
Qed.

Lemma failure_isolation_witness :
  let flow := perLeadFlow SimpleUrl.api exampleFetchLeads exampleFetchConversations
                ["A"; "B"] 0 in
  {| err_stage := "fetchLeadsFromList"; err_entity := Some "A";
     err_message := "Exhausted retries for /leads" |} ∈ errors (snd flow) /\
  {| err_stage := "fetchConversationsForLead"; err_entity := Some "lead-7";
     err_message := "Request failed with status 500" |} ∈ errors (snd flow) /\
  "lead-7" ∈ map fst (uniqueLeadsById (fst flow)).
Proof.
  intros flow.
  destruct (failure_isolation SimpleUrl.api exampleFetchLeads exampleFetchConversations
              ["A"; "B"] 0) as (_ & Hlist & Hkept & _ & Hconv & _).
  split; [| split].
  - apply (Hlist "A"); [left | reflexivity].
  - apply (proj1 (Hconv exampleLead ltac:(vm_compute; left)
                    ltac:(vm_compute; reflexivity))).
    reflexivity.
  - apply (Hkept "B" [exampleLead] exampleLead); [right; left | reflexivity | left | reflexivity].
Defined.

(** C9 (as stated) fails for the Sink: when the Sink refuses the patch of
    a person, or when its query fails (the person is then created, not
    passed over), the run goes on but the report written at the end of the
    inbox flow lists no error. *)
Lemma sink_failures_missing_from_report :
  let noMessages := {| uniqueMessageUid := true; stored := [] |} in
  let refused := inboxFinish liveConfig SingleRecord (Ok2xx tt) sinkRefusingPatch noMessages exampleRun in
  let failing := inboxFinish liveConfig SingleRecord (Ok2xx tt) sinkFailingQuery noMessages exampleRun in
  (exists r, peopleUpsert refused = Returned r /\
             outcomes r = [("https://www.linkedin.com/in/jane-doe", failed)]) /\
  errors (runReport refused) = [] /\
  (exists r, peopleUpsert failing = Returned r /\
             outcomes r = [("https://www.linkedin.com/in/jane-doe", created)]) /\
  errors (runReport failing) = [].
Proof.
  cbv zeta. split; [| split; [| split]]; try reflexivity;
    (eexists; split; [reflexivity | vm_compute; reflexivity]).
Qed.

(* ===================================================================== *)
(** ** Further properties of the script *)
(* ===================================================================== *)

(** *** CSV escaping *)

Lemma append_char_inj c a b :
  a +:+ String c EmptyString = b +:+ String c EmptyString -> a = b.
Proof.
  revert b. induction a as [|x a IH]; intros [|y b] H; cbn in H.
  - reflexivity.
  - injection H as _ H. destruct b; discriminate.
  - injection H as _ H. destruct a; discriminate.
  - injection H as -> H. f_equal. now apply IH.
Qed.

Lemma doubleQuotes_inj s1 s2 : doubleQuotes s1 = doubleQuotes s2 -> s1 = s2.
Proof.
  revert s2. induction s1 as [|c1 r1 IH]; intros [|c2 r2]; cbn.
  - reflexivity.
  - destruct (Ascii.eqb c2 dquote); discriminate.
  - destruct (Ascii.eqb c1 dquote); discriminate.
  - destruct (Ascii.eqb c1 dquote) eqn:E1; destruct (Ascii.eqb c2 dquote) eqn:E2; intros H.
    + apply Ascii.eqb_eq in E1, E2. subst. injection H as H. f_equal. now apply IH.
    + injection H as H _. subst c2. now rewrite Ascii.eqb_refl in E2.
    + injection H as H _. subst c1. now rewrite Ascii.eqb_refl in E1.
    + injection H as -> H. f_equal. now apply IH.
Qed.

(** X1 -- [csvEscape] loses nothing: two strings written to the same CSV
    field text are the same string; a string without double quote, comma
    or line feed is written as it is, and any other is written between
    double quotes. *)
Theorem csvEscape_injective (s1 s2 : string) :
  (csvEscape (Js.Str s1) = csvEscape (Js.Str s2) -> s1 = s2) /\
  (needsQuoting s1 = false -> csvEscape (Js.Str s1) = s1) /\
  (needsQuoting s1 = true ->
   exists inner, csvEscape (Js.Str s1)
                 = String dquote (inner +:+ String dquote EmptyString)).
Proof.
  split; [| split].
  - unfold csvEscape.
    destruct (needsQuoting s1) eqn:N1; destruct (needsQuoting s2) eqn:N2; intros H.
    + injection H as H. now apply doubleQuotes_inj, (append_char_inj dquote).
    + subst s2. cbn in N2. discriminate N2.
    + subst s1. cbn in N1. discriminate N1.
    + exact H.
  - intros N. unfold csvEscape. now rewrite N.
  - intros N. unfold csvEscape. rewrite N. eauto.
Qed.

Lemma csvEscape_injective_witness :
  csvEscape (Js.Str "Acme, Inc.") = String dquote ("Acme, Inc." +:+ String dquote EmptyString).
Proof.
  destruct (csvEscape_injective "Acme, Inc." "Acme, Inc.") as (_ & _ & H).
  destruct (H eq_refl) as [inner Hi]. vm_compute. reflexivity.
Defined.

(** *** The pacing gate *)

Lemma releaseTimes_after delay next nows j t :
  (0 <= delay)%Z ->
  releaseTimes delay next nows !! j = Some t ->
  (next + Z.of_nat j * delay <= t)%Z.
Proof.
  intros Hd. revert next j. induction nows as [|now rest IH]; intros next j H.
  - destruct j; discriminate.
  - cbn [releaseTimes rateLimitWait] in H. destruct j as [|j].
    + cbn in H. injection H as <-. lia.
    + cbn [lookup list_lookup] in H. apply IH in H. nia.
Qed.

Lemma releaseTimes_spaced delay next nows i n t1 t2 :
  (0 <= delay)%Z ->
  releaseTimes delay next nows !! i = Some t1 ->
  releaseTimes delay next nows !! (i + n) = Some t2 ->
  (t1 + Z.of_nat n * delay <= t2)%Z.
Proof.
  intros Hd. revert next i. induction nows as [|now rest IH]; intros next i H1 H2.
  - destruct i; discriminate.
  - cbn [releaseTimes rateLimitWait] in H1, H2. destruct i as [|i].
    + cbn in H1. injection H1 as <-. destruct n as [|n].
      * cbn in H2. injection H2 as <-. lia.
      * cbn [Nat.add lookup list_lookup] in H2.
        apply (releaseTimes_after delay _ rest n t2 Hd) in H2. nia.
    + cbn [Nat.add lookup list_lookup] in H1, H2. exact (IH _ i H1 H2).
Qed.

Lemma budget_delay m :
  let k := Z.max 1 (Z.min 14 m) in
  (1 <= k <= 14)%Z /\ (143 <= (2000 + k - 1) / k <= 2000)%Z /\
  (2000 <= k * ((2000 + k - 1) / k))%Z.
Proof.
  cbv zeta. remember (Z.max 1 (Z.min 14 m)) as k eqn:Ek.
  assert (1 <= k <= 14)%Z as Hk by lia.
  split; [exact Hk|].
  assert (k = 1 \/ k = 2 \/ k = 3 \/ k = 4 \/ k = 5 \/ k = 6 \/ k = 7 \/ k = 8 \/ k = 9 \/
          k = 10 \/ k = 11 \/ k = 12 \/ k = 13 \/ k = 14)%Z as Hcases by lia.
  clear Ek Hk.
  repeat (destruct Hcases as [-> | Hcases]; [vm_compute; repeat split; discriminate |]).
  rewrite Hcases. vm_compute. repeat split; discriminate.
Qed.

Lemma gateReleaseTimes_numeric d next nows :
  gateReleaseTimes (Some d) (Some next) nows = releaseTimes d next nows.
Proof.
  revert next. induction nows as [|now rest IH]; intros next; [reflexivity|].
  cbn [gateReleaseTimes releaseTimes rateLimitGate rateLimitWait]. now rewrite IH.
Qed.

Lemma gateReleaseTimes_unpaced delay nows :
  gateReleaseTimes delay None nows = nows.
Proof.
  induction nows as [|now rest IH]; [reflexivity|].
  cbn [gateReleaseTimes rateLimitGate]. rewrite IH. f_equal. lia.
Qed.

(** X2 -- The pacing gate spaces the callers it lets through: for calls
    made one after the other, whatever the clock readings, the release
    time of the call number [i + n] is at least [n] delays after that of
    the call number [i]. *)
Theorem rateLimitWait_spacing (delay nextAllowedAtMs : Z) (nows : list Z)
    (i n : nat) (t1 t2 : Z) :
  (0 <= delay)%Z ->
  releaseTimes delay nextAllowedAtMs nows !! i = Some t1 ->
  releaseTimes delay nextAllowedAtMs nows !! (i + n) = Some t2 ->
  (t1 + Z.of_nat n * delay <= t2)%Z.
Proof.
  intros Hd. revert nextAllowedAtMs i.
  induction nows as [|now rest IH]; intros next i H1 H2.
  - destruct i; discriminate.
  - cbn [releaseTimes rateLimitWait] in H1, H2. destruct i as [|i].
    + cbn in H1. injection H1 as <-. destruct n as [|n].
      * cbn in H2. injection H2 as <-. lia.
      * cbn [Nat.add lookup list_lookup] in H2.
        apply (releaseTimes_after delay _ rest n t2 Hd) in H2. nia.
    + cbn [Nat.add lookup list_lookup] in H1, H2. exact (IH _ i H1 H2).
Qed.

Lemma rateLimitWait_spacing_witness :
  (0 + Z.of_nat 2 * 250 <= 500)%Z.
Proof.
  apply (rateLimitWait_spacing 250 0 [0; 10; 20]%Z 0 2 0 500); [lia | reflexivity | reflexivity].
Defined.

(** X3 -- For a setting that [parseInt] reads as a number, the request
    budget is clamped to 1..14 per two seconds, the delay between releases
    lies between 143 and 2000 ms, and the gate keeps the budget for calls
    made one after the other (each call of the gate has returned before the
    next one starts): with an effective budget of [k], the call number
    [i + k] is released at least 2000 ms after the call number [i].  For a
    setting that is not a number the budget and the delay are [NaN] and the
    gate spaces nothing: the first call waits for [nextAllowedAtMs] and
    every later call is released at its own clock reading. *)
Theorem rate_budget_kept (MAX_REQS_PER_2S : option Z) (nextAllowedAtMs : Z) (nows : list Z)
    (i : nat) (t1 t2 : Z) :
  let delay := PER_REQ_DELAY_MS MAX_REQS_PER_2S in
  let released := gateReleaseTimes delay (Some nextAllowedAtMs) nows in
  (forall m, MAX_REQS_PER_2S = Some m ->
     exists k d,
       effectiveBudget MAX_REQS_PER_2S = Some k /\ delay = Some d /\
       (1 <= k <= 14)%Z /\ (143 <= d <= 2000)%Z /\
       (released !! i = Some t1 ->
        released !! (i + Z.to_nat k) = Some t2 ->
        (t1 + 2000 <= t2)%Z)) /\
  (MAX_REQS_PER_2S = None ->
     effectiveBudget MAX_REQS_PER_2S = None /\ delay = None /\
     forall now rest, nows = now :: rest ->
       released = Z.max now nextAllowedAtMs :: rest).
Proof.
  cbv zeta. split.
  - intros m ->. destruct (budget_delay m) as (Hk & Hd & Hb).
    exists (Z.max 1 (Z.min 14 m)), ((2000 + Z.max 1 (Z.min 14 m) - 1) / Z.max 1 (Z.min 14 m))%Z.
    split; [reflexivity|]. split; [reflexivity|]. split; [exact Hk|]. split; [exact Hd|].
    change (PER_REQ_DELAY_MS (Some m))
      with (Some ((2000 + Z.max 1 (Z.min 14 m) - 1) / Z.max 1 (Z.min 14 m))%Z).
    rewrite gateReleaseTimes_numeric. intros H1 H2.
    assert (0 <= (2000 + Z.max 1 (Z.min 14 m) - 1) / Z.max 1 (Z.min 14 m))%Z as H0 by lia.
    pose proof (releaseTimes_spaced _ _ _ _ _ _ _ H0 H1 H2) as H.
    rewrite Z2Nat.id in H by lia. lia.
  - intros ->. split; [reflexivity|]. split; [reflexivity|].
    intros now rest ->. cbn [PER_REQ_DELAY_MS effectiveBudget gateReleaseTimes rateLimitGate].
    rewrite gateReleaseTimes_unpaced. f_equal. lia.
Qed.

(** A budget of 3: the fourth call is released 2001 ms after the first.  A
    setting that is not a number: four calls within 3 ms are all released
    at once. *)
Lemma rate_budget_kept_witness :
  (0 + 2000 <= 2001)%Z /\
  gateReleaseTimes (PER_REQ_DELAY_MS None) (Some 0%Z) [0; 1; 2; 3]%Z = [0; 1; 2; 3]%Z.
Proof.
  split.
  - destruct (proj1 (rate_budget_kept (Some 3%Z) 0 [0; 1; 2; 3]%Z 0 0 2001) 3%Z eq_refl)
      as (k & d & Hk & _ & _ & _ & H).
    injection Hk as <-. apply H; reflexivity.
  - exact (proj2 (proj2 (proj2 (rate_budget_kept None 0 [0; 1; 2; 3]%Z 0 0 0) eq_refl))
             0%Z [1; 2; 3]%Z eq_refl).
Defined.

(** *** The retrying client *)

Section GetWithRetryFacts.
Variable A : Type.
Variable server : nat -> Method -> nat -> AxiosAnswer A.
Variable MAX_RETRIES : Z.
Variable postBodyIfNeeded : bool.

Lemma postFallback_2xx log i s d :
  postFallback A server log i = Some (s, d) -> is2xx s = true.
Proof.
  unfold postFallback. destruct (server (length log) POST i) as [status data|]; [| discriminate].
  destruct (is2xx status) eqn:E; [| discriminate]. now intros [= <- _].
Qed.

Lemma tryVariants_facts attempt variants log :
  let r := tryVariants A server MAX_RETRIES postBodyIfNeeded attempt variants log in
  (forall s d, fst r = Return s d -> is2xx s = true) /\
  log `prefix_of` snd r /\
  length (snd r) <= length log + 2 * length variants /\
  length (filter (fun e => fst e = GET) (snd r))
  <= length (filter (fun e => fst e = GET) log) + length variants.
Proof.
  cbv zeta. revert log. induction variants as [|i rest IH]; intros log.
  { cbn. split; [discriminate|]. split; [reflexivity|]. split; lia. }
  assert (forall l : list (Method * nat),
             length (filter (fun e => fst e = GET) (l ++ [(GET, i)]))
             = S (length (filter (fun e => fst e = GET) l))) as HG.
  { intros l. rewrite filter_app, length_app, filter_cons_True by reflexivity.
    rewrite filter_nil. cbn. lia. }
  assert (forall l : list (Method * nat),
             length (filter (fun e => fst e = GET) (l ++ [(POST, i)]))
             = length (filter (fun e => fst e = GET) l)) as HP.
  { intros l. rewrite filter_app, length_app, filter_cons_False by discriminate.
    rewrite filter_nil. cbn. lia. }
  assert (forall l : list (Method * nat),
             let r := tryVariants A server MAX_RETRIES postBodyIfNeeded attempt rest l in
             log `prefix_of` l -> length l <= length log + 2 ->
             length (filter (fun e => fst e = GET) l)
             <= S (length (filter (fun e => fst e = GET) log)) ->
             (forall s d, fst r = Return s d -> is2xx s = true) /\
             log `prefix_of` snd r /\
             length (snd r) <= length log + 2 * length (i :: rest) /\
             length (filter (fun e => fst e = GET) (snd r))
             <= length (filter (fun e => fst e = GET) log) + length (i :: rest)) as Hrec.
  { intros l r Hp Hl Hg. destruct (IH l) as (H1 & H2 & H3 & H4). subst r.
    split; [exact H1|]. split; [etrans; eassumption|]. cbn [length]. split; lia. }
  assert (forall (f : Flow A) (l : list (Method * nat)),
             (forall s d, f = Return s d -> is2xx s = true) ->
             log `prefix_of` l -> length l <= length log + 2 ->
             length (filter (fun e => fst e = GET) l)
             <= S (length (filter (fun e => fst e = GET) log)) ->
             (forall s d, fst (f, l) = Return s d -> is2xx s = true) /\
             log `prefix_of` snd (f, l) /\
             length (snd (f, l)) <= length log + 2 * length (i :: rest) /\
             length (filter (fun e => fst e = GET) (snd (f, l)))
             <= length (filter (fun e => fst e = GET) log) + length (i :: rest)) as Hend.
  { intros f l Hf Hp Hl Hg. cbn [fst snd length]. split; [exact Hf|]. split; [exact Hp|].
    split; lia. }
  assert (log `prefix_of` log ++ [(GET, i)]) as P1 by now apply prefix_app_r.
  assert (log `prefix_of` (log ++ [(GET, i)]) ++ [(POST, i)]) as P2
      by now apply prefix_app_r, prefix_app_r.
  assert (length (log ++ [(GET, i)]) <= length log + 2) as L1
      by (rewrite length_app; cbn; lia).
  assert (length ((log ++ [(GET, i)]) ++ [(POST, i)]) <= length log + 2) as L2
      by (rewrite !length_app; cbn; lia).
  assert (length (filter (fun e => fst e = GET) (log ++ [(GET, i)]))
          <= S (length (filter (fun e => fst e = GET) log))) as G1 by (rewrite HG; lia).
  assert (length (filter (fun e => fst e = GET) ((log ++ [(GET, i)]) ++ [(POST, i)]))
          <= S (length (filter (fun e => fst e = GET) log))) as G2
      by (rewrite HP, HG; lia).
  cbn [tryVariants].
  destruct (server (length log) GET i) as [status data | status message].
  - destruct (is2xx status) eqn:E2.
    { apply Hend; auto. now intros s d [= <- _]. }
    destruct (_ || _ || _).
    { destruct postBodyIfNeeded; [| now apply Hrec].
      destruct (postFallback A server (log ++ [(GET, i)]) i) as [[s d]|] eqn:Ep.
      - apply Hend; auto. intros s' d' [= <- _]. now apply postFallback_2xx in Ep.
      - now apply Hrec. }
    destruct (_ || _); [now apply Hrec|].
    destruct (_ && _); apply Hend; auto; discriminate.
  - destruct (_ && _); [now apply Hrec|].
    destruct postBodyIfNeeded; [| apply Hend; auto; discriminate].
    destruct (postFallback A server (log ++ [(GET, i)]) i) as [[s d]|] eqn:Ep.
    + apply Hend; auto. intros s' d' [= <- _]. now apply postFallback_2xx in Ep.
    + apply Hend; auto. discriminate.
Qed.

Lemma attempts_facts remaining attempt log :
  let r := attempts A server MAX_RETRIES postBodyIfNeeded remaining attempt log in
  (forall s d, fst r = Return s d -> is2xx s = true) /\
  length (snd r) <= length log + 10 * remaining /\
  length (filter (fun e => fst e = GET) (snd r))
  <= length (filter (fun e => fst e = GET) log) + 5 * remaining.
Proof.
  cbv zeta. revert attempt log. induction remaining as [|k IH]; intros attempt log.
  { cbn. split; [discriminate|]. split; lia. }
  cbn [attempts].
  destruct (tryVariants_facts attempt authVariants log) as (H1 & _ & H3 & H4).
  destruct (tryVariants A server MAX_RETRIES postBodyIfNeeded attempt authVariants log)
    as [[s d | err |] log'] eqn:E; cbn [fst snd length authVariants] in *.
  - split; [exact H1|]. split; lia.
  - split; [discriminate|]. split; lia.
  - destruct (IH (attempt + 1)%Z log') as (I1 & I2 & I3).
    split; [exact I1|]. split; lia.
Qed.

Lemma tryVariants_rejected attempt variants log :
  (forall n i, exists d, server n GET i = Responded 401 d \/ server n GET i = Responded 403 d) ->
  tryVariants A server MAX_RETRIES postBodyIfNeeded attempt variants log
  = (NextAttempt, log ++ map (fun i => (GET, i)) variants).
Proof.
  intros Hs. revert log. induction variants as [|i rest IH]; intros log.
  { cbn. now rewrite app_nil_r. }
  cbn [tryVariants map].
  destruct (Hs (length log) i) as [d [-> | ->]]; cbn; rewrite IH, <- app_assoc; reflexivity.
Qed.

Lemma attempts_rejected remaining attempt log :
  (forall n i, exists d, server n GET i = Responded 401 d \/ server n GET i = Responded 403 d) ->
  exists log',
    attempts A server MAX_RETRIES postBodyIfNeeded remaining attempt log
    = (Throw ExhaustedRetries, log ++ log') /\
    length log' = 5 * remaining /\ Forall (fun e => fst e = GET) log'.
Proof.
  intros Hs. revert attempt log. induction remaining as [|k IH]; intros attempt log.
  { exists []. cbn. rewrite app_nil_r. repeat split. constructor. }
  cbn [attempts]. rewrite (tryVariants_rejected attempt authVariants log Hs).
  destruct (IH (attempt + 1)%Z (log ++ map (fun i => (GET, i)) authVariants))
    as (log' & -> & Hl & Hg).
  exists (map (fun i => (GET, i)) authVariants ++ log'). rewrite <- app_assoc.
  split; [reflexivity|]. split.
  - rewrite length_app. cbn. lia.
  - apply Forall_app. split; [| exact Hg]. cbn. repeat constructor.
Qed.

Lemma tryVariants_unreachable attempt variants log (message : nat -> Method -> nat -> string) :
  (forall n m i, server n m i = Failed None (message n m i)) ->
  (attempt <? MAX_RETRIES)%Z = true ->
  tryVariants A server MAX_RETRIES postBodyIfNeeded attempt variants log
  = (NextAttempt, log ++ map (fun i => (GET, i)) variants).
Proof.
  intros Hs Ha. revert log. induction variants as [|i rest IH]; intros log.
  { cbn. now rewrite app_nil_r. }
  cbn [tryVariants map]. rewrite Hs, Ha. cbn. rewrite IH, <- app_assoc. reflexivity.
Qed.

Lemma attempts_unreachable k attempt log (message : nat -> Method -> nat -> string) :
  (forall n m i, server n m i = Failed None (message n m i)) ->
  postBodyIfNeeded = true ->
  (attempt + Z.of_nat k = MAX_RETRIES)%Z ->
  attempts A server MAX_RETRIES postBodyIfNeeded (S k) attempt log
  = (Throw (CallError (message (length log + 5 * k) GET 0)),
     log ++ concat (replicate k (map (fun i => (GET, i)) authVariants))
         ++ [(GET, 0); (POST, 0)]).
Proof.
  intros Hs Hp. revert attempt log. induction k as [|k IH]; intros attempt log Ha.
  - assert ((attempt <? MAX_RETRIES)%Z = false) as Hlt by (apply Z.ltb_ge; lia).
    cbn [attempts tryVariants authVariants]. rewrite Hs, Hlt, Hp. cbn [andb].
    unfold postFallback. rewrite Hs.
    replace (length log + 5 * 0) with (length log) by lia.
    cbn [replicate concat app]. rewrite <- app_assoc. reflexivity.
  - assert ((attempt <? MAX_RETRIES)%Z = true) as Hlt by (apply Z.ltb_lt; lia).
    change (attempts A server MAX_RETRIES postBodyIfNeeded (S (S k)) attempt log)
      with (match tryVariants A server MAX_RETRIES postBodyIfNeeded attempt authVariants log with
            | (NextAttempt, log') =>
                attempts A server MAX_RETRIES postBodyIfNeeded (S k) (attempt + 1)%Z log'
            | done => done
            end).
    rewrite (tryVariants_unreachable attempt authVariants log message Hs Hlt).
    rewrite (IH (attempt + 1)%Z (log ++ map (fun i => (GET, i)) authVariants)) by lia.
    rewrite length_app, length_map.
    replace (length log + length authVariants + 5 * k) with (length log + 5 * S k)
      by (cbn [length authVariants]; lia).
    cbn [replicate concat]. rewrite <- !app_assoc. reflexivity.
Qed.

End GetWithRetryFacts.

(** X4 -- [getWithRetry] never hands a response with a status outside
    200..299 to its caller, whatever the server answers; it makes at most
    five GET requests per attempt and at most ten requests per attempt in
    all, for [MAX_RETRIES + 1] attempts (none when [MAX_RETRIES] is
    negative). *)
Theorem getWithRetry_only_2xx (A : Type) (server : nat -> Method -> nat -> AxiosAnswer A)
    (MAX_RETRIES : Z) (postBodyIfNeeded : bool) :
  let r := getWithRetry A server MAX_RETRIES postBodyIfNeeded in
  (forall s d, fst r = Return s d -> (200 <= s < 300)%Z) /\
  length (snd r) <= 10 * Z.to_nat (MAX_RETRIES + 1) /\
  length (filter (fun e => fst e = GET) (snd r)) <= 5 * Z.to_nat (MAX_RETRIES + 1).
Proof.
  cbv zeta. unfold getWithRetry.
  destruct (attempts_facts A server MAX_RETRIES postBodyIfNeeded
              (Z.to_nat (MAX_RETRIES + 1)) 0 []) as (H1 & H2 & H3).
  split; [| split; [exact H2 | exact H3]].
  intros s d H. apply H1 in H. unfold is2xx in H.
  apply andb_true_iff in H as [Hlo Hhi]. apply Z.leb_le in Hlo. apply Z.ltb_lt in Hhi. lia.
Qed.

Lemma getWithRetry_only_2xx_witness :
  (200 <= 204 < 300)%Z.
Proof.
  apply (proj1 (getWithRetry_only_2xx unit
                  (fun n m i => if Nat.eqb i 2 then Responded 204 tt else Responded 401 tt)
                  3 true) 204%Z tt).
  vm_compute. reflexivity.
Defined.

(** X5 -- When every GET is answered 401 or 403, [getWithRetry] tries the
    five auth variants in each of the [MAX_RETRIES + 1] attempts, sends no
    POST, and throws the exhausted-retries error. *)
Theorem getWithRetry_auth_rejected (A : Type)
    (server : nat -> Method -> nat -> AxiosAnswer A)
    (MAX_RETRIES : Z) (postBodyIfNeeded : bool) :
  (forall n i, exists d, server n GET i = Responded 401 d \/ server n GET i = Responded 403 d) ->
  exists log,
    getWithRetry A server MAX_RETRIES postBodyIfNeeded = (Throw ExhaustedRetries, log) /\
    length log = 5 * Z.to_nat (MAX_RETRIES + 1) /\
    Forall (fun e => fst e = GET) log.
Proof.
  intros Hs. unfold getWithRetry.
  destruct (attempts_rejected A server MAX_RETRIES postBodyIfNeeded
              (Z.to_nat (MAX_RETRIES + 1)) 0 [] Hs) as (log & H & Hl & Hg).
  exists log. now rewrite H.
Qed.

Lemma getWithRetry_auth_rejected_witness :
  exists log,
    getWithRetry unit (fun _ _ _ => Responded 401 tt) 3 true = (Throw ExhaustedRetries, log) /\
    length log = 20 /\ Forall (fun e => fst e = GET) log.
Proof.
  apply (getWithRetry_auth_rejected unit (fun _ _ _ => Responded 401 tt) 3 true).
  intros n i. exists tt. now left.
Defined.

(** X6 -- When the server cannot be reached at all (every call throws
    without a response, each with an error of its own), [getWithRetry],
    given a POST body and a [MAX_RETRIES] that is not negative, spends the
    retries on the other auth variants rather than on the same request: the
    requests it makes are, in this order, the five GETs of the five
    variants in each of the first [MAX_RETRIES] attempts, then one GET and
    one POST with the first variant; and what it throws is the error of
    that last GET, not the one of the POST. *)
Theorem getWithRetry_unreachable (A : Type)
    (server : nat -> Method -> nat -> AxiosAnswer A)
    (MAX_RETRIES : Z) (message : nat -> Method -> nat -> string) :
  (0 <= MAX_RETRIES)%Z ->
  (forall n m i, server n m i = Failed None (message n m i)) ->
  getWithRetry A server MAX_RETRIES true
  = (Throw (CallError (message (5 * Z.to_nat MAX_RETRIES) GET 0)),
     concat (replicate (Z.to_nat MAX_RETRIES) [(GET, 0); (GET, 1); (GET, 2); (GET, 3); (GET, 4)])
       ++ [(GET, 0); (POST, 0)]).
Proof.
  intros Hm Hs. unfold getWithRetry.
  replace (Z.to_nat (MAX_RETRIES + 1)) with (S (Z.to_nat MAX_RETRIES)) by lia.
  rewrite (attempts_unreachable A server MAX_RETRIES true (Z.to_nat MAX_RETRIES) 0 []
             message Hs eq_refl) by lia.
  reflexivity.
Qed.

(** A server that cannot be reached, whose errors tell the requests apart. *)
Lemma getWithRetry_unreachable_witness :
  getWithRetry unit
    (fun n m _ => Failed None (match m with
                               | GET => if Nat.eqb n 5 then "sixth GET" else "earlier GET"
                               | POST => "POST"
                               end)) 1 true
  = (Throw (CallError "sixth GET"),
     [(GET, 0); (GET, 1); (GET, 2); (GET, 3); (GET, 4); (GET, 0); (POST, 0)]).
Proof.
  apply (getWithRetry_unreachable unit
           (fun n m _ => Failed None (match m with
                                      | GET => if Nat.eqb n 5 then "sixth GET" else "earlier GET"
                                      | POST => "POST"
                                      end)) 1
           (fun n m _ => match m with
                         | GET => if Nat.eqb n 5 then "sixth GET" else "earlier GET"
                         | POST => "POST"
                         end));
    [lia | reflexivity].
Defined.

(** *** Joining URLs *)

Lemma string_app_assoc (x y z : string) : (x +:+ y) +:+ z = x +:+ y +:+ z.
Proof.
  induction x as [|c x IH]; [reflexivity|].
  change ((String c x +:+ y) +:+ z) with (String c ((x +:+ y) +:+ z)).
  change (String c x +:+ y +:+ z) with (String c (x +:+ y +:+ z)).
  now rewrite IH.
Qed.

Lemma endsWithChar_app c a b :
  b <> EmptyString -> Js.endsWithChar c (a +:+ b) = Js.endsWithChar c b.
Proof.
  intros Hb. induction a as [|x a IH]; [reflexivity|].
  change (String x a +:+ b) with (String x (a +:+ b)). cbn [Js.endsWithChar].
  destruct (a +:+ b) eqn:E; [| exact IH].
  destruct a; cbn in E; [contradiction | discriminate].
Qed.

(** X7 -- [joinUrl] removes at most one slash on each side.  For a base
    that does not end with a slash and a path that does not start with
    one, the result has exactly one slash between the two, and one trailing
    slash added to the base, one leading slash added to the path, or both,
    make no difference to it.  Further slashes are kept: a base with two
    trailing slashes and a path with two leading ones are joined with three
    slashes between them. *)
Theorem joinUrl_one_slash (a b : string) :
  (Js.endsWithChar "/" a = false -> Js.startsWith "/" b = false ->
   joinUrl a b = a +:+ "/" +:+ b /\
   joinUrl (a +:+ "/") b = a +:+ "/" +:+ b /\
   joinUrl a ("/" +:+ b) = a +:+ "/" +:+ b /\
   joinUrl (a +:+ "/") ("/" +:+ b) = a +:+ "/" +:+ b) /\
  joinUrl (a +:+ "//") ("//" +:+ b) = a +:+ "///" +:+ b.
Proof.
  split.
  - intros Ha Hb. unfold joinUrl.
    rewrite Ha, Hb, (endsWithChar_app "/" a "/") by discriminate.
    change ("/" +:+ b) with (String "/" b). cbn [Js.startsWith SimpleUrl.tail].
    rewrite Ascii.eqb_refl. cbn [SimpleUrl.tail].
    change (Js.endsWithChar "/" "/") with true. cbv iota.
    rewrite !string_app_assoc. repeat split.
  - unfold joinUrl. rewrite (endsWithChar_app "/" a "//") by discriminate.
    change ("//" +:+ b) with (String "/" (String "/" b)).
    cbn [Js.startsWith SimpleUrl.tail]. rewrite Ascii.eqb_refl. cbn [SimpleUrl.tail].
    change (Js.endsWithChar "/" "//") with true. cbv iota.
    rewrite string_app_assoc. reflexivity.
Qed.

Lemma joinUrl_one_slash_witness :
  joinUrl "https://api.heyreach.io/" "/api/public" = "https://api.heyreach.io/api/public" /\
  joinUrl "https://api.heyreach.io//" "//api/public" = "https://api.heyreach.io///api/public".
Proof.
  split.
  - apply (proj1 (joinUrl_one_slash "https://api.heyreach.io" "api/public")); reflexivity.
  - reflexivity.
Defined.

(** *** Filter batches *)

(** X8 -- The batches of an inbox run start with one batch per list id;
    the cap keeps a prefix of at most [MAX_INBOX_BATCHES] batches, so with
    as many list ids as the cap no campaign or account is extracted at all;
    and when campaigns and accounts are both configured or both fetched,
    there is one batch per pair, hence none when no account is known. *)
Theorem inbox_batches_shape (LIST_IDS : list string)
    (INBOX_CAMPAIGN_IDS INBOX_ACCOUNT_IDS fetchedCampaignIds fetchedAccountIds : list Z)
    (MAX_INBOX_BATCHES : Z) :
  let batches := filtersBatches LIST_IDS INBOX_CAMPAIGN_IDS INBOX_ACCOUNT_IDS
                   fetchedCampaignIds fetchedAccountIds in
  let capped := cappedBatches MAX_INBOX_BATCHES batches in
  firstn (length LIST_IDS) batches = map ByList LIST_IDS /\
  capped `prefix_of` batches /\
  ((0 < MAX_INBOX_BATCHES)%Z -> length capped <= Z.to_nat MAX_INBOX_BATCHES) /\
  ((0 < MAX_INBOX_BATCHES)%Z -> Z.to_nat MAX_INBOX_BATCHES <= length LIST_IDS ->
   capped = map ByList (firstn (Z.to_nat MAX_INBOX_BATCHES) LIST_IDS)) /\
  (INBOX_CAMPAIGN_IDS = [] -> INBOX_ACCOUNT_IDS = [] ->
   length batches
   = length LIST_IDS + length fetchedCampaignIds * length fetchedAccountIds) /\
  (INBOX_CAMPAIGN_IDS = [] -> INBOX_ACCOUNT_IDS = [] -> fetchedAccountIds = [] ->
   batches = map ByList LIST_IDS).
Proof.
  cbv zeta. unfold cappedBatches, filtersBatches.
  set (tail := if _ && _ then _ else _).
  split; [| split; [| split; [| split; [| split]]]].
  - rewrite <- (length_map ByList LIST_IDS) at 1. now rewrite firstn_app, Nat.sub_diag,
      firstn_all, firstn_O, app_nil_r.
  - destruct (0 <? MAX_INBOX_BATCHES)%Z; [| reflexivity].
    exists (skipn (Z.to_nat MAX_INBOX_BATCHES) (map ByList LIST_IDS ++ tail)).
    now rewrite firstn_skipn.
  - intros H. apply Z.ltb_lt in H. rewrite H. apply firstn_le_length.
  - intros H Hl. apply Z.ltb_lt in H. rewrite H.
    rewrite firstn_app, length_map.
    replace (Z.to_nat MAX_INBOX_BATCHES - length LIST_IDS) with 0 by lia.
    rewrite firstn_O, app_nil_r. apply firstn_map.
  - intros -> ->. subst tail. cbn [length Nat.ltb Nat.leb andb negb].
    rewrite length_app, length_map. f_equal.
    induction fetchedCampaignIds as [|c cs IH]; [reflexivity|].
    cbn [flat_map length]. rewrite length_app, length_map, IH. lia.
  - intros -> -> ->. subst tail. cbn [length Nat.ltb Nat.leb andb negb].
    replace (flat_map _ fetchedCampaignIds) with (@nil Filters);
      [now rewrite app_nil_r|].
    induction fetchedCampaignIds as [|c cs IH]; [reflexivity | exact IH].
Qed.

Lemma inbox_batches_shape_witness :
  cappedBatches 5 (filtersBatches ["l1"; "l2"; "l3"; "l4"; "l5"] [] [] [7; 8]%Z [1; 2]%Z)
  = map ByList (firstn 5 ["l1"; "l2"; "l3"; "l4"; "l5"]).
Proof.
  apply (inbox_batches_shape ["l1"; "l2"; "l3"; "l4"; "l5"] [] [] [7; 8]%Z [1; 2]%Z 5);
    [lia | cbn; lia].
Defined.

(** *** Thread validation *)

Lemma threadKey_inj t1 t2 : threadKey t1 = threadKey t2 -> t_thread_id t1 = t_thread_id t2.
Proof. unfold threadKey. intros H. cbn in H. now injection H. Qed.

Lemma validateThreads_facts seen rows :
  let kept := validateThreads seen rows in
  NoDup (map threadKey kept) /\
  (forall k, k ∈ map threadKey kept <-> k ∈ map threadKey rows /\ k ∉ seen) /\
  kept `sublist_of` rows.
Proof.
  cbv zeta. revert seen. induction rows as [|t ts IH]; intros seen.
  { cbn. split; [constructor|]. split; [| reflexivity].
    intros k. split; [intros H; inversion H | intros [H _]; inversion H]. }
  cbn [validateThreads map].
  destruct (bool_decide (threadKey t ∈ seen)) eqn:Hd; cbn [negb].
  - apply bool_decide_eq_true in Hd. destruct (IH seen) as (Hn & Hk & Hs).
    split; [exact Hn|]. split; [| now apply sublist_cons].
    intros k. rewrite Hk, elem_of_cons. split; [tauto|].
    intros [[-> | H] Hout]; [contradiction | tauto].
  - apply bool_decide_eq_false in Hd.
    destruct (IH ({[threadKey t]} ∪ seen)) as (Hn & Hk & Hs). cbn [map].
    split; [| split; [| now apply sublist_skip]].
    + constructor; [| exact Hn]. rewrite Hk. intros [_ Hout]. apply Hout.
      apply elem_of_union_l, elem_of_singleton. reflexivity.
    + intros k. rewrite !elem_of_cons, Hk, not_elem_of_union, not_elem_of_singleton.
      destruct (decide (k = threadKey t)) as [-> | Hne]; [tauto|]. tauto.
Qed.

(** X9 -- The validation pass over the thread rows keeps, in order, the
    first row of every thread id and drops every later row of the same id,
    whoever the person of that row is: the ids kept are distinct and are
    exactly the ids met. *)
Theorem validatedThreads_by_thread_id (st : RunState) :
  NoDup (map t_thread_id (validatedThreads st)) /\
  (forall id, id ∈ map t_thread_id (validatedThreads st)
              <-> id ∈ map t_thread_id (threadRows st)) /\
  validatedThreads st `sublist_of` threadRows st /\
  (forall t1 t2 rest,
      threadRows st = t1 :: t2 :: rest -> t_thread_id t1 = t_thread_id t2 ->
      validatedThreads st = validateThreads ∅ (t1 :: rest)).
Proof.
  unfold validatedThreads.
  destruct (validateThreads_facts ∅ (threadRows st)) as (Hn & Hk & Hs).
  assert (forall l : list ThreadRow, map threadKey l = map (String.append "undefined-")
                                                       (map t_thread_id l)) as Hmap.
  { intros l. now rewrite map_map. }
  assert (forall a b : string, "undefined-" +:+ a = "undefined-" +:+ b -> a = b) as Hinj.
  { intros a b H. cbn in H. now injection H. }
  split; [| split; [| split; [exact Hs|]]].
  - rewrite Hmap in Hn. apply NoDup_fmap_1 in Hn. exact Hn.
  - intros id. specialize (Hk ("undefined-" +:+ id)). rewrite !Hmap in Hk.
    split; intros H.
    + apply (list_elem_of_fmap_2 (String.append "undefined-")) in H.
      apply Hk in H as [H _]. apply list_elem_of_fmap in H as (y & Hy & Hin).
      apply Hinj in Hy. now subst y.
    + apply (list_elem_of_fmap_2 (String.append "undefined-")) in H.
      pose proof (proj2 Hk (conj H (not_elem_of_empty _))) as H'.
      apply list_elem_of_fmap in H' as (y & Hy & Hin). apply Hinj in Hy. now subst y.
  - intros t1 t2 rest -> Hid. cbn [validateThreads].
    rewrite bool_decide_eq_false_2 by apply not_elem_of_empty. cbn [negb].
    assert (threadKey t2 = threadKey t1) as -> by (unfold threadKey; now rewrite Hid).
    rewrite bool_decide_eq_true_2
      by (apply elem_of_union_l, elem_of_singleton; reflexivity).
    reflexivity.
Qed.

Lemma validatedThreads_by_thread_id_witness :
  let t url := {| t_person_match_linkedin_url := url; t_thread_id := "t-1";
                  t_campaign_id := ""; t_first_message_at := ""; t_last_message_at := "";
                  t_total_messages := 0; t_last_message_text := ""; t_last_sender := "";
                  t_last_direction := ""; t_last_channel := "dm";
                  t_message_count_sent := 0; t_message_count_received := 0;
                  t_messages := [] |} in
  let st := {| threads := ∅; peopleByUrl := ∅; peopleRows := [];
               threadRows := [t "https://www.linkedin.com/in/a";
                              t "https://www.linkedin.com/in/b"];
               messageRows := [] |} in
  validatedThreads st = [t "https://www.linkedin.com/in/a"].
Proof.
  intros t st.
  rewrite (proj2 (proj2 (proj2 (validatedThreads_by_thread_id st)))
             (t "https://www.linkedin.com/in/a") (t "https://www.linkedin.com/in/b") []
             eq_refl eq_refl).
  vm_compute. reflexivity.
Defined.

(** *** Creating a person *)

Lemma create_sends_name_and_url_only_aux2 row :
  Js.truthy (linkedin_url row) = true ->
  ("linkedin_url_6", TextValue (linkedin_url row)) ∈ directValues row.
Proof.
  intros Ht. unfold directValues. rewrite Ht. apply elem_of_app. right.
  apply elem_of_app. right. left.
Qed.

(** X10 -- The create request for a person carries the name, the
    LinkedIn handle and the profile URL only: it never carries the job
    title, the company name or the lead id, however the row is filled; and
    a row with a LinkedIn URL always carries that URL as [linkedin_url_6]. *)
Theorem create_sends_name_and_url_only (row : PersonRow) :
  (forall k, k ∈ keys (directValues row) -> k ∈ ["name"; "linkedin"; "linkedin_url_6"]) /\
  ("job_title_5" ∉ keys (directValues row)) /\
  ("company_name" ∉ keys (directValues row)) /\
  ("heyreach_lead_id" ∉ keys (directValues row)) /\
  (Js.truthy (linkedin_url row) = true ->
   ("linkedin_url_6", TextValue (linkedin_url row)) ∈ directValues row).
Proof.
  destruct (directValues_keys row) as (nk & hk & Hk & Hn & Hh).
  assert (forall k, k ∈ keys (directValues row) -> k ∈ ["name"; "linkedin"; "linkedin_url_6"])
    as Hsub.
  { intros k. rewrite Hk, elem_of_app. intros [H | H].
    - destruct Hn as [-> | ->]; [inversion H|]. apply list_elem_of_singleton in H as ->. left.
    - destruct (Js.truthy (linkedin_url row)); [| inversion H].
      apply elem_of_app in H as [H | H].
      + destruct Hh as [-> | ->]; [inversion H|].
        apply list_elem_of_singleton in H as ->. right. left.
      + apply list_elem_of_singleton in H as ->. right. right. left. }
  split; [exact Hsub|].
  assert (forall k, k ∉ ["name"; "linkedin"; "linkedin_url_6"] ->
                    k ∉ keys (directValues row)) as Hnot by (intros k Hk' Hin; auto).
  split; [| split; [| split]]; try (apply Hnot; intros H;
    repeat (apply elem_of_cons in H as [H | H]; [discriminate H|]); inversion H).
  intros Ht. unfold directValues. rewrite Ht. apply elem_of_app. right.
  apply elem_of_app. right. left.
Qed.

Lemma create_sends_name_and_url_only_witness :
  ("linkedin_url_6", TextValue "https://www.linkedin.com/in/jane-doe")
  ∈ directValues filledRow.
Proof.
  exact (proj2 (proj2 (proj2 (proj2 (create_sends_name_and_url_only filledRow)))) eq_refl).
Defined.

(** X11 -- Creating a person and reconciling the same row again is not
    idempotent: when the Sink holds what the create request carried, a row
    with a job title (or a company name) gets a non-empty change set on the
    next reconciliation, holding that field, so the row is not reported
    unchanged. *)
Theorem created_person_is_patched_next (row : PersonRow) (recordId : string)
    (answers : PatchAnswers) :
  Js.truthy (job_title row) = true \/ Js.truthy (company_name row) = true ->
  let record := applyPatch blankRecord (directValues row) in
  (Js.truthy (job_title row) = true ->
   "job_title_5" ∈ keys (detectChanges (extractCurrentValues record) row)) /\
  (Js.truthy (company_name row) = true ->
   "company_name" ∈ keys (detectChanges (extractCurrentValues record) row)) /\
  fst (reconcileExisting recordId record row answers) <> unchanged.
Proof.
  intros Hrow record.
  destruct (create_sends_name_and_url_only_aux row) as (Hj & Hc).
  destruct (applyPatch_untouched (directValues row) blankRecord Hj Hc) as [Ej Ec].
  fold record in Ej, Ec. cbn [blankRecord v_job_title_5 v_company_name] in Ej, Ec.
  assert (Js.truthy (job_title row) = true ->
          "job_title_5" ∈ keys (detectChanges (extractCurrentValues record) row)) as H1.
  { intros Ht. apply detectChanges_key_iff. right. left. split; [| reflexivity].
    split; [exact Ht|]. unfold extractCurrentValues. cbn [cur_job_title]. rewrite Ej.
    discriminate. }
  assert (Js.truthy (company_name row) = true ->
          "company_name" ∈ keys (detectChanges (extractCurrentValues record) row)) as H2.
  { intros Ht. apply detectChanges_key_iff. right. right. left. split; [| reflexivity].
    split; [exact Ht|]. unfold extractCurrentValues. cbn [cur_company_name]. rewrite Ec.
    discriminate. }
  split; [exact H1|]. split; [exact H2|].
  destruct (reconcileExisting_cases recordId record row answers)
    as [[Hnil _] | [_ [[-> _] | [-> | ->]]]]; try discriminate.
  destruct Hrow as [Ht | Ht]; [apply H1 in Ht | apply H2 in Ht];
    rewrite Hnil in Ht; inversion Ht.
Qed.

Lemma created_person_is_patched_next_witness :
  "job_title_5"
  ∈ keys (detectChanges
            (extractCurrentValues (applyPatch blankRecord (directValues filledRow)))
            filledRow) /\
  fst (reconcileExisting "rec-1" (applyPatch blankRecord (directValues filledRow))
         filledRow {| onEnsureIds := Ok2xx tt; onPatch := Ok2xx tt |}) <> unchanged.
Proof.
  pose proof (created_person_is_patched_next filledRow "rec-1"
                {| onEnsureIds := Ok2xx tt; onPatch := Ok2xx tt |}
                (or_introl eq_refl)) as (H1 & _ & H3).
  split; [exact (H1 eq_refl) | exact H3].
Defined.

Lemma synthetic_slug id :
  matchLinkedinSlug ("https://www.linkedin.com/in/conversation-" +:+ id)
  = Some ("conversation-" +:+ takeSlug id).
Proof. reflexivity. Qed.

Lemma startsWithNoCase_app p s : startsWithNoCase p (p +:+ s) = true.
Proof.
  induction p as [|c p IH]; [reflexivity|].
  change (String c p +:+ s) with (String c (p +:+ s)). cbn [startsWithNoCase].
  now rewrite Ascii.eqb_refl.
Qed.

(** X12 -- A person whose key is the synthetic conversation URL is created
    without the system LinkedIn handle: for every conversation without a
    profile URL, whatever its id, the create request of its person row has
    no [linkedin] value and carries the synthetic URL as
    [linkedin_url_6]. *)
Theorem synthetic_key_sets_no_handle (api : UrlApi) (conv : Conversation) :
  hasNoProfileUrl conv ->
  let row := personRowOf api conv in
  ("linkedin" ∉ keys (directValues row)) /\
  ("linkedin_url_6",
   TextValue ("https://www.linkedin.com/in/conversation-" +:+ convIdOf conv))
  ∈ directValues row.
Proof.
  intros Hno row.
  assert (linkedin_url row = "https://www.linkedin.com/in/conversation-" +:+ convIdOf conv)
    as Hurl by (apply (liUrlOf_fallback api conv Hno)).
  assert (Js.truthy (linkedin_url row) = true) as Ht by (now rewrite Hurl).
  split.
  - destruct (directValues_keys row) as (nk & hk & Hk & Hn & _).
    unfold directValues, keys. rewrite Ht, Hurl, synthetic_slug, startsWithNoCase_app.
    cbn [negb app]. rewrite map_app. intros H. apply elem_of_app in H as [H | H].
    + destruct (_ || _); [apply list_elem_of_singleton in H; discriminate H|].
      destruct (Js.truthy (full_name row)); [| inversion H].
      apply list_elem_of_singleton in H; discriminate H.
    + apply list_elem_of_singleton in H; discriminate H.
  - rewrite <- Hurl. now apply create_sends_name_and_url_only_aux2.
Qed.

Lemma synthetic_key_sets_no_handle_witness :
  "linkedin" ∉ keys (directValues (personRowOf SimpleUrl.api anonymousConversation)).
Proof.
  exact (proj1 (synthetic_key_sets_no_handle SimpleUrl.api anonymousConversation eq_refl)).
Defined.

(** *** Configuration *)

Lemma splitOn_commaFree p : commaFree p = true -> splitOn "," p = [p].
Proof.
  induction p as [|c p IH]; [reflexivity|]. cbn [commaFree splitOn].
  intros H. apply andb_true_iff in H as [Hc Hp]. apply negb_true_iff in Hc.
  now rewrite Hc, (IH Hp).
Qed.

Lemma splitOn_app_commaFree p s :
  commaFree p = true -> splitOn "," (p +:+ "," +:+ s) = p :: splitOn "," s.
Proof.
  induction p as [|c p IH]; [reflexivity|]. cbn [commaFree].
  intros H. apply andb_true_iff in H as [Hc Hp]. apply negb_true_iff in Hc.
  change (String c p +:+ "," +:+ s) with (String c (p +:+ "," +:+ s)).
  cbn [splitOn]. now rewrite Hc, (IH Hp).
Qed.

Lemma splitOn_join ids :
  ids <> [] -> Forall (fun id => commaFree id = true) ids ->
  splitOn "," (Js.join "," ids) = ids.
Proof.
  induction ids as [|p rest IH]; [congruence|]. intros _ H.
  apply Forall_cons in H as [Hp Hrest]. destruct rest as [|q rest].
  - now apply splitOn_commaFree.
  - change (Js.join "," (p :: q :: rest)) with (p +:+ "," +:+ Js.join "," (q :: rest)).
    rewrite (splitOn_app_commaFree _ _ Hp). f_equal. now apply IH.
Qed.

(** X13 -- The configured list ids: every id read from [HR_LIST_IDS] is
    non-empty and carries no white space around it, whatever the variable
    holds; and ids that are non-empty, trimmed and free of commas are read
    back, in order, from their comma-separated list. *)
Theorem parseListIds_round_trip (ids : list string) :
  Forall cleanId ids ->
  parseListIds (Some (Js.join "," ids)) = ids /\
  (forall env id, id ∈ parseListIds env -> Js.truthy id = true /\ Js.trim id = id).
Proof.
  intros Hclean. split.
  - unfold parseListIds. destruct ids as [|p rest]; [reflexivity|].
    assert (Js.orOpt (Some (Js.join "," (p :: rest))) "" = Js.join "," (p :: rest)) as ->.
    { unfold Js.orOpt, Js.or. now destruct (Js.join "," (p :: rest)). }
    rewrite splitOn_join; [| discriminate |].
    + induction Hclean as [|id ids' (Ht & Htrim & _) _ IH]; [reflexivity|].
      cbn [map]. rewrite filter_cons_True by (now rewrite Htrim).
      rewrite Htrim. now f_equal.
    + eapply Forall_impl; [exact Hclean|]. now intros id (_ & _ & H).
  - intros env id Hin. unfold parseListIds in Hin.
    apply list_elem_of_filter in Hin as [Ht Hin]. split; [exact Ht|].
    apply list_elem_of_fmap in Hin as (s & -> & _). apply trim_idem.
Qed.

Lemma parseListIds_round_trip_witness :
  parseListIds (Some "12345,67890") = ["12345"; "67890"].
Proof.
  apply (parseListIds_round_trip ["12345"; "67890"]).
  repeat constructor.
Defined.

Lemma stripTrailingSlashes_app_slash s :
  stripTrailingSlashes (s +:+ "/") = stripTrailingSlashes s.
Proof.
  induction s as [|c s IH]; [reflexivity|].
  change (String c s +:+ "/") with (String c (s +:+ "/")).
  cbn [stripTrailingSlashes]. now rewrite IH.
Qed.

Lemma stripTrailingSlashes_no_slash s :
  Js.endsWithChar "/" (stripTrailingSlashes s) = false.
Proof.
  induction s as [|c s IH]; [reflexivity|]. cbn [stripTrailingSlashes].
  destruct (stripTrailingSlashes s) as [|a t] eqn:E.
  - destruct (Ascii.eqb c "/") eqn:Ec; [reflexivity|].
    cbn. rewrite Ascii.eqb_sym. exact Ec.
  - exact IH.
Qed.

(** X14 -- The base URL of the Source never ends with a slash, and
    slashes written at the end of [HR_API_BASE] make no difference: the
    base and the lead URL derived from it are the same with and without
    them, and the derived lead URL is the base followed by [/leads]. *)
Theorem API_BASE_trailing_slashes (base : string) :
  Js.endsWithChar "/" (API_BASE (Some base)) = false /\
  API_BASE (Some (base +:+ "/")) = API_BASE (Some base) /\
  URL_LEADS None (Some (base +:+ "/")) = URL_LEADS None (Some base) /\
  (Js.truthy (API_BASE (Some base)) = true ->
   URL_LEADS None (Some base) = API_BASE (Some base) +:+ "/leads").
Proof.
  assert (forall s, API_BASE (Some s) = stripTrailingSlashes s) as Hbase.
  { intros s. unfold API_BASE, Js.orOpt, Js.or. now destruct s. }
  assert (API_BASE (Some (base +:+ "/")) = API_BASE (Some base)) as Heq.
  { now rewrite !Hbase, stripTrailingSlashes_app_slash. }
  split; [rewrite Hbase; apply stripTrailingSlashes_no_slash|].
  split; [exact Heq|]. split.
  - unfold URL_LEADS. now rewrite Heq.
  - intros Ht. unfold URL_LEADS. rewrite Ht. reflexivity.
Qed.

Lemma API_BASE_trailing_slashes_witness :
  URL_LEADS None (Some "https://api.heyreach.io/api/public/")
  = "https://api.heyreach.io/api/public/leads".
Proof.
  etrans;
    [exact (proj1 (proj2 (proj2
              (API_BASE_trailing_slashes "https://api.heyreach.io/api/public"))))|].
  exact (proj2 (proj2 (proj2
           (API_BASE_trailing_slashes "https://api.heyreach.io/api/public"))) eq_refl).
Defined.

(** *** Watermarks across runs *)

Lemma string_compare_refl s : String.compare s s = Eq.
Proof.
  induction s as [|c s IH]; [reflexivity|]. cbn [String.compare].
  unfold Ascii.compare. now rewrite N.compare_refl.
Qed.

Lemma string_leb_refl s : String.leb s s = true.
Proof. unfold String.leb. now rewrite string_compare_refl. Qed.

Lemma string_leb_trans a b c :
  String.leb a b = true -> String.leb b c = true -> String.leb a c = true.
Proof.
  unfold String.leb. revert b c.
  induction a as [|x a IH]; intros [|y b] [|z c]; cbn [String.compare];
    try easy.
  unfold Ascii.compare.
  destruct (N.compare_spec (N_of_ascii x) (N_of_ascii y)) as [E1 | L1 | G1];
    destruct (N.compare_spec (N_of_ascii y) (N_of_ascii z)) as [E2 | L2 | G2];
    destruct (N.compare_spec (N_of_ascii x) (N_of_ascii z)) as [E3 | L3 | G3];
    try easy; try lia.
  apply IH.
Qed.

Lemma geb_refl s : Js.geb s s = true.
Proof. apply string_leb_refl. Qed.

Lemma geb_trans a b c :
  Js.geb a b = true -> Js.geb b c = true -> Js.geb a c = true.
Proof. unfold Js.geb. intros H1 H2. exact (string_leb_trans _ _ _ H2 H1). Qed.

Lemma processConversation_monotone api now st conv id w :
  threads st !! id = Some w ->
  exists w', threads (processConversation api now true st conv) !! id = Some w' /\
             Js.geb (last_message_at w') (last_message_at w) = true.
Proof.
  intros Hw. unfold processConversation.
  destruct (skipUnchanged true (threads st) (convIdOf conv) (lastAtOf conv)) eqn:E.
  - exists w. split; [exact Hw | apply geb_refl].
  - cbn [threads]. destruct (decide (convIdOf conv = id)) as [Heq | Hne].
    + subst id. rewrite lookup_insert_eq. eexists. split; [reflexivity|].
      cbn [last_message_at]. unfold skipUnchanged in E. rewrite Hw in E.
      cbn [andb] in E. unfold Js.geb in *.
      destruct (String.leb_total (lastAtOf conv) (last_message_at w)) as [H | H];
        [congruence | exact H].
    + rewrite lookup_insert_ne by exact Hne. exists w. split; [exact Hw | apply geb_refl].
Qed.

Lemma incremental_watermark_monotone_aux api now st items id w :
  threads st !! id = Some w ->
  exists w', threads (processItems api now true st items) !! id = Some w' /\
             Js.geb (last_message_at w') (last_message_at w) = true.
Proof.
  revert st w. induction items as [|c cs IH]; intros st w Hw.
  - exists w. split; [exact Hw | apply geb_refl].
  - destruct (processConversation_monotone api now st c id w Hw) as (w1 & H1 & G1).
    destruct (IH _ _ H1) as (w2 & H2 & G2).
    exists w2. split; [exact H2 | exact (geb_trans _ _ _ G2 G1)].
Qed.



Lemma processConversation_covers api now inc st conv :
  covered (threads (processConversation api now inc st conv)) conv.
Proof.
  unfold processConversation, covered.
  destruct (skipUnchanged inc (threads st) (convIdOf conv) (lastAtOf conv)) eqn:E.
  - unfold skipUnchanged in E. apply andb_true_iff in E as [_ E].
    destruct (threads st !! convIdOf conv) as [w|]; [| discriminate E].
    now exists w.
  - cbn [threads]. rewrite lookup_insert_eq. eexists. split; [reflexivity|].
    apply geb_refl.
Qed.

Lemma processItems_keeps_covered api now inc rest st conv :
  inc = true \/ convIdOf conv ∉ map convIdOf rest ->
  covered (threads st) conv ->
  covered (threads (processItems api now inc st rest)) conv.
Proof.
  intros [-> | Hout] (w & Hw & Hg).
  - destruct (incremental_watermark_monotone_aux api now st rest _ _ Hw) as (w' & Hw' & Hg').
    exists w'. split; [exact Hw' | exact (geb_trans _ _ _ Hg' Hg)].
  - revert st Hw. induction rest as [|c cs IH]; intros st Hw; [now exists w|].
    apply not_elem_of_cons in Hout as [Hne Hout].
    apply (IH Hout). unfold processConversation.
    destruct (skipUnchanged _ _ _ _); [exact Hw|]. cbn [threads].
    rewrite lookup_insert_ne by congruence. exact Hw.
Qed.

Lemma processItems_covers api now inc items :
  inc = true \/ NoDup (map convIdOf items) ->
  forall st conv, conv ∈ items ->
  covered (threads (processItems api now inc st items)) conv.
Proof.
  induction items as [|c cs IH]; intros Hcond st conv Hin; [inversion Hin|].
  change (processItems api now inc st (c :: cs))
    with (processItems api now inc (processConversation api now inc st c) cs).
  apply elem_of_cons in Hin as [-> | Hin].
  - apply processItems_keeps_covered; [| apply processConversation_covers].
    destruct Hcond as [H | H]; [now left | right].
    cbn [map] in H. now apply NoDup_cons in H as [H _].
  - apply IH; [| exact Hin]. destruct Hcond as [H | H]; [now left | right].
    cbn [map] in H. now apply NoDup_cons in H as [_ H].
Qed.

Lemma processItems_all_covered api now items st :
  (forall conv, conv ∈ items -> covered (threads st) conv) ->
  processItems api now true st items = st.
Proof.
  induction items as [|c cs IH]; intros Hall; [reflexivity|].
  change (processItems api now true st (c :: cs))
    with (processItems api now true (processConversation api now true st c) cs).
  assert (processConversation api now true st c = st) as ->.
  { destruct (Hall c) as (w & Hw & Hg); [left|].
    unfold processConversation, skipUnchanged. now rewrite Hw, Hg. }
  apply IH. intros conv Hin. apply Hall. now right.
Qed.

(** X16 -- An incremental run over conversations that a previous run has
    processed emits nothing, when no conversation has the id [__proto__]
    (or the state file already held that key): with the watermarks that
    the first run writes to the state file, a second, incremental run over
    the same conversations pushes no person, thread or message row and
    leaves the watermarks as they are.  The first run may be incremental; a
    full first run needs conversation ids that are distinct.  The watermark
    of a conversation whose id is [__proto__] does not reach the state file
    when the file did not hold that key: the second run finds none and
    processes the conversation again. *)
Theorem incremental_rerun_emits_nothing (api : UrlApi) (now now' : string)
    (incremental : bool) (ths : gmap string Watermark) (items : list Conversation) :
  incremental = true \/ NoDup (map convIdOf items) ->
  let saved := persisted ths
                 (threads (processItems api now incremental (initialState ths) items)) in
  (is_Some (ths !! "__proto__")
   \/ (forall conv, conv ∈ items -> convIdOf conv <> "__proto__") ->
   processItems api now' true (initialState saved) items = initialState saved) /\
  (forall conv, ths !! "__proto__" = None -> convIdOf conv = "__proto__" ->
     saved !! "__proto__" = None /\
     threadRows (processConversation api now' true (initialState saved) conv)
     = [threadRowOf api conv]).
Proof.
  intros Hcond saved. split.
  - intros Hkept. apply processItems_all_covered. intros conv Hin.
    pose proof (processItems_covers api now incremental items Hcond (initialState ths) conv Hin)
      as (w & Hw & Hg).
    exists w. split; [| exact Hg]. cbn [threads initialState]. unfold saved, persisted.
    destruct Hkept as [Hheld | Hnone].
    + rewrite bool_decide_eq_true_2 by exact Hheld. exact Hw.
    + destruct (bool_decide (is_Some (ths !! "__proto__"))); [exact Hw|].
      rewrite lookup_delete_ne by (intros Heq; exact (Hnone conv Hin (eq_sym Heq))).
      exact Hw.
  - intros conv Hnone Hid.
    assert (saved !! "__proto__" = None) as Hlost.
    { unfold saved, persisted. rewrite bool_decide_eq_false_2.
      - apply lookup_delete_eq.
      - rewrite Hnone. intros [w Hw]. discriminate Hw. }
    split; [exact Hlost|].
    unfold processConversation, skipUnchanged. cbn [threads initialState].
    rewrite Hid, Hlost. reflexivity.
Qed.

Lemma incremental_rerun_emits_nothing_witness :
  let saved := persisted ∅
                 (threads (processItems SimpleUrl.api "2024-05-03T00:00:00Z" false
                             (initialState ∅) [exampleConversation; anonymousConversation])) in
  processItems SimpleUrl.api "2024-06-01T00:00:00Z" true (initialState saved)
    [exampleConversation; anonymousConversation] = initialState saved.
Proof.
  apply (proj1 (incremental_rerun_emits_nothing SimpleUrl.api "2024-05-03T00:00:00Z"
                  "2024-06-01T00:00:00Z" false ∅ [exampleConversation; anonymousConversation]
                  (or_intror (NoDup_cons_2 "t-1" ["t-42"]
                     (fun H => match proj1 (list_elem_of_singleton "t-1" "t-42") H in _ = y
                                     return (if String.eqb y "t-42" then False else True)
                               with eq_refl => I end)
                     (NoDup_singleton "t-42"))))).
  right. intros conv Hin.
  apply elem_of_cons in Hin as [-> | Hin]; [discriminate|].
  apply list_elem_of_singleton in Hin as ->. discriminate.
Defined.

(** *** The rows of one inbox run *)

Lemma processConversation_linked api now inc st conv :
  peopleConsistent st -> rowsLinked st ->
  rowsLinked (processConversation api now inc st conv).
Proof.
  intros (_ & Hset & _) (Ht & Hm). unfold processConversation.
  destruct (skipUnchanged _ _ _ _); [now split|].
  rewrite liUrlOf_truthy. cbn [andb].
  assert (forall k, k ∈ map linkedin_url (peopleRows st) ->
                    k ∈ map linkedin_url
                          (if negb (bool_decide (liUrlOf api conv ∈ peopleByUrl st))
                           then peopleRows st ++ [personRowOf api conv]
                           else peopleRows st)) as Hgrow.
  { intros k Hk. destruct (negb _); [| exact Hk]. rewrite map_app. apply elem_of_app. now left. }
  split; cbn [threadRows peopleRows messageRows].
  - intros t Hin. apply elem_of_app in Hin as [Hin | Hin]; [apply Hgrow, Ht, Hin|].
    apply list_elem_of_singleton in Hin as ->. cbn [threadRowOf t_person_match_linkedin_url].
    destruct (bool_decide (liUrlOf api conv ∈ peopleByUrl st)) eqn:Hd; cbn [negb].
    + apply bool_decide_eq_true in Hd. now apply Hset.
    + rewrite map_app. apply elem_of_app. right. left.
  - intros m Hin. apply elem_of_app in Hin as [Hin | Hin].
    + destruct (Hm m Hin) as (t & H1 & H2). exists t. split; [| exact H2].
      apply elem_of_app. now left.
    + apply list_elem_of_fmap in Hin as (r & -> & Hr). exists (threadRowOf api conv).
      split; [apply elem_of_app; right; left|]. now repeat split.
Qed.

Lemma processItems_linked api now inc items st :
  peopleConsistent st -> rowsLinked st ->
  rowsLinked (processItems api now inc st items).
Proof.
  revert st. induction items as [|c cs IH]; intros st Hc Hl; [exact Hl|].
  apply IH; [now apply processConversation_consistent | now apply processConversation_linked].
Qed.

(** X17 -- The rows of an inbox run refer to one another, whatever the
    Source returns: the key of every thread row is the key of a validated
    person row of the same run (so its person is upserted before the
    thread), and every message row carries the thread id and the key of a
    thread row of the run that holds its raw message. *)
Theorem inbox_rows_reference_people (api : UrlApi) (now : string) (incremental : bool)
    (ths : gmap string Watermark) (items : list Conversation) :
  let st := processItems api now incremental (initialState ths) items in
  (forall t, t ∈ threadRows st ->
             t_person_match_linkedin_url t ∈ map linkedin_url (validatedPeople st)) /\
  (forall m, m ∈ messageRows st ->
             exists t, t ∈ threadRows st /\
                       thread_id m = t_thread_id t /\
                       person_match_linkedin_url m = t_person_match_linkedin_url t /\
                       raw m ∈ t_messages t).
Proof.
  intros st.
  assert (peopleConsistent st) as (Hnd & _ & Hall)
    by apply processItems_consistent, initialState_consistent.
  assert (rowsLinked st) as (Ht & Hm).
  { apply processItems_linked; [apply initialState_consistent|].
    split; intros x Hx; inversion Hx. }
  split; [| exact Hm]. unfold validatedPeople.
  rewrite validatePeople_id; [exact Ht | exact Hnd | exact Hall |].
  intros k _. apply not_elem_of_empty.
Qed.

Lemma inbox_rows_reference_people_witness :
  "https://www.linkedin.com/in/jane-doe" ∈ map linkedin_url (validatedPeople exampleRun).
Proof.
  apply (proj1 (inbox_rows_reference_people SimpleUrl.api "2024-05-03T00:00:00Z" false ∅
                  [exampleConversation])
           (threadRowOf SimpleUrl.api exampleConversation)).
  left.
Defined.

Lemma filter_isMe_split msgs :
  length (filter (fun m => isMe m = true) msgs)
  + length (filter (fun m => isMe m = false) msgs) = length msgs.
Proof.
  induction msgs as [|m ms IH]; [reflexivity|].
  rewrite !filter_cons. destruct (isMe m) eqn:E; repeat case_decide;
    cbn [length]; try congruence; lia.
Qed.

Lemma processConversation_counts api now inc st conv :
  countsAddUp st -> countsAddUp (processConversation api now inc st conv).
Proof.
  intros (Hlen & Hall). unfold processConversation.
  destruct (skipUnchanged _ _ _ _); [now split|].
  split; cbn [threadRows messageRows].
  - rewrite length_app, length_map, map_app, list_sum_app, Hlen.
    cbn [map threadRowOf t_messages].
    change (list_sum [length (messages conv)]) with (length (messages conv) + 0). lia.
  - apply Forall_app. split; [exact Hall|]. constructor; [| constructor].
    cbn [threadRowOf t_message_count_sent t_message_count_received t_messages].
    apply filter_isMe_split.
Qed.

(** X18 -- The counts of an inbox run add up, whatever the Source
    returns: every thread row counts each of its messages exactly once, as
    sent or as received, and the run emits exactly one message row for each
    message of each thread row. *)
Theorem inbox_counts_add_up (api : UrlApi) (now : string) (incremental : bool)
    (ths : gmap string Watermark) (items : list Conversation) :
  let st := processItems api now incremental (initialState ths) items in
  length (messageRows st)
  = list_sum (map (fun t => length (t_messages t)) (threadRows st)) /\
  Forall (fun t => t_message_count_sent t + t_message_count_received t
                   = length (t_messages t)) (threadRows st).
Proof.
  cbv zeta. unfold processItems.
  assert (countsAddUp (initialState ths)) as H0 by (split; [reflexivity | constructor]).
  revert H0. generalize (initialState ths).
  induction items as [|c cs IH]; intros st H; [exact H|].
  apply IH. now apply processConversation_counts.
Qed.

(** *** Creating the messages of the threads *)

Lemma upsertThread_blocked cfg ids acc thread :
  uniqueMessageUid (messageSink acc) = true ->
  blocked cfg ids (messageSink acc) thread ->
  upsertThread cfg ids acc thread = acc.
Proof.
  intros Hu Hb. unfold upsertThread, blocked in *.
  destruct (ids !! t_person_match_linkedin_url thread) as [personId|]; [| reflexivity].
  destruct (Js.truthy personId); cbn [negb]; [| reflexivity].
  destruct Hb as [Hb | Hb]; [discriminate Hb|].
  change (if (0 <? AT_LIMIT_MESSAGES cfg)%Z
          then lastN (Z.to_nat (AT_LIMIT_MESSAGES cfg)) (t_messages thread)
          else t_messages thread) with (limitedMessages cfg thread).
  destruct (limitedMessages cfg thread) as [|m rest]; [now destruct acc|].
  cbn [createMessages]. unfold sinkCreateMessage.
  cbn [messageValues mv_message_uid]. rewrite Hu, Hb. cbn [andb]. now destruct acc.
Qed.

Lemma holdsUid_extends uid a b :
  extends a b -> holdsUid uid (stored a) = true -> holdsUid uid (stored b) = true.
Proof.
  intros (_ & (rest & ->) & _) H. apply holdsUid_iff. apply holdsUid_iff in H.
  rewrite map_app. apply elem_of_app. now left.
Qed.

Lemma blocked_extends cfg ids a b thread :
  extends a b -> blocked cfg ids a thread -> blocked cfg ids b thread.
Proof.
  intros He. unfold blocked. destruct (ids !! _); [| tauto].
  intros [H | H]; [now left | right].
  destruct (limitedMessages cfg thread); [exact I|]. exact (holdsUid_extends _ _ _ He H).
Qed.

Lemma upsertThread_blocks cfg ids acc thread :
  blocked cfg ids (messageSink (upsertThread cfg ids acc thread)) thread.
Proof.
  unfold blocked, upsertThread.
  destruct (ids !! t_person_match_linkedin_url thread) as [personId|]; [| exact I].
  destruct (Js.truthy personId) eqn:Ht; cbn [negb]; [right | now left].
  change (if (0 <? AT_LIMIT_MESSAGES cfg)%Z
          then lastN (Z.to_nat (AT_LIMIT_MESSAGES cfg)) (t_messages thread)
          else t_messages thread) with (limitedMessages cfg thread).
  destruct (limitedMessages cfg thread) as [|m rest]; [exact I|].
  assert (holdsUid (message_uid (t_thread_id thread) m)
            (stored (snd (fst (createMessages personId thread (m :: rest) (messageSink acc) []
                                 (upsertedCount acc))))) = true) as H.
  { cbn [createMessages]. unfold sinkCreateMessage.
    cbn [messageValues mv_message_uid].
    destruct (uniqueMessageUid (messageSink acc)
              && holdsUid (message_uid (t_thread_id thread) m) (stored (messageSink acc)))
      eqn:E.
    - cbn [fst snd]. now apply andb_true_iff in E as [_ E].
    - eapply holdsUid_extends; [apply createMessages_extends|]. cbn [stored].
      apply holdsUid_iff. rewrite map_app. apply elem_of_app. right. left. }
  destruct (createMessages personId thread (m :: rest) (messageSink acc) []
              (upsertedCount acc)) as [[[created|] sink'] k]; exact H.
Qed.

Lemma upsertThreads_extends cfg ids rows acc :
  extends (messageSink acc) (messageSink (fold_left (upsertThread cfg ids) rows acc)).
Proof.
  revert acc. induction rows as [|r rs IH]; intros acc; [apply extends_refl|].
  cbn [fold_left]. eapply extends_trans; [apply upsertThread_extends | apply IH].
Qed.

Lemma upsertThreads_block cfg ids rows acc t :
  t ∈ rows ->
  blocked cfg ids (messageSink (fold_left (upsertThread cfg ids) rows acc)) t.
Proof.
  revert acc. induction rows as [|r rs IH]; intros acc Hin; [inversion Hin|].
  cbn [fold_left]. apply elem_of_cons in Hin as [-> | Hin]; [| now apply IH].
  apply (blocked_extends cfg ids (messageSink (upsertThread cfg ids acc r)));
    [apply upsertThreads_extends | apply upsertThread_blocks].
Qed.

Lemma upsertThreads_all_blocked cfg ids rows acc :
  uniqueMessageUid (messageSink acc) = true ->
  (forall t, t ∈ rows -> blocked cfg ids (messageSink acc) t) ->
  fold_left (upsertThread cfg ids) rows acc = acc.
Proof.
  intros Hu. induction rows as [|r rs IH]; intros Hall; [reflexivity|].
  cbn [fold_left]. rewrite upsertThread_blocked; [| exact Hu | apply Hall; left].
  apply IH. intros t Ht. apply Hall. now right.
Qed.

(** X19 -- With a Sink whose [message_uid] is unique, a thread whose first
    message to send is already stored gets nothing created: the create of
    that message is refused, which abandons the thread, so the messages
    after it are not sent either, whether they are stored or not; the
    count and the back-references stay as they are. *)
Theorem stored_first_message_blocks_thread (cfg : ThreadsConfig)
    (recordIdByUrl : gmap string string) (acc : ThreadsUpsert) (thread : ThreadRow)
    (m : RawMessage) (rest : list RawMessage) :
  uniqueMessageUid (messageSink acc) = true ->
  limitedMessages cfg thread = m :: rest ->
  holdsUid (message_uid (t_thread_id thread) m) (stored (messageSink acc)) = true ->
  upsertThread cfg recordIdByUrl acc thread = acc.
Proof.
  intros Hu Hl Hh. apply upsertThread_blocked; [exact Hu|].
  unfold blocked. destruct (recordIdByUrl !! _); [| exact I]. right. now rewrite Hl.
Qed.

Lemma stored_first_message_blocks_thread_witness :
  let sink := sinkAfterThreads liveConfig examplePeopleIds
                {| uniqueMessageUid := true; stored := [] |} [exampleThread] in
  let acc := {| messageSink := sink; upsertedCount := 0; messagesByPerson := [] |} in
  length (t_messages longerThread) = 3 /\
  upsertThread liveConfig examplePeopleIds acc longerThread = acc.
Proof.
  intros sink acc. split; [reflexivity|].
  exact (stored_first_message_blocks_thread liveConfig examplePeopleIds acc longerThread
           exampleMessage _ eq_refl eq_refl eq_refl).
Defined.

(** X20 -- With a Sink whose [message_uid] is unique, a second live
    upsert of the same thread rows changes nothing: it stores no message,
    returns the count 0 and sends no back-reference patch, whatever the
    first upsert managed to store. *)
Theorem second_threads_upsert_adds_nothing (cfg : ThreadsConfig)
    (recordIdByUrl : gmap string string) (sink : MessageStore)
    (threadRows : list ThreadRow) :
  uniqueMessageUid sink = true ->
  AT_DRY_RUN cfg = false ->
  let sink1 := sinkAfterThreads cfg recordIdByUrl sink threadRows in
  attioUpsertThreads cfg recordIdByUrl sink1 threadRows = (sink1, 0, []).
Proof.
  intros Hu Hdry sink1.
  assert (uniqueMessageUid sink1 = true) as Hu1.
  { destruct (sinkAfterThreads_extends cfg recordIdByUrl sink threadRows) as (H & _).
    fold sink1 in H. congruence. }
  unfold attioUpsertThreads at 1.
  destruct (Nat.eqb (length threadRows) 0) eqn:E0; [reflexivity|].
  destruct (AT_DISABLE_THREADS_UPSERT cfg) eqn:Ed; [reflexivity|]. rewrite Hdry.
  rewrite upsertThreads_all_blocked; [reflexivity | exact Hu1 |].
  intros t Ht. cbn [messageSink]. unfold sink1, sinkAfterThreads, attioUpsertThreads.
  rewrite E0, Ed, Hdry. cbn [fst]. now apply upsertThreads_block.
Qed.

Lemma second_threads_upsert_adds_nothing_witness :
  let sink1 := sinkAfterThreads liveConfig examplePeopleIds
                 {| uniqueMessageUid := true; stored := [] |} [longerThread] in
  length (stored sink1) = 3 /\
  attioUpsertThreads liveConfig examplePeopleIds sink1 [longerThread] = (sink1, 0, []).
Proof.
  intros sink1. split; [reflexivity|].
  exact (second_threads_upsert_adds_nothing liveConfig examplePeopleIds
           {| uniqueMessageUid := true; stored := [] |} [longerThread] eq_refl eq_refl).
Defined.

Lemma lastN_subset {A} n (l : list A) x : x ∈ lastN n l -> x ∈ l.
Proof.
  unfold lastN. intros H. rewrite <- (firstn_skipn (length l - n) l).
  apply elem_of_app. now right.
Qed.

Lemma limitedMessages_subset cfg thread m :
  m ∈ limitedMessages cfg thread -> m ∈ t_messages thread.
Proof.
  unfold limitedMessages. destruct (0 <? AT_LIMIT_MESSAGES cfg)%Z; [apply lastN_subset | tauto].
Qed.

Lemma createMessages_facts personId thread limited sink ids n :
  exists added,
    stored (snd (fst (createMessages personId thread limited sink ids n)))
    = stored sink ++ added /\
    snd (createMessages personId thread limited sink ids n) = n + length added /\
    Forall (fun v => exists m, m ∈ limited /\ v = messageValues personId thread m) added /\
    (forall ids', fst (fst (createMessages personId thread limited sink ids n)) = Some ids' ->
                  ids' = ids ++ seq (length (stored sink)) (length added)).
Proof.
  revert sink ids n. induction limited as [|m rest IH]; intros sink ids n.
  - exists []. cbn. rewrite !app_nil_r. repeat split; [lia | constructor | congruence].
  - cbn [createMessages]. unfold sinkCreateMessage.
    destruct (uniqueMessageUid sink && holdsUid _ (stored sink)).
    + exists []. cbn. rewrite app_nil_r. repeat split; [lia | constructor | discriminate].
    + match goal with |- context [createMessages _ _ rest ?s ?i ?k] =>
        destruct (IH s i k) as (added & Hs & Hn & Hall & Hids) end.
      cbn [stored] in Hs, Hids.
      exists (messageValues personId thread m :: added). split; [| split; [| split]].
      * rewrite Hs, <- app_assoc. reflexivity.
      * rewrite Hn. cbn [length]. lia.
      * constructor; [exists m; split; [left | reflexivity] |].
        eapply Forall_impl; [exact Hall|]. intros v (m' & Hin & ->).
        exists m'. split; [now right | reflexivity].
      * intros ids' H. rewrite (Hids ids' H), <- app_assoc, length_app.
        cbn [length app seq]. now replace (length (stored sink) + 1) with (S (length (stored sink))) by lia.
Qed.

Lemma trackMessages_keys personId ids m q :
  q ∈ map fst (trackMessages personId ids m) -> q ∈ map fst m \/ q = personId.
Proof.
  induction m as [|[p l] rest IH]; cbn [trackMessages map fst]; intros Hq.
  - apply list_elem_of_singleton in Hq. now right.
  - destruct (String.eqb p personId); cbn [map fst] in Hq; [now left|].
    apply elem_of_cons in Hq as [-> | Hq]; [left; left|].
    destruct (IH Hq) as [H | H]; [left; now right | now right].
Qed.

Lemma trackMessages_persons personId ids m :
  NoDup (map fst m) -> NoDup (map fst (trackMessages personId ids m)).
Proof.
  induction m as [|[p l] rest IH]; cbn [trackMessages map fst]; intros Hnd.
  - apply NoDup_singleton.
  - apply NoDup_cons in Hnd as [Hp Hnd].
    destruct (String.eqb p personId) eqn:E; cbn [map fst].
    + apply NoDup_cons. now split.
    + apply NoDup_cons. split; [| now apply IH].
      intros Hq. apply trackMessages_keys in Hq as [H | H]; [contradiction|].
      apply String.eqb_neq in E. contradiction.
Qed.

Lemma trackMessages_entries personId ids m q l :
  (q, l) ∈ trackMessages personId ids m ->
  (q, l) ∈ m \/
  (q = personId /\ (l = ids \/ exists l0, (q, l0) ∈ m /\ l = l0 ++ ids)).
Proof.
  induction m as [|[p l'] rest IH]; cbn [trackMessages]; intros H.
  - apply list_elem_of_singleton in H. injection H as -> ->. right. split; [reflexivity | now left].
  - destruct (String.eqb p personId) eqn:E.
    + apply String.eqb_eq in E. subst p.
      apply elem_of_cons in H as [H | H].
      * injection H as -> ->. right. split; [reflexivity|]. right.
        exists l'. split; [left | reflexivity].
      * left. now right.
    + apply elem_of_cons in H as [H | H]; [left; rewrite H; left|].
      destruct (IH H) as [H' | (-> & [-> | (l0 & H1 & ->)])].
      * left. now right.
      * right. split; [reflexivity | now left].
      * right. split; [reflexivity|]. right. exists l0. split; [now right | reflexivity].
Qed.

Lemma upsertThread_invariant cfg ids rows before acc thread :
  thread ∈ rows ->
  threadsInvariant ids rows before acc ->
  threadsInvariant ids rows before (upsertThread cfg ids acc thread).
Proof.
  intros Hin Hinv. unfold upsertThread.
  destruct (ids !! t_person_match_linkedin_url thread) as [personId|] eqn:Hp; [| exact Hinv].
  destruct (negb (Js.truthy personId)); [exact Hinv|].
  change (if (0 <? AT_LIMIT_MESSAGES cfg)%Z
          then lastN (Z.to_nat (AT_LIMIT_MESSAGES cfg)) (t_messages thread)
          else t_messages thread) with (limitedMessages cfg thread).
  destruct Hinv as ((added & Hs & Hn & Hall) & Hnd & Hlinks).
  destruct (createMessages_facts personId thread (limitedMessages cfg thread)
              (messageSink acc) [] (upsertedCount acc)) as (new & Hs' & Hn' & Hall' & Hids).
  assert (Forall (addedBy ids rows) new) as Hnew.
  { eapply Forall_impl; [exact Hall'|]. intros v (m & Hm & ->).
    exists thread, m. repeat split;
      [exact Hin | now apply (limitedMessages_subset cfg) | exact Hp]. }
  destruct (createMessages personId thread (limitedMessages cfg thread) (messageSink acc) []
              (upsertedCount acc)) as [[created sink'] k].
  cbn [fst snd] in Hs', Hn', Hids.
  assert (forall p l, (p, l) ∈ messagesByPerson acc ->
            l <> [] /\
            forall i, i ∈ l ->
                      length before <= i /\
                      exists v, stored sink' !! i = Some v /\ mv_person v = p) as Hold.
  { intros p l Hpl. destruct (Hlinks p l Hpl) as [Hne Hi]. split; [exact Hne|].
    intros i Hil. destruct (Hi i Hil) as (Hle & v & Hv & Hvp). split; [exact Hle|].
    exists v. split; [| exact Hvp]. rewrite Hs'. now apply lookup_app_l_Some. }
  assert (exists added', stored sink' = before ++ added' /\ k = length added' /\
                         Forall (addedBy ids rows) added') as Hadded.
  { exists (added ++ new). rewrite Hs', Hs, <- app_assoc, length_app.
    repeat split; [lia | now apply Forall_app]. }
  destruct created as [createdMessageIds|]; cbn [messageSink upsertedCount messagesByPerson].
  2: { split; [exact Hadded | split; [exact Hnd | exact Hold]]. }
  specialize (Hids _ eq_refl). cbn [app] in Hids.
  destruct (Nat.ltb 0 (length createdMessageIds)) eqn:Hlen.
  2: { split; [exact Hadded | split; [exact Hnd | exact Hold]]. }
  split; [exact Hadded|]. split; [now apply trackMessages_persons|].
  assert (createdMessageIds <> [] /\
          forall i, i ∈ createdMessageIds ->
                    length before <= i /\
                    exists v, stored sink' !! i = Some v /\ mv_person v = personId) as Hcreated.
  { split; [intros ->; discriminate Hlen|]. intros i Hi. rewrite Hids in Hi.
    apply elem_of_seq in Hi as [Hlo Hhi].
    assert (length (stored (messageSink acc)) = length before + length added) as Hsize
      by (now rewrite Hs, length_app).
    split; [lia|].
    destruct (lookup_lt_is_Some_2 new (i - length (stored (messageSink acc)))) as [v Hv]; [lia|].
    exists v. split.
    - rewrite Hs', lookup_app_r by exact Hlo. exact Hv.
    - apply list_elem_of_lookup_2 in Hv. rewrite Forall_forall in Hall'.
      destruct (Hall' v Hv) as (m & _ & ->). reflexivity. }
  intros p l Hpl. apply trackMessages_entries in Hpl as [Hpl | (-> & [-> | (l0 & Hl0 & ->)])].
  - now apply Hold.
  - exact Hcreated.
  - destruct (Hold _ _ Hl0) as [Hne Hi]. split.
    + intros H. apply app_eq_nil in H as [H _]. contradiction.
    + intros i Hil. apply elem_of_app in Hil as [Hil | Hil];
        [now apply Hi | now apply Hcreated].
Qed.

Lemma upsertThreads_invariant cfg ids rows before rs acc :
  (forall t, t ∈ rs -> t ∈ rows) ->
  threadsInvariant ids rows before acc ->
  threadsInvariant ids rows before (fold_left (upsertThread cfg ids) rs acc).
Proof.
  revert acc. induction rs as [|r rs IH]; intros acc Hsub Hinv; [exact Hinv|].
  cbn [fold_left]. apply IH; [intros t Ht; apply Hsub; now right|].
  apply upsertThread_invariant; [apply Hsub; left | exact Hinv].
Qed.

Lemma attioUpsertThreads_invariant cfg ids sink rows :
  threadsInvariant ids rows (stored sink)
    (fold_left (upsertThread cfg ids) rows
       {| messageSink := sink; upsertedCount := 0; messagesByPerson := [] |}).
Proof.
  apply upsertThreads_invariant; [tauto|]. split; [| split].
  - exists []. cbn. rewrite app_nil_r. repeat split. constructor.
  - constructor.
  - intros p l H. inversion H.
Qed.

(** X21 -- A live threads upsert only adds to the Sink, and the count it
    returns is the number of messages it stored: the messages held
    afterwards are those held before followed by the new ones, and each new
    one was built from a message of one of the thread rows and points to
    the person the people cache gives for that row. *)
Theorem threads_upsert_stores_for_cached_people (cfg : ThreadsConfig)
    (recordIdByUrl : gmap string string) (sink : MessageStore)
    (threadRows : list ThreadRow) :
  AT_DRY_RUN cfg = false ->
  exists added,
    stored (sinkAfterThreads cfg recordIdByUrl sink threadRows) = stored sink ++ added /\
    snd (fst (attioUpsertThreads cfg recordIdByUrl sink threadRows)) = length added /\
    Forall (addedBy recordIdByUrl threadRows) added.
Proof.
  intros Hdry. unfold sinkAfterThreads, attioUpsertThreads.
  destruct (Nat.eqb (length threadRows) 0);
    [exists []; cbn; rewrite app_nil_r; repeat split; constructor|].
  destruct (AT_DISABLE_THREADS_UPSERT cfg);
    [exists []; cbn; rewrite app_nil_r; repeat split; constructor|].
  rewrite Hdry. cbn [fst snd].
  exact (proj1 (attioUpsertThreads_invariant cfg recordIdByUrl sink threadRows)).
Qed.

Lemma threads_upsert_stores_for_cached_people_witness :
  exists added,
    stored (sinkAfterThreads liveConfig examplePeopleIds
              {| uniqueMessageUid := true; stored := [] |} [longerThread]) = [] ++ added /\
    snd (fst (attioUpsertThreads liveConfig examplePeopleIds
                {| uniqueMessageUid := true; stored := [] |} [longerThread])) = length added /\
    Forall (addedBy examplePeopleIds [longerThread]) added.
Proof.
  exact (threads_upsert_stores_for_cached_people liveConfig examplePeopleIds
           {| uniqueMessageUid := true; stored := [] |} [longerThread] eq_refl).
Defined.

Lemma fst_functional {A B} (l : list (A * B)) x y1 y2 :
  NoDup (map fst l) -> (x, y1) ∈ l -> (x, y2) ∈ l -> y1 = y2.
Proof.
  induction l as [|[a b] rest IH]; intros Hnd H1 H2; [inversion H1|].
  cbn [map fst] in Hnd. apply NoDup_cons in Hnd as [Ha Hnd].
  assert (forall y, (a, y) ∈ rest -> False) as Hout.
  { intros y Hy. apply Ha. apply list_elem_of_fmap. now exists (a, y). }
  apply elem_of_cons in H1 as [H1 | H1]; apply elem_of_cons in H2 as [H2 | H2].
  - congruence.
  - injection H1 as -> ->. now destruct (Hout y2).
  - injection H2 as -> ->. now destruct (Hout y1).
  - now apply IH.
Qed.

(** X22 -- The back-references sent after the messages: a live threads
    upsert sends at most one link request per person, never an empty one,
    and every message id it links to a person is the record id of a message
    stored by this upsert for that very person. *)
Theorem back_references_point_to_own_messages (cfg : ThreadsConfig)
    (recordIdByUrl : gmap string string) (sink : MessageStore)
    (threadRows : list ThreadRow) :
  let links := snd (attioUpsertThreads cfg recordIdByUrl sink threadRows) in
  let sink' := sinkAfterThreads cfg recordIdByUrl sink threadRows in
  (forall personId ids1 ids2,
      LinkMessages personId ids1 ∈ links -> LinkMessages personId ids2 ∈ links ->
      ids1 = ids2) /\
  (forall personId messageIds,
      LinkMessages personId messageIds ∈ links ->
      messageIds <> [] /\
      forall i, i ∈ messageIds ->
                length (stored sink) <= i /\
                exists v, stored sink' !! i = Some v /\ mv_person v = personId).
Proof.
  cbv zeta. unfold sinkAfterThreads, attioUpsertThreads.
  destruct (Nat.eqb (length threadRows) 0); [split; intros; exfalso; now inversion H|].
  destruct (AT_DISABLE_THREADS_UPSERT cfg); [split; intros; exfalso; now inversion H|].
  destruct (AT_DRY_RUN cfg); [split; intros; exfalso; now inversion H|].
  cbn [fst snd].
  destruct (attioUpsertThreads_invariant cfg recordIdByUrl sink threadRows)
    as (_ & Hnd & Hlinks).
  set (r := fold_left (upsertThread cfg recordIdByUrl) threadRows _) in *.
  assert (forall p l, LinkMessages p l
                      ∈ map (fun '(personId, ids) => LinkMessages personId ids)
                          (messagesByPerson r) ->
                      (p, l) ∈ messagesByPerson r) as Hback.
  { intros p l H. apply list_elem_of_fmap in H as ([q l'] & Heq & Hin).
    injection Heq as -> ->. exact Hin. }
  split.
  - intros p l1 l2 H1 H2. exact (fst_functional _ _ _ _ Hnd (Hback _ _ H1) (Hback _ _ H2)).
  - intros p l H. exact (Hlinks p l (Hback _ _ H)).
Qed.

Lemma back_references_point_to_own_messages_witness :
  exists v, stored (sinkAfterThreads liveConfig examplePeopleIds
                      {| uniqueMessageUid := true; stored := [] |} [longerThread]) !! 2
            = Some v /\ mv_person v = "rec-1".
Proof.
  apply (proj2 (back_references_point_to_own_messages liveConfig examplePeopleIds
                  {| uniqueMessageUid := true; stored := [] |} [longerThread])
           "rec-1" [0; 1; 2]).
  - left.
  - right. right. left.
Defined.

(** *** The page loops *)

(** X23 -- An inbox batch whose first response reports no total (read as
    0), or a total that is not above the number of conversations on that
    page, ends after this one request, whatever [INBOX_MAX_PAGES] is and
    even when the page was full: its conversations are processed and no
    second page is asked for. *)
Theorem inbox_batch_one_request_without_total (api : UrlApi) (now : string)
    (incremental : bool) (source : InboxSource) (INBOX_LIMIT INBOX_MAX_PAGES : Z)
    (f : Filters) (st : RunState) (body : InboxBody) :
  source f INBOX_LIMIT 0%Z = Ok2xx body ->
  (orZ (body_totalCount body) (orZ (body_count body) 0)
   <= Z.of_nat (length (body_items body)))%Z ->
  inboxBatch api now incremental source INBOX_LIMIT INBOX_MAX_PAGES f st
  = Some {| finalState := processItems api now incremental st (body_items body);
            pageRequests := 1; thrown := None |}.
Proof.
  intros Hsrc Htotal. unfold inboxBatch.
  destruct (Z.to_nat (Z.max 1 INBOX_MAX_PAGES)) as [|fuel] eqn:Hfuel; [lia|].
  rewrite (inboxPagesFrom_step api now incremental source INBOX_LIMIT INBOX_MAX_PAGES f fuel
             0 0 st 0 (orZ (body_totalCount body) (orZ (body_count body) 0))
             (body_items body)).
  - destruct (body_items body) as [|c cs] eqn:Hitems; [reflexivity|].
    cbn [length Nat.eqb].
    destruct (_ <=? _)%Z eqn:E; [reflexivity|]. apply Z.leb_gt in E. cbn [length] in Htotal. lia.
  - unfold fetchInboxConversations.
    assert ((if (INBOX_LIMIT =? 0)%Z then INBOX_LIMIT else INBOX_LIMIT) = INBOX_LIMIT) as ->
      by now destruct (INBOX_LIMIT =? 0)%Z.
    now rewrite Hsrc.
Qed.

Lemma inbox_batch_one_request_without_total_witness :
  inboxBatch SimpleUrl.api "2024-05-03T00:00:00Z" false silentInboxSource 2 50
    (ByCampaign 7) (initialState ∅)
  = Some {| finalState := processItems SimpleUrl.api "2024-05-03T00:00:00Z" false
                            (initialState ∅) [exampleConversation; anonymousConversation];
            pageRequests := 1; thrown := None |}.
Proof.
  apply (inbox_batch_one_request_without_total SimpleUrl.api "2024-05-03T00:00:00Z" false
           silentInboxSource 2 50 (ByCampaign 7) (initialState ∅)
           {| body_totalCount := None; body_count := None;
              body_items := [exampleConversation; anonymousConversation] |}).
  - reflexivity.
  - cbn. lia.
Defined.

(** X24 -- The lead loop has no page cap: it only ends at a page without
    cursor, without [hasMore] and whose size differs from [PAGE_LIMIT].
    Against a Source whose every page has a cursor, or [hasMore], or exactly
    [PAGE_LIMIT] leads, no number of iterations reaches the end; with
    [PAGE_LIMIT] 0 an endpoint that answers with empty pages is such a
    Source. *)
Theorem fetchLeadsFromList_needs_a_short_page (source : LeadsSource) (PAGE_LIMIT : Z)
    (listId : option string) :
  (forall page cursor,
      exists data, source listId PAGE_LIMIT page cursor = inl data /\
                   (Js.truthy (page_cursor data) = true \/ page_hasMore data = true \/
                    Z.of_nat (length (page_items data)) = PAGE_LIMIT)) ->
  forall fuel, fetchLeadsFromList source PAGE_LIMIT listId fuel = None.
Proof.
  intros Hsrc fuel. unfold fetchLeadsFromList.
  generalize (@nil RawLead) ""%string 1%Z 0.
  induction fuel as [|fuel IH]; intros results cursor page n; [reflexivity|].
  destruct (Hsrc page cursor) as (data & Hd & Hmore).
  rewrite (fetchLeadsLoop_step _ _ _ _ _ _ _ _ data Hd).
  destruct (Js.truthy (page_cursor data)); [apply IH|].
  destruct (page_hasMore data); [apply IH|].
  destruct (Z.eqb_spec (Z.of_nat (length (page_items data))) PAGE_LIMIT); [apply IH|].
  destruct Hmore as [H | [H | H]]; [discriminate H | discriminate H | contradiction].
Qed.

Lemma fetchLeadsFromList_needs_a_short_page_witness :
  fetchLeadsFromList emptyLeadsSource 0 None 1000 = None.
Proof.
  apply (fetchLeadsFromList_needs_a_short_page emptyLeadsSource 0 None).
  intros page cursor. eexists. split; [reflexivity|]. right. right. reflexivity.
Defined.

(** *** The per-lead flow *)

Lemma filter_bool_split {A} (f : A -> bool) (l : list A) :
  length (filter (fun x => f x = true) l) + length (filter (fun x => f x = false) l)
  = length l.
Proof.
  induction l as [|x xs IH]; [reflexivity|].
  rewrite !filter_cons. destruct (f x) eqn:E; repeat case_decide;
    cbn [length]; try congruence; lia.
Qed.

Lemma addLead_keyed m lead : leadsKeyed m -> leadsKeyed (addLead m lead).
Proof.
  intros [Hnd Hall]. unfold addLead.
  destruct (Js.truthy (leadIdOf lead)) eqn:Ht; cbn [negb]; [| now split].
  destruct (existsb _ m) eqn:E; [now split|]. split.
  - rewrite map_app. apply NoDup_app. split; [exact Hnd|]. split; [| apply NoDup_singleton].
    intros k Hk Hk'. apply list_elem_of_singleton in Hk'. subst k.
    apply list_elem_of_fmap in Hk as (kv & Heq & Hin).
    assert (existsb (fun kv => String.eqb (fst kv) (leadIdOf lead)) m = true) as E'.
    { apply existsb_exists. exists kv. split; [now apply list_elem_of_In|].
      apply String.eqb_eq. symmetry. exact Heq. }
    congruence.
  - apply Forall_app. split; [exact Hall|]. constructor; [| constructor]. now split.
Qed.

Lemma addLeads_keyed leads m : leadsKeyed m -> leadsKeyed (fold_left addLead leads m).
Proof.
  revert m. induction leads as [|l ls IH]; intros m H; [exact H|].
  cbn [fold_left]. now apply IH, addLead_keyed.
Qed.

Lemma pullLists_keyed fetchLeads ids run :
  leadsKeyed (uniqueLeadsById run) ->
  leadsKeyed (uniqueLeadsById (fold_left (pullList fetchLeads) ids run)).
Proof.
  revert run. induction ids as [|i rest IH]; intros run H; [exact H|].
  cbn [fold_left]. apply IH. unfold pullList.
  destruct (fetchLeads (Some i)); cbn [uniqueLeadsById]; [now apply addLeads_keyed | exact H].
Qed.

Lemma pullAll_keyed fetchLeads run :
  leadsKeyed (uniqueLeadsById run) -> leadsKeyed (uniqueLeadsById (pullAll fetchLeads run)).
Proof.
  intros H. unfold pullAll.
  destruct (fetchLeads None); cbn [uniqueLeadsById]; [now apply addLeads_keyed | exact H].
Qed.

Lemma perLeadFlow_leads api fetchLeads fetchConversationsForLead LIST_IDS MAX_LEADS :
  let start := {| uniqueLeadsById := []; runErrors := []; leadMessageRows := [] |} in
  let run1 := if Nat.ltb 0 (length LIST_IDS)
              then fold_left (pullList fetchLeads) LIST_IDS start
              else pullAll fetchLeads start in
  uniqueLeadsById
    (fst (perLeadFlow api fetchLeads fetchConversationsForLead LIST_IDS MAX_LEADS))
  = uniqueLeadsById run1 /\
  leadsKeyed (uniqueLeadsById run1).
Proof.
  intros start run1. split.
  - unfold perLeadFlow. cbn [fst].
    apply (pullAllConversations_keep api fetchConversationsForLead).
  - assert (leadsKeyed (uniqueLeadsById start)) as H0 by (split; constructor).
    unfold run1. destruct (Nat.ltb 0 (length LIST_IDS));
      [now apply pullLists_keyed | now apply pullAll_keyed].
Qed.

Lemma leadPeopleRows_subset api (m : list (string * RawLead)) id :
  Forall (fun kv => fst kv = leadIdOf (snd kv) /\ Js.truthy (fst kv) = true) m ->
  id ∈ map heyreach_lead_id
         (filter (fun row => Js.truthy (linkedin_url row) = true)
            (map (fun kv => extractLeadCore api (snd kv)) m)) ->
  id ∈ map fst m.
Proof.
  induction m as [|kv rest IH]; intros Hall Hid; [inversion Hid|].
  apply Forall_cons in Hall as [[Hk _] Hall]. cbn [map] in *.
  rewrite filter_cons in Hid. case_decide.
  - cbn [map] in Hid. apply elem_of_cons in Hid as [-> | Hid]; [| right; now apply IH].
    rewrite Hk. left.
  - right. now apply IH.
Qed.

Lemma leadPeopleRows_ids api (m : list (string * RawLead)) :
  leadsKeyed m ->
  NoDup (map heyreach_lead_id
           (filter (fun row => Js.truthy (linkedin_url row) = true)
              (map (fun kv => extractLeadCore api (snd kv)) m))).
Proof.
  intros [Hnd Hall]. induction m as [|kv rest IH]; [constructor|].
  apply Forall_cons in Hall as [[Hk _] Hall]. cbn [map] in *.
  apply NoDup_cons in Hnd as [Hout Hnd].
  rewrite filter_cons. case_decide; [| now apply IH].
  cbn [map]. apply NoDup_cons. split; [| now apply IH].
  intros Hin. apply Hout. rewrite Hk. now apply (leadPeopleRows_subset api).
Qed.

(** C7 (as amended) -- In the inbox flow every identity key gets at most
    one person row: the keys of [peopleRows], and of the validated rows,
    are distinct.  When a conversation's key was already met earlier in
    the run, no row is pushed for it; rows pushed earlier are never changed
    or removed afterwards, so the row kept for a key is the one built from
    the first conversation that carried it.  None of this consults the
    Sink: the functions take no Sink argument.  The per-lead flow
    deduplicates by lead id instead: the person rows it writes carry
    distinct lead ids. *)
Theorem in_run_dedup_first_wins (api : UrlApi) (now : string) (incremental : bool)
    (ths : gmap string Watermark) (pre : list Conversation) (conv : Conversation)
    (post : list Conversation) :
  let run := processItems api now incremental (initialState ths) in
  let before := run pre in
  let after := processConversation api now incremental before conv in
  let final := run (pre ++ conv :: post) in
  NoDup (map linkedin_url (peopleRows final)) /\
  NoDup (map linkedin_url (validatedPeople final)) /\
  validatedPeople final = peopleRows final /\
  peopleRows before `prefix_of` peopleRows after /\
  peopleRows after `prefix_of` peopleRows final /\
  (liUrlOf api conv ∈ map linkedin_url (peopleRows before) ->
   peopleRows after = peopleRows before) /\
  (liUrlOf api conv ∉ map linkedin_url (peopleRows before) ->
   skipUnchanged incremental (threads before) (convIdOf conv) (lastAtOf conv) = false ->
   peopleRows after = peopleRows before ++ [personRowOf api conv]) /\
  (forall fetchLeads fetchConversationsForLead LIST_IDS MAX_LEADS,
      NoDup (map heyreach_lead_id
               (leadPeopleRows api
                  (fst (perLeadFlow api fetchLeads fetchConversationsForLead
                          LIST_IDS MAX_LEADS))))).
Proof.
  intros run before after final.
  assert (peopleConsistent final) as (Hnd & Hset & Hall).
  { apply processItems_consistent, initialState_consistent. }
  assert (peopleConsistent before) as (_ & Hsetb & _).
  { apply processItems_consistent, initialState_consistent. }
  destruct (processConversation_people api now incremental before conv) as [Hsame Hnew].
  split; [exact Hnd|]. split; [apply validatePeople_distinct|]. split.
  { apply validatePeople_id; [exact Hnd | exact Hall |].
    intros k _. apply not_elem_of_empty. }
  split; [apply processConversation_prefix|]. split.
  { subst final run after before. rewrite processItems_app. cbn [processItems fold_left].
    apply processItems_prefix. }
  split; [| split].
  - intros Hin. apply Hsame. left. now apply Hsetb.
  - intros Hnin Hs. apply Hnew; [| exact Hs]. intros Hin. now apply Hnin, Hsetb.
  - intros fetchLeads fetchConversationsForLead LIST_IDS MAX_LEADS.
    destruct (perLeadFlow_leads api fetchLeads fetchConversationsForLead LIST_IDS MAX_LEADS)
      as [Heq Hkeyed].
    unfold leadPeopleRows. rewrite Heq. now apply leadPeopleRows_ids.
Qed.

Lemma in_run_dedup_first_wins_witness :
  let jane := {| profileUrl := Some "https://www.linkedin.com/in/jane/";
                 profile_url := None; firstName := Some "Jane"; c_first_name := None;
                 lastName := Some "Doe"; c_last_name := None; position := None;
                 headline := None; companyName := None |} in
  let janet := {| profileUrl := Some "https://www.linkedin.com/in/jane?x=1";
                  profile_url := None; firstName := Some "Janet"; c_first_name := None;
                  lastName := None; c_last_name := None; position := None;
                  headline := None; companyName := None |} in
  let conv id who := {| conv_id := Some id; lastMessageAt := None;
                        correspondentProfile := Some who; accountEmailAddress := None;
                        campaignId := None; messages := []; totalMessages := None;
                        lastMessageSender := None; lastMessageText := None |} in
  peopleRows (processConversation SimpleUrl.api "" false
                (processItems SimpleUrl.api "" false (initialState ∅) [conv "a" jane])
                (conv "b" janet))
  = [personRowOf SimpleUrl.api (conv "a" jane)].
Proof.
  intros jane janet conv.
  destruct (in_run_dedup_first_wins SimpleUrl.api "" false ∅
              [conv "a" jane] (conv "b" janet) [])
    as (_ & _ & _ & _ & _ & Hdup & _ & _).
  rewrite Hdup; [vm_compute; reflexivity |].
  apply list_elem_of_In. vm_compute. left. reflexivity.
Defined.

(** C7 (as stated) fails in the per-lead flow, which keeps one row per lead
    id: two leads with different ids and the same profile URL give two
    person rows with the same identity key. *)
Lemma per_lead_flow_repeats_key :
  let flow := perLeadFlow SimpleUrl.api (fun _ => Returned [exampleLead; sameProfileLead])
                answeringConversations [] 0 in
  map linkedin_url (leadPeopleRows SimpleUrl.api (fst flow))
  = ["https://www.linkedin.com/in/jane-doe"; "https://www.linkedin.com/in/jane-doe"] /\
  map heyreach_lead_id (leadPeopleRows SimpleUrl.api (fst flow)) = ["lead-7"; "lead-8"] /\
  count_peopleRows (snd flow) = 2.
Proof. repeat split; vm_compute; reflexivity. Qed.

(** X25 -- The figures of the per-lead report add up, whatever the Source
    returns: each unique lead is counted either as a people row or as
    skipped, each skipped lead has its entry in [skippedPeople], and the
    unique leads are keyed by distinct, non-empty lead ids, each the id
    of its lead. *)
Theorem per_lead_report_counts (api : UrlApi)
    (fetchLeads : option string -> Fetched (list RawLead))
    (fetchConversationsForLead : string -> Fetched (list LeadMessage))
    (LIST_IDS : list string) (MAX_LEADS : Z) :
  let flow := perLeadFlow api fetchLeads fetchConversationsForLead LIST_IDS MAX_LEADS in
  count_peopleRows (snd flow) + count_peopleSkipped (snd flow)
  = count_uniqueLeads (snd flow) /\
  length (skippedPeople (snd flow)) = count_peopleSkipped (snd flow) /\
  count_peopleRows (snd flow) = length (leadPeopleRows api (fst flow)) /\
  leadsKeyed (uniqueLeadsById (fst flow)).
Proof.
  intros flow.
  destruct (perLeadFlow_leads api fetchLeads fetchConversationsForLead LIST_IDS MAX_LEADS)
    as [Heq Hkeyed].
  fold flow in Heq. cbv zeta in Heq, Hkeyed.
  split; [| split; [| split]].
  - unfold flow, perLeadFlow. cbn [snd count_peopleRows count_peopleSkipped count_uniqueLeads].
    rewrite (filter_bool_split (fun row => Js.truthy (linkedin_url row))), length_map.
    f_equal. symmetry. apply (pullAllConversations_keep api fetchConversationsForLead).
  - unfold flow, perLeadFlow. cbn [snd skippedPeople count_peopleSkipped].
    apply length_map.
  - unfold leadPeopleRows. rewrite Heq. reflexivity.
  - now rewrite Heq.
Qed.

Lemma leadsArrayOf_subset MAX_LEADS run lead :
  lead ∈ leadsArrayOf MAX_LEADS run -> lead ∈ map snd (uniqueLeadsById run).
Proof.
  unfold leadsArrayOf. destruct (_ && _); [| tauto]. intros H.
  rewrite <- (firstn_skipn (Z.to_nat MAX_LEADS) (map snd (uniqueLeadsById run))).
  apply elem_of_app. now left.
Qed.

Lemma pullConversations_rows api fetchConversationsForLead (P : LeadMessageRow -> Prop)
    run lead :
  (Js.truthy (leadIdOf lead) = true -> Js.truthy (leadUrlOf api lead) = true ->
   forall m, P (extractMessageCore (leadIdOf lead) (leadUrlOf api lead) m)) ->
  Forall P (leadMessageRows run) ->
  Forall P (leadMessageRows (pullConversations api fetchConversationsForLead run lead)).
Proof.
  intros Hnew Hold. unfold pullConversations.
  destruct (Js.truthy (leadIdOf lead)) eqn:Hid; cbn [negb]; [| exact Hold].
  destruct (Js.truthy (leadUrlOf api lead)) eqn:Hurl; cbn [negb]; [| exact Hold].
  destruct (fetchConversationsForLead (leadIdOf lead)) as [conv | message];
    cbn [leadMessageRows]; [| exact Hold].
  apply Forall_app. split; [exact Hold|]. apply Forall_forall. intros row Hrow.
  apply list_elem_of_fmap in Hrow as (m & -> & _). now apply Hnew.
Qed.

Lemma pullAllConversations_rows api fetchConversationsForLead (P : LeadMessageRow -> Prop)
    leads run :
  (forall lead, lead ∈ leads ->
     Js.truthy (leadIdOf lead) = true -> Js.truthy (leadUrlOf api lead) = true ->
     forall m, P (extractMessageCore (leadIdOf lead) (leadUrlOf api lead) m)) ->
  Forall P (leadMessageRows run) ->
  Forall P (leadMessageRows
              (fold_left (pullConversations api fetchConversationsForLead) leads run)).
Proof.
  revert run. induction leads as [|l ls IH]; intros run Hnew Hold; [exact Hold|].
  cbn [fold_left]. apply IH; [intros lead Hin; apply Hnew; now right|].
  apply pullConversations_rows; [apply Hnew; left | exact Hold].
Qed.

(** X26 -- Every message row of the per-lead flow can be matched to a
    person: it carries a non-empty lead id and a non-empty person key,
    both those of one of the leads whose conversations were pulled, and
    [people.csv] holds a row with that key and that lead id. *)
Theorem per_lead_messages_reference_people (api : UrlApi)
    (fetchLeads : option string -> Fetched (list RawLead))
    (fetchConversationsForLead : string -> Fetched (list LeadMessage))
    (LIST_IDS : list string) (MAX_LEADS : Z) (row : LeadMessageRow) :
  let flow := perLeadFlow api fetchLeads fetchConversationsForLead LIST_IDS MAX_LEADS in
  row ∈ leadMessageRows (fst flow) ->
  Js.truthy (lr_lead_id row) = true /\
  Js.truthy (lr_person_match_linkedin_url row) = true /\
  (exists lead, lead ∈ leadsArrayOf MAX_LEADS (fst flow) /\
                lr_lead_id row = leadIdOf lead /\
                lr_person_match_linkedin_url row = leadUrlOf api lead) /\
  (exists person, person ∈ leadPeopleRows api (fst flow) /\
                  linkedin_url person = lr_person_match_linkedin_url row /\
                  heyreach_lead_id person = lr_lead_id row).
Proof.
  intros flow Hrow.
  destruct (perLeadFlow_leads api fetchLeads fetchConversationsForLead LIST_IDS MAX_LEADS)
    as [Heq _].
  fold flow in Heq. cbv zeta in Heq.
  set (run1 := if Nat.ltb 0 (length LIST_IDS)
               then fold_left (pullList fetchLeads) LIST_IDS
                      {| uniqueLeadsById := []; runErrors := []; leadMessageRows := [] |}
               else pullAll fetchLeads
                      {| uniqueLeadsById := []; runErrors := []; leadMessageRows := [] |})
    in *.
  assert (leadsArrayOf MAX_LEADS (fst flow) = leadsArrayOf MAX_LEADS run1) as Harr
    by (unfold leadsArrayOf; now rewrite Heq).
  set (P := fun r : LeadMessageRow =>
              exists lead, lead ∈ leadsArrayOf MAX_LEADS run1 /\
                           Js.truthy (leadIdOf lead) = true /\
                           Js.truthy (leadUrlOf api lead) = true /\
                           lr_lead_id r = leadIdOf lead /\
                           lr_person_match_linkedin_url r = leadUrlOf api lead).
  assert (Forall P (leadMessageRows (fst flow))) as Hall.
  { unfold flow, perLeadFlow. cbn [fst]. fold run1.
    apply pullAllConversations_rows.
    - intros lead Hin Hid Hurl m. exists lead. repeat split; try assumption.
      cbn [extractMessageCore lr_lead_id]. apply or_empty_r.
    - assert (leadMessageRows run1 = []) as ->; [| constructor].
      unfold run1. destruct (Nat.ltb 0 (length LIST_IDS)).
      + generalize LIST_IDS. intros ids.
        assert (forall run, leadMessageRows run = [] ->
                  leadMessageRows (fold_left (pullList fetchLeads) ids run) = []) as H.
        { induction ids as [|i rest IH]; intros run Hr; [exact Hr|].
          cbn [fold_left]. apply IH. unfold pullList.
          now destruct (fetchLeads (Some i)). }
        now apply H.
      + unfold pullAll. now destruct (fetchLeads None). }
  rewrite Forall_forall in Hall.
  destruct (Hall row Hrow) as (lead & Hin & Hid & Hurl & Eid & Eurl).
  split; [now rewrite Eid|]. split; [now rewrite Eurl|]. split.
  - exists lead. rewrite Harr. now repeat split.
  - exists (extractLeadCore api lead). split; [| now split].
    unfold leadPeopleRows. rewrite Heq. apply list_elem_of_filter. split; [exact Hurl|].
    apply leadsArrayOf_subset in Hin. apply list_elem_of_fmap in Hin as (kv & -> & Hkv).
    apply list_elem_of_fmap. now exists kv.
Qed.

Lemma per_lead_messages_reference_people_witness :
  exists person,
    person ∈ leadPeopleRows SimpleUrl.api
               (fst (perLeadFlow SimpleUrl.api exampleFetchLeads answeringConversations
                       ["B"] 0)) /\
    linkedin_url person = "https://www.linkedin.com/in/jane-doe" /\
    heyreach_lead_id person = "lead-7".
Proof.
  apply (per_lead_messages_reference_people SimpleUrl.api exampleFetchLeads
           answeringConversations ["B"] 0
           (extractMessageCore "lead-7" "https://www.linkedin.com/in/jane-doe"
              exampleLeadMessage)).
  vm_compute. left.
Defined.

(** X27 -- [MAX_LEADS] limits the conversation pulls only: a positive
    [MAX_LEADS] bounds the number of leads whose conversations are pulled,
    while the unique leads, the people rows and the skipped people of the
    run are the same whatever [MAX_LEADS] is. *)
Theorem max_leads_limits_conversations_only (api : UrlApi)
    (fetchLeads : option string -> Fetched (list RawLead))
    (fetchConversationsForLead : string -> Fetched (list LeadMessage))
    (LIST_IDS : list string) (MAX_LEADS MAX_LEADS' : Z) :
  let flow := perLeadFlow api fetchLeads fetchConversationsForLead LIST_IDS MAX_LEADS in
  let flow' := perLeadFlow api fetchLeads fetchConversationsForLead LIST_IDS MAX_LEADS' in
  uniqueLeadsById (fst flow) = uniqueLeadsById (fst flow') /\
  leadPeopleRows api (fst flow) = leadPeopleRows api (fst flow') /\
  skippedPeople (snd flow) = skippedPeople (snd flow') /\
  ((0 < MAX_LEADS)%Z ->
   (Z.of_nat (length (leadsArrayOf MAX_LEADS (fst flow))) <= MAX_LEADS)%Z).
Proof.
  intros flow flow'.
  destruct (perLeadFlow_leads api fetchLeads fetchConversationsForLead LIST_IDS MAX_LEADS)
    as [Heq _].
  destruct (perLeadFlow_leads api fetchLeads fetchConversationsForLead LIST_IDS MAX_LEADS')
    as [Heq' _].
  fold flow in Heq. fold flow' in Heq'. cbv zeta in Heq, Heq'.
  assert (uniqueLeadsById (fst flow) = uniqueLeadsById (fst flow')) as Hsame by congruence.
  split; [exact Hsame|]. split; [unfold leadPeopleRows; now rewrite Hsame|].
  split; [reflexivity|].
  intros Hpos. unfold leadsArrayOf.
  destruct (0 <? MAX_LEADS)%Z eqn:E1; [| apply Z.ltb_ge in E1; lia]. cbn [andb].
  destruct (MAX_LEADS <? _)%Z eqn:E2.
  - rewrite length_take. lia.
  - apply Z.ltb_ge in E2. exact E2.
Qed.

Lemma max_leads_limits_conversations_only_witness :
  (Z.of_nat (length (leadsArrayOf 1
                       (fst (perLeadFlow SimpleUrl.api exampleFetchLeads
                               answeringConversations ["B"; "C"] 1)))) <= 1)%Z.
Proof.
  apply (proj2 (proj2 (proj2
           (max_leads_limits_conversations_only SimpleUrl.api exampleFetchLeads
              answeringConversations ["B"; "C"] 1 0)))).
  lia.
Defined.

(** *** The count and the cache of the people upsert *)

Lemma upsertPerson_ok sink acc row :
  ok (upsertPerson sink acc row) = ok acc + (if createFailed sink row then 0 else 1).
Proof.
  unfold upsertPerson, createFailed.
  destruct (findPersonByLinkedInUrl _ _) as [[[recordId record]|] qreqs]; cbn [fst].
  - destruct (reconcileExisting _ _ _ _). cbn [ok]. lia.
  - destruct (onCreate (sink row)); cbn [ok]; lia.
Qed.

(** X28 -- The count returned by a live people upsert, for rows with
    distinct keys as the validation pass leaves them: when the lookup of the
    object ids made before the first row does not throw, the count leaves
    out only the rows whose person was not found and could not be created,
    so a row whose person exists is counted whether its patch was accepted,
    refused or not needed; when that lookup throws, the upsert throws and
    returns no count. *)
Theorem people_upsert_count (onObjectIds : HttpOutcome unit)
    (sink : PersonRow -> RowAnswers) (rows : list PersonRow) :
  NoDup (map linkedin_url rows) ->
  ((forall message, onObjectIds <> Thrown message) ->
   exists r,
     attioUpsertPeople false SingleRecord onObjectIds sink rows = Returned r /\
     ok r + length (filter (fun row => createFailed sink row = true) rows) = length rows /\
     (findsEveryone sink ->
      Forall (fun row => Js.truthy (linkedin_url row) = true) rows ->
      ok r = length rows)) /\
  (forall message,
      onObjectIds = Thrown message -> rows <> [] ->
      attioUpsertPeople false SingleRecord onObjectIds sink rows = Threw message).
Proof.
  intros _. split.
  2: { intros message -> Hrows. unfold attioUpsertPeople.
       destruct rows; [contradiction | reflexivity]. }
  intros Hids. exists (upsertPeopleLoop sink rows).
  split; [now apply attioUpsertPeople_returns|]. unfold upsertPeopleLoop.
  assert (forall acc,
            ok (fold_left (upsertPerson sink) rows acc)
            + length (filter (fun row => createFailed sink row = true) rows)
            = ok acc + length rows) as Hfold.
  { induction rows as [|r rs IH]; intros acc; [reflexivity|].
    cbn [fold_left length]. rewrite filter_cons.
    pose proof (IH (upsertPerson sink acc r)) as H. rewrite upsertPerson_ok in H.
    destruct (createFailed sink r); case_decide; try congruence; cbn [length]; lia. }
  split; [exact (Hfold _)|].
  intros Hfinds Hurls.
  assert (filter (fun row => createFailed sink row = true) rows = []) as Hnone.
  { clear Hfold. induction Hurls as [|r rs Hr _ IH]; [reflexivity|].
    rewrite filter_cons_False; [exact IH|].
    unfold createFailed, findPersonByLinkedInUrl. rewrite Hr.
    destruct (Hfinds r) as (recordId & record & -> & _). discriminate. }
  pose proof (Hfold {| ok := 0; recordIdByUrl := ∅; outcomes := []; requests := [] |}) as H.
  rewrite Hnone in H. cbn in H. lia.
Qed.

Lemma people_upsert_count_witness :
  (exists r, attioUpsertPeople false SingleRecord (Ok2xx tt) refusingSink [filledRow] = Returned r /\
             ok r = 1) /\
  map snd (outcomes (upsertPeopleLoop refusingSink [filledRow])) = [failed].
Proof.
  split; [| reflexivity].
  destruct (proj1 (people_upsert_count (Ok2xx tt) refusingSink [filledRow]
                     (NoDup_singleton _)))
    as (r & Hr & _ & Hall); [intros message; discriminate|].
  exists r. split; [exact Hr|]. apply Hall.
  - intros row. now exists "rec-1", blankRecord.
  - now repeat constructor.
Defined.

Lemma upsertPerson_cached sink acc row url :
  findsEveryone sink ->
  cached (recordIdByUrl acc) url \/ (url = linkedin_url row /\ Js.truthy url = true) ->
  cached (recordIdByUrl (upsertPerson sink acc row)) url.
Proof.
  intros Hfinds Hurl. unfold upsertPerson, findPersonByLinkedInUrl.
  destruct (Hfinds row) as (recordId & record & -> & Hid).
  destruct (Js.truthy (linkedin_url row)) eqn:Ht; cbn [negb].
  - destruct (reconcileExisting _ _ _ _). cbn [recordIdByUrl].
    destruct (decide (linkedin_url row = url)) as [Heq | Hne].
    + exists recordId. rewrite Heq, lookup_insert_eq. now split.
    + destruct Hurl as [(personId & Hl & Hp) | [Heq _]]; [| congruence].
      exists personId. rewrite lookup_insert_ne by exact Hne. now split.
  - destruct Hurl as [Hc | [Heq Hu]]; [| congruence].
    destruct (onCreate (sink row)) as [[newId|] | status | message]; cbn [recordIdByUrl];
      try exact Hc.
    rewrite andb_false_r. exact Hc.
Qed.

Lemma upsertPeople_cached sink rows acc url :
  findsEveryone sink ->
  cached (recordIdByUrl acc) url \/ (url ∈ map linkedin_url rows /\ Js.truthy url = true) ->
  cached (recordIdByUrl (fold_left (upsertPerson sink) rows acc)) url.
Proof.
  intros Hfinds. revert acc. induction rows as [|r rs IH]; intros acc Hurl.
  - destruct Hurl as [H | [H _]]; [exact H | inversion H].
  - cbn [fold_left]. apply IH. cbn [map] in Hurl.
    destruct Hurl as [H | [H Ht]].
    + left. apply upsertPerson_cached; [exact Hfinds | now left].
    + apply elem_of_cons in H as [-> | H]; [| right; now split].
      left. apply upsertPerson_cached; [exact Hfinds | right; now split].
Qed.

(** X29 -- From extraction to the threads upsert, in a live run: when the
    lookup of the object ids does not throw and the Sink finds a person for
    every row of the people upsert, the people upsert returns, every
    validated thread row of the inbox run finds the record id of its person
    in the people cache, and the threads upsert is called with that cache,
    so it passes over no thread for lack of a person. *)
Theorem inbox_threads_find_their_person (api : UrlApi) (now : string)
    (incremental : bool) (ths : gmap string Watermark) (items : list Conversation)
    (cfg : ThreadsConfig) (onObjectIds : HttpOutcome unit)
    (sink : PersonRow -> RowAnswers) (messageSink : MessageStore) (t : ThreadRow) :
  findsEveryone sink ->
  AT_DRY_RUN cfg = false ->
  (forall message, onObjectIds <> Thrown message) ->
  let st := processItems api now incremental (initialState ths) items in
  let finish := inboxFinish cfg SingleRecord onObjectIds sink messageSink st in
  t ∈ validatedThreads st ->
  exists people,
    peopleUpsert finish = Returned people /\
    cached (recordIdByUrl people) (t_person_match_linkedin_url t) /\
    threadsUpsert finish
    = Some (attioUpsertThreads cfg (recordIdByUrl people) messageSink (validatedThreads st)).
Proof.
  intros Hfinds Hlive Hids st finish Ht.
  exists (upsertPeopleLoop sink (validatedPeople st)).
  assert (peopleUpsert finish = Returned (upsertPeopleLoop sink (validatedPeople st))) as Hp.
  { unfold finish, inboxFinish. cbn [peopleUpsert]. rewrite Hlive.
    now apply attioUpsertPeople_returns. }
  split; [exact Hp|]. split.
  2: { unfold finish, inboxFinish in *. cbn [peopleUpsert threadsUpsert] in *.
       now rewrite Hp. }
  unfold upsertPeopleLoop.
  assert (peopleConsistent st) as (Hnd & _ & Hall)
    by apply processItems_consistent, initialState_consistent.
  assert (rowsLinked st) as (Hlinked & _).
  { apply processItems_linked; [apply initialState_consistent|].
    split; intros x Hx; inversion Hx. }
  assert (validatedPeople st = peopleRows st) as ->.
  { unfold validatedPeople. apply validatePeople_id; [exact Hnd | exact Hall |].
    intros k _. apply not_elem_of_empty. }
  assert (t ∈ threadRows st) as Hin.
  { destruct (validateThreads_facts ∅ (threadRows st)) as (_ & _ & Hsub).
    exact (elem_of_sublist _ _ _ Ht Hsub). }
  apply upsertPeople_cached; [exact Hfinds|]. right. split; [now apply Hlinked|].
  specialize (Hlinked t Hin). apply list_elem_of_fmap in Hlinked as (row & -> & Hrow).
  rewrite Forall_forall in Hall. now apply Hall.
Qed.

Lemma inbox_threads_find_their_person_witness :
  exists people,
    peopleUpsert (inboxFinish liveConfig SingleRecord (Ok2xx tt) refusingSink
                    {| uniqueMessageUid := true; stored := [] |} exampleRun)
    = Returned people /\
    cached (recordIdByUrl people) "https://www.linkedin.com/in/jane-doe".
Proof.
  destruct (inbox_threads_find_their_person SimpleUrl.api "2024-05-03T00:00:00Z" false ∅
              [exampleConversation] liveConfig (Ok2xx tt) refusingSink
              {| uniqueMessageUid := true; stored := [] |}
              (threadRowOf SimpleUrl.api exampleConversation))
    as (people & Hp & Hc & _).
  - intros row. now exists "rec-1", blankRecord.
  - reflexivity.
  - intros message. discriminate.
  - vm_compute. left.
  - exists people. split; [exact Hp | exact Hc].
Defined.

(** *** Normalisation of identity keys and the URL class *)

Lemma string_app_empty_r (s : string) : s +:+ "" = s.
Proof.
  induction s as [|c r IH]; [reflexivity|].
  change (String c r +:+ "") with (String c (r +:+ "")). now rewrite IH.
Qed.

Lemma noWhiteSpace_app a b : noWhiteSpace (a +:+ b) = noWhiteSpace a && noWhiteSpace b.
Proof.
  induction a as [|c r IH]; [reflexivity|].
  change (String c r +:+ b) with (String c (r +:+ b)). cbn [noWhiteSpace].
  now rewrite IH, andb_assoc.
Qed.

Lemma noWhiteSpace_trimEnd s : noWhiteSpace s = true -> Js.trimEnd s = s.
Proof.
  induction s as [|c r IH]; [reflexivity|]. cbn [noWhiteSpace]. intros H.
  apply andb_true_iff in H as [Hc Hr]. apply negb_true_iff in Hc.
  rewrite (trimEnd_cons_not_ws c r Hc). now rewrite IH.
Qed.

Lemma noWhiteSpace_trim s : noWhiteSpace s = true -> Js.trim s = s.
Proof.
  intros H. unfold Js.trim. destruct s as [|c r]; [reflexivity|].
  pose proof H as H'. cbn [noWhiteSpace] in H'.
  apply andb_true_iff in H' as [Hc _]. apply negb_true_iff in Hc.
  cbn [Js.trimStart]. rewrite Hc. now apply noWhiteSpace_trimEnd.
Qed.

Lemma endsWithChar_split c s :
  Js.endsWithChar c s = true -> s = Js.dropLast s +:+ String c EmptyString.
Proof.
  induction s as [|a r IH]; [discriminate|]. destruct r as [|b r'].
  - cbn. intros H. apply Ascii.eqb_eq in H. now subst.
  - intros H. change (Js.endsWithChar c (String a (String b r')))
      with (Js.endsWithChar c (String b r')) in H.
    change (Js.dropLast (String a (String b r')))
      with (String a (Js.dropLast (String b r'))).
    change (String a (Js.dropLast (String b r')) +:+ String c EmptyString)
      with (String a (Js.dropLast (String b r') +:+ String c EmptyString)).
    now rewrite <- (IH H).
Qed.

Lemma dropLast_shorter s : Js.truthy s = true -> Js.dropLast s <> s.
Proof.
  intros Ht Heq. apply (f_equal String.length) in Heq. revert Ht Heq.
  induction s as [|a r IH]; [discriminate|]. intros _. destruct r as [|b r'].
  - discriminate.
  - change (Js.dropLast (String a (String b r')))
      with (String a (Js.dropLast (String b r'))).
    cbn [String.length]. intros H. injection H as H. now apply IH.
Qed.

Lemma ends_double_slash t :
  (exists t', t +:+ "/" = t' +:+ "//") <-> Js.endsWithChar "/" t = true.
Proof.
  split.
  - intros (t' & H).
    change (t' +:+ "//") with (t' +:+ "/" +:+ "/") in H.
    rewrite <- string_app_assoc in H. apply append_char_inj in H. subst t.
    apply endsWithChar_app_char.
  - intros H. exists (Js.dropLast t). rewrite (endsWithChar_split _ _ H) at 1.
    now rewrite string_app_assoc.
Qed.

Lemma normalize_linkedin api s u :
  Js.truthy s = true -> newURL api (Js.trim s) = Some u ->
  Js.includes "linkedin" (hostname api u) = true ->
  normalizeLinkedInUrl api (Js.Str s)
  = if Js.endsWithChar "/" (cleaned api u) then Js.dropLast (cleaned api u)
    else cleaned api u.
Proof.
  intros Ht Hu Hh. unfold normalizeLinkedInUrl, cleaned. now rewrite Ht, Hu, Hh.
Qed.

(** The same for a non-empty string without white space, which [trim]
    leaves as it is. *)
Lemma normalize_read_back api y u :
  Js.truthy y = true -> noWhiteSpace y = true -> newURL api y = Some u ->
  Js.includes "linkedin" (hostname api u) = true ->
  normalizeLinkedInUrl api (Js.Str y)
  = if Js.endsWithChar "/" (cleaned api u) then Js.dropLast (cleaned api u)
    else cleaned api u.
Proof.
  intros Ht Hy Hu Hh. apply normalize_linkedin; [exact Ht | | exact Hh].
  now rewrite noWhiteSpace_trim.
Qed.

Lemma normalize_twice_iff api s u :
  UrlLaws api ->
  Js.truthy s = true -> newURL api (Js.trim s) = Some u ->
  Js.includes "linkedin" (hostname api u) = true ->
  (normalizeLinkedInUrl api (Js.Str (normalizeLinkedInUrl api (Js.Str s)))
   = normalizeLinkedInUrl api (Js.Str s)
   <-> forall t, cleaned api u <> t +:+ "//").
Proof.
  intros Laws Ht Hu Hh. rewrite (normalize_linkedin api s u Ht Hu Hh).
  pose proof (serialised_without_space api Laws _ u Hu Hh) as Hns.
  destruct (Js.endsWithChar "/" (cleaned api u)) eqn:Hend.
  - pose proof (endsWithChar_split _ _ Hend) as Hsplit.
    set (t := Js.dropLast (cleaned api u)) in *.
    change (String "/" EmptyString) with "/"%string in Hsplit.
    assert (noWhiteSpace t = true) as Hnt.
    { rewrite Hsplit, noWhiteSpace_app in Hns. now apply andb_true_iff in Hns as [Hns _]. }
    assert ((forall t', cleaned api u <> t' +:+ "//") <-> Js.endsWithChar "/" t = false)
      as Hdouble.
    { rewrite Hsplit. split.
      - intros Hno. destruct (Js.endsWithChar "/" t) eqn:E; [| reflexivity].
        apply ends_double_slash in E as (t' & E). now destruct (Hno t').
      - intros E t' Heq. assert (Js.endsWithChar "/" t = true) as E'
          by (apply ends_double_slash; now exists t').
        congruence. }
    rewrite Hdouble. destruct (Js.truthy t) eqn:Htt.
    2: { destruct t; [| discriminate Htt]. split; reflexivity. }
    destruct (read_back_without_slash api Laws _ u t Hu Hh Hsplit)
      as (u' & Hu' & Hh' & Hser).
    rewrite (normalize_read_back api t u' Htt Hnt Hu') by now rewrite Hh'.
    destruct Hser as [-> | [-> Hnot]].
    + destruct (Js.endsWithChar "/" t) eqn:E.
      * split; [| discriminate]. intros Heq. now apply dropLast_shorter in Heq.
      * split; reflexivity.
    + change (t +:+ "/") with (t +:+ String "/" EmptyString).
      rewrite endsWithChar_app_char, dropLast_app_char. now split.
  - split; [| intros _].
    + intros _ t Heq. rewrite Heq in Hend.
      change (t +:+ "//") with (t +:+ "/" +:+ String "/" EmptyString) in Hend.
      rewrite <- string_app_assoc, endsWithChar_app_char in Hend. discriminate Hend.
    + destruct (Js.truthy (cleaned api u)) eqn:Htt.
      2: { destruct (cleaned api u); [reflexivity | discriminate Htt]. }
      destruct (read_back api Laws _ u Hu Hh) as (u' & Hu' & Hh' & Hser).
      rewrite (normalize_read_back api _ u' Htt Hns Hu') by now rewrite Hh'.
      now rewrite Hser, Hend.
Qed.

(** **** The small URL class obeys the laws *)

Lemma hostChar_facts c :
  SimpleUrl.isHostChar c = true ->
  SimpleUrl.isOneOf "/?#" c = false /\ Js.isWhiteSpace c = false /\
  Ascii.eqb c "/" = false /\ SimpleUrl.isPathChar c || Ascii.eqb c "." = true.
Proof.
  destruct c as [[] [] [] [] [] [] [] []]; vm_compute; intros H;
    try discriminate H; repeat split.
Qed.

Lemma pathChar_facts c :
  SimpleUrl.isPathChar c = true ->
  SimpleUrl.isOneOf "?#" c = false /\ Js.isWhiteSpace c = false.
Proof.
  destruct c as [[] [] [] [] [] [] [] []]; vm_compute; intros H;
    try discriminate H; repeat split.
Qed.

Lemma stop_is_slash c :
  SimpleUrl.isOneOf "/?#" c = true -> SimpleUrl.isOneOf "?#" c = false -> c = "/"%char.
Proof.
  destruct c as [[] [] [] [] [] [] [] []]; vm_compute; intros H1 H2;
    try discriminate H1; try discriminate H2; reflexivity.
Qed.

Lemma allChars_impl (p q : ascii -> bool) s :
  (forall c, p c = true -> q c = true) ->
  SimpleUrl.allChars p s = true -> SimpleUrl.allChars q s = true.
Proof.
  intros Hpq. induction s as [|c r IH]; [reflexivity|]. cbn [SimpleUrl.allChars].
  intros H. apply andb_true_iff in H as [Hc Hr]. now rewrite (Hpq c Hc), IH.
Qed.

Lemma allChars_app p a b :
  SimpleUrl.allChars p (a +:+ b) = SimpleUrl.allChars p a && SimpleUrl.allChars p b.
Proof.
  induction a as [|c r IH]; [reflexivity|].
  change (String c r +:+ b) with (String c (r +:+ b)). cbn [SimpleUrl.allChars].
  now rewrite IH, andb_assoc.
Qed.

Lemma splitAt_app stop a b :
  SimpleUrl.allChars (fun c => negb (stop c)) a = true ->
  match b with EmptyString => True | String c _ => stop c = true end ->
  SimpleUrl.splitAt stop (a +:+ b) = (a, b).
Proof.
  intros Ha Hb. induction a as [|x a IH].
  - destruct b as [|c r]; [reflexivity|].
    change ("" +:+ String c r) with (String c r). cbn [SimpleUrl.splitAt]. now rewrite Hb.
  - cbn [SimpleUrl.allChars] in Ha. apply andb_true_iff in Ha as [Hx Ha].
    apply negb_true_iff in Hx.
    change (String x a +:+ b) with (String x (a +:+ b)). cbn [SimpleUrl.splitAt].
    now rewrite Hx, (IH Ha).
Qed.

Lemma splitAt_parts stop s a b :
  SimpleUrl.splitAt stop s = (a, b) ->
  match b with EmptyString => True | String c _ => stop c = true end.
Proof.
  revert a b. induction s as [|x s IH]; intros a b H.
  - cbn in H. now injection H as <- <-.
  - cbn [SimpleUrl.splitAt] in H. destruct (stop x) eqn:Hx.
    + injection H as <- <-. exact Hx.
    + destruct (SimpleUrl.splitAt stop s) as [a' b'] eqn:E. injection H as <- <-.
      exact (IH a' b' eq_refl).
Qed.

Lemma substring_whole s : substring 0 (String.length s) s = s.
Proof. induction s as [|c r IH]; [reflexivity|]. cbn. now rewrite IH. Qed.

Lemma parse_with_scheme sch rest :
  sch = "https"%string \/ sch = "http"%string ->
  SimpleUrl.parse (sch +:+ "://" +:+ rest) = SimpleUrl.parseRest sch rest.
Proof.
  intros [-> | ->]; unfold SimpleUrl.parse.
  - change (Js.startsWith "https://" ("https" +:+ "://" +:+ rest)) with true. cbv iota.
    change (String.length ("https" +:+ "://" +:+ rest)) with (8 + String.length rest).
    replace (8 + String.length rest - 8) with (String.length rest) by lia.
    change (substring 8 (String.length rest) ("https" +:+ "://" +:+ rest))
      with (substring 0 (String.length rest) rest).
    now rewrite substring_whole.
  - change (Js.startsWith "https://" ("http" +:+ "://" +:+ rest)) with false.
    change (Js.startsWith "http://" ("http" +:+ "://" +:+ rest)) with true. cbv iota.
    change (String.length ("http" +:+ "://" +:+ rest)) with (7 + String.length rest).
    replace (7 + String.length rest - 7) with (String.length rest) by lia.
    change (substring 7 (String.length rest) ("http" +:+ "://" +:+ rest))
      with (substring 0 (String.length rest) rest).
    now rewrite substring_whole.
Qed.

Lemma splitAt_all stop a :
  SimpleUrl.allChars (fun c => negb (stop c)) a = true ->
  SimpleUrl.splitAt stop a = (a, EmptyString).
Proof.
  intros Ha. rewrite <- (string_app_empty_r a) at 1. now apply splitAt_app.
Qed.

Lemma allChars_noWhiteSpace p s :
  (forall c, p c = true -> Js.isWhiteSpace c = false) ->
  SimpleUrl.allChars p s = true -> noWhiteSpace s = true.
Proof.
  intros Hp. induction s as [|c r IH]; [reflexivity|].
  cbn [SimpleUrl.allChars noWhiteSpace]. intros H.
  apply andb_true_iff in H as [Hc Hr]. now rewrite (Hp c Hc), IH.
Qed.

Lemma allChars_no_final_slash p s :
  (forall c, p c = true -> Ascii.eqb c "/" = false) ->
  SimpleUrl.allChars p s = true -> Js.endsWithChar "/" s = false.
Proof.
  intros Hp. induction s as [|c r IH]; [reflexivity|].
  cbn [SimpleUrl.allChars]. intros H. apply andb_true_iff in H as [Hc Hr].
  destruct r as [|b r']; [exact (Hp c Hc) | exact (IH Hr)].
Qed.

Lemma parseRest_plain sch h p :
  Js.truthy h = true ->
  SimpleUrl.allChars SimpleUrl.isHostChar h = true ->
  SimpleUrl.allChars SimpleUrl.isPathChar p = true ->
  (p = EmptyString \/ exists r, p = String "/" r) ->
  SimpleUrl.parseRest sch (h +:+ p)
  = Some {| SimpleUrl.scheme := sch; SimpleUrl.host := h;
            SimpleUrl.path := if Js.truthy p then p else "/";
            SimpleUrl.query := None; SimpleUrl.fragment := None |}.
Proof.
  intros Hh Hhost Hpath Hp. unfold SimpleUrl.parseRest.
  rewrite (splitAt_app (SimpleUrl.isOneOf "/?#") h p).
  - rewrite (splitAt_all (SimpleUrl.isOneOf "?#") p).
    + cbn [SimpleUrl.splitAt]. now rewrite Hh, Hhost, Hpath.
    + eapply allChars_impl; [| exact Hpath].
      intros c Hc. now rewrite (proj1 (pathChar_facts c Hc)).
  - eapply allChars_impl; [| exact Hhost].
    intros c Hc. now rewrite (proj1 (hostChar_facts c Hc)).
  - destruct Hp as [-> | (r & ->)]; [exact I | reflexivity].
Qed.

Lemma parseRest_wellFormed sch rest u :
  sch = "https"%string \/ sch = "http"%string ->
  SimpleUrl.parseRest sch rest = Some u -> wellFormed u.
Proof.
  intros Hsch. unfold SimpleUrl.parseRest.
  destruct (SimpleUrl.splitAt (SimpleUrl.isOneOf "/?#") rest) as [h afterHost] eqn:E1.
  destruct (SimpleUrl.splitAt (SimpleUrl.isOneOf "?#") afterHost) as [p afterPath] eqn:E2.
  destruct (SimpleUrl.splitAt (SimpleUrl.isOneOf "#") afterPath) as [q afterQuery].
  destruct (Js.truthy h && SimpleUrl.allChars SimpleUrl.isHostChar h
            && SimpleUrl.allChars SimpleUrl.isPathChar p) eqn:C; [| discriminate].
  intros [= <-]. apply andb_true_iff in C as [C Hpath]. apply andb_true_iff in C as [Hh Hhost].
  unfold wellFormed. cbn. split; [exact Hsch|]. split; [exact Hh|]. split; [exact Hhost|].
  destruct p as [|c r]; [split; [reflexivity | now exists EmptyString]|].
  cbn [Js.truthy]. split; [exact Hpath|]. exists r. f_equal.
  apply splitAt_parts in E1. destruct afterHost as [|x rest']; [discriminate E2|].
  cbn [SimpleUrl.splitAt] in E2. destruct (SimpleUrl.isOneOf "?#" x) eqn:Hx; [discriminate E2|].
  destruct (SimpleUrl.splitAt (SimpleUrl.isOneOf "?#") rest'). injection E2 as <- _ _.
  now apply stop_is_slash.
Qed.

Lemma parse_wellFormed s u : SimpleUrl.parse s = Some u -> wellFormed u.
Proof.
  unfold SimpleUrl.parse. destruct (Js.startsWith "https://" s).
  - apply parseRest_wellFormed. now left.
  - destruct (Js.startsWith "http://" s); [| discriminate].
    apply parseRest_wellFormed. now right.
Qed.

Lemma cleaned_simple (u : SimpleUrl.t) :
  cleaned SimpleUrl.api u
  = SimpleUrl.scheme u +:+ "://" +:+ SimpleUrl.host u +:+ SimpleUrl.path u.
Proof.
  unfold cleaned. cbn. unfold SimpleUrl.serialize. cbn.
  change ("" +:+ "")%string with ""%string. now rewrite string_app_empty_r.
Qed.

Lemma SimpleUrl_laws : UrlLaws SimpleUrl.api.
Proof.
  split.
  - intros s u Hu _. apply parse_wellFormed in Hu as (Hs & _ & Hhost & Hpath & _).
    rewrite cleaned_simple, !noWhiteSpace_app.
    rewrite (allChars_noWhiteSpace _ _ (fun c H => proj1 (proj2 (hostChar_facts c H))) Hhost).
    rewrite (allChars_noWhiteSpace _ _ (fun c H => proj2 (pathChar_facts c H)) Hpath).
    now destruct Hs as [-> | ->].
  - intros s u Hu _. apply parse_wellFormed in Hu as (Hs & Hh & Hhost & Hpath & p & Hp).
    cbn [newURL hostname SimpleUrl.api]. rewrite (cleaned_simple u).
    rewrite (parse_with_scheme _ _ Hs).
    rewrite (parseRest_plain _ _ _ Hh Hhost Hpath) by (right; now exists p).
    eexists. split; [reflexivity|]. split; [reflexivity|].
    rewrite cleaned_simple. cbn. now rewrite Hp.
  - intros s u t Hu _ Ht.
    apply parse_wellFormed in Hu as (Hs & Hh & Hhost & Hpath & p & Hp).
    cbn [newURL hostname SimpleUrl.api]. rewrite cleaned_simple in Ht.
    assert (Js.endsWithChar "/" (SimpleUrl.path u) = true) as Hend.
    { rewrite <- (endsWithChar_app "/" (SimpleUrl.scheme u +:+ "://" +:+ SimpleUrl.host u))
        by (rewrite Hp; discriminate).
      rewrite !string_app_assoc, Ht. apply endsWithChar_app_char. }
    pose proof (endsWithChar_split _ _ Hend) as Hsplit.
    set (p0 := Js.dropLast (SimpleUrl.path u)) in *.
    assert (t = SimpleUrl.scheme u +:+ "://" +:+ SimpleUrl.host u +:+ p0) as ->.
    { apply (append_char_inj "/"). rewrite <- Ht, Hsplit at 1.
      now rewrite !string_app_assoc. }
    assert (SimpleUrl.allChars SimpleUrl.isPathChar p0 = true) as Hp0.
    { rewrite Hsplit, allChars_app in Hpath. now apply andb_true_iff in Hpath as [H _]. }
    assert (p0 = EmptyString \/ exists r, p0 = String "/" r) as Hshape.
    { destruct p0 as [|x r]; [now left | right]. exists r. rewrite Hp in Hsplit.
      change (String x r +:+ String "/" EmptyString)
        with (String x (r +:+ String "/" EmptyString)) in Hsplit.
      now injection Hsplit as <- _. }
    rewrite (parse_with_scheme _ _ Hs).
    rewrite (parseRest_plain _ _ _ Hh Hhost Hp0 Hshape).
    eexists. split; [reflexivity|]. split; [reflexivity|].
    rewrite cleaned_simple. cbn [SimpleUrl.scheme SimpleUrl.host SimpleUrl.path].
    destruct Hshape as [-> | (r & ->)].
    + right. cbn [Js.truthy]. rewrite string_app_empty_r. split.
      * now rewrite !string_app_assoc.
      * rewrite <- string_app_assoc.
        rewrite endsWithChar_app by (destruct (SimpleUrl.host u); discriminate).
        exact (allChars_no_final_slash _ _
                 (fun c H => proj1 (proj2 (proj2 (hostChar_facts c H)))) Hhost).
    + left. reflexivity.
Qed.

(** C10 (as amended) -- [normalizeLinkedInUrl] always returns a string: the
    empty string for a missing, null or empty input, and the trimmed input
    when the input does not parse or its host does not contain [linkedin].
    On every such input a second application changes nothing.  On a
    LinkedIn URL the result is the serialised URL, fragment and query
    cleared, without its last slash when it ends with one: exactly one
    slash is removed, so a serialisation that ends with two slashes gives a
    result that still ends with one.  With a URL class that reads its
    serialisations back, a second application changes nothing exactly when
    that serialisation does not end with two slashes. *)
Theorem normalizeLinkedInUrl_total_idempotent_modulo_slashes (api : UrlApi) :
  (normalizeLinkedInUrl api Js.Undefined = "" /\
   normalizeLinkedInUrl api Js.Null = "" /\
   normalizeLinkedInUrl api (Js.Str "") = "") /\
  (forall s, isLinkedInUrl api s = false ->
             normalizeLinkedInUrl api (Js.Str s) = Js.trim s) /\
  (forall v, (forall s, v = Js.Str s -> isLinkedInUrl api s = false) ->
             normalizeLinkedInUrl api (Js.Str (normalizeLinkedInUrl api v))
             = normalizeLinkedInUrl api v) /\
  (forall s u,
      Js.truthy s = true -> newURL api (Js.trim s) = Some u ->
      Js.includes "linkedin" (hostname api u) = true ->
      (forall t, cleaned api u = t +:+ "/" -> normalizeLinkedInUrl api (Js.Str s) = t) /\
      (Js.endsWithChar "/" (cleaned api u) = false ->
       normalizeLinkedInUrl api (Js.Str s) = cleaned api u) /\
      (UrlLaws api ->
       (normalizeLinkedInUrl api (Js.Str (normalizeLinkedInUrl api (Js.Str s)))
        = normalizeLinkedInUrl api (Js.Str s)
        <-> forall t, cleaned api u <> t +:+ "//"))).
Proof.
  split; [repeat split |]. split; [apply normalize_off_linkedin |]. split.
  - intros [| |s] H; try reflexivity.
    specialize (H s eq_refl).
    rewrite (normalize_off_linkedin api s H).
    rewrite normalize_off_linkedin by now rewrite isLinkedInUrl_trim.
    apply trim_idem.
  - intros s u Ht Hu Hh. split; [| split].
    + intros t Hser. rewrite (normalize_linkedin api s u Ht Hu Hh), Hser.
      change (t +:+ "/") with (t +:+ String "/" EmptyString).
      now rewrite endsWithChar_app_char, dropLast_app_char.
    + intros Hend. now rewrite (normalize_linkedin api s u Ht Hu Hh), Hend.
    + intros Laws. now apply normalize_twice_iff.
Qed.

(** [not a url] and [https://example.com/x] are not LinkedIn URLs; the
    serialisation of [https://www.linkedin.com/in/jane-doe/?trk=abc#top]
    ends with one slash, that of [https://www.linkedin.com/in/foo//] with
    two, of which one is kept. *)
Lemma normalizeLinkedInUrl_witness :
  normalizeLinkedInUrl SimpleUrl.api (Js.Str "  not a url ") = "not a url" /\
  normalizeLinkedInUrl SimpleUrl.api
    (Js.Str (normalizeLinkedInUrl SimpleUrl.api (Js.Str " https://example.com/x ")))
  = normalizeLinkedInUrl SimpleUrl.api (Js.Str " https://example.com/x ") /\
  normalizeLinkedInUrl SimpleUrl.api (Js.Str "https://www.linkedin.com/in/foo//")
  = "https://www.linkedin.com/in/foo/" /\
  normalizeLinkedInUrl SimpleUrl.api
    (Js.Str (normalizeLinkedInUrl SimpleUrl.api
               (Js.Str "https://www.linkedin.com/in/jane-doe/?trk=abc#top")))
  = normalizeLinkedInUrl SimpleUrl.api
      (Js.Str "https://www.linkedin.com/in/jane-doe/?trk=abc#top").
Proof.
  destruct (normalizeLinkedInUrl_total_idempotent_modulo_slashes SimpleUrl.api)
    as (_ & Hoff & Hidem & Hli).
  split; [| split; [| split]].
  - apply (Hoff "  not a url "). vm_compute. reflexivity.
  - apply (Hidem (Js.Str " https://example.com/x ")).
    intros s [= <-]. vm_compute. reflexivity.
  - destruct (Hli "https://www.linkedin.com/in/foo//"
                  {| SimpleUrl.scheme := "https"; SimpleUrl.host := "www.linkedin.com";
                     SimpleUrl.path := "/in/foo//"; SimpleUrl.query := None;
                     SimpleUrl.fragment := None |} eq_refl eq_refl eq_refl)
      as (Hone & _ & _).
    apply (Hone "https://www.linkedin.com/in/foo/"). reflexivity.
  - destruct (Hli "https://www.linkedin.com/in/jane-doe/?trk=abc#top"
                  {| SimpleUrl.scheme := "https"; SimpleUrl.host := "www.linkedin.com";
                     SimpleUrl.path := "/in/jane-doe/"; SimpleUrl.query := Some "trk=abc";
                     SimpleUrl.fragment := Some "top" |} eq_refl eq_refl eq_refl)
      as (_ & _ & Htwice).
    apply (Htwice SimpleUrl_laws). intros t Heq.
    assert (Js.endsWithChar "/" "https://www.linkedin.com/in/jane-doe" = true) as E
      by (apply ends_double_slash; exists t; exact Heq).
    vm_compute in E. discriminate E.
Defined.

(** C10 (as stated) fails: a LinkedIn URL whose path ends in two slashes
    loses one slash at each application, so the second application does
    not return what the first returned. *)
Lemma normalizeLinkedInUrl_not_idempotent :
  normalizeLinkedInUrl SimpleUrl.api (Js.Str "https://www.linkedin.com/in/foo//")
  = "https://www.linkedin.com/in/foo/" /\
  normalizeLinkedInUrl SimpleUrl.api
    (Js.Str (normalizeLinkedInUrl SimpleUrl.api (Js.Str "https://www.linkedin.com/in/foo//")))
  = "https://www.linkedin.com/in/foo" /\
  normalizeLinkedInUrl SimpleUrl.api
    (Js.Str (normalizeLinkedInUrl SimpleUrl.api (Js.Str "https://www.linkedin.com/in/foo//")))
  <> normalizeLinkedInUrl SimpleUrl.api (Js.Str "https://www.linkedin.com/in/foo//").
Proof.
  split; [vm_compute; reflexivity |].
  split; [vm_compute; reflexivity |].
  vm_compute. discriminate.
Qed.
